(** * Trending items by decayed rolling z-score: a model of [trending.py]

    The development embeds the class [trend] of [src/trending.py]:
    the event aggregation of [load_data], the lag vector and sentinel of
    [zvalue], the decayed z-score engine [rolling_zscore] and the ranking of
    [calc].

    Python exceptions are results of an error monad.  The engine is written
    over an arithmetic interface and run on IEEE binary64 (Python's [float],
    through the Standard Library's executable specification [SpecFloat]). *)

From Stdlib Require Import ZArith List Bool Lia SpecFloat.
From Stdlib Require Import Permutation Sorted.
Import ListNotations.

Local Open Scope Z_scope.

(** ** Exceptions and results *)

Inductive exn : Type :=
| IndexError
| ValueError
| OverflowError
| ZeroDivisionError
| KeyError
| TypeError
| AttributeError.

Inductive res (A : Type) : Type :=
| Ok (a : A)
| Raise (e : exn).

Arguments Ok {A} a.
Arguments Raise {A} e.

Definition bind {A B : Type} (m : res A) (k : A -> res B) : res B :=
  match m with
  | Ok a => k a
  | Raise e => Raise e
  end.

Notation "x <- m ;; k" := (bind m (fun x => k))
  (at level 61, m at next level, right associativity).
Notation "' p <- m ;; k" := (bind m (fun x => match x with p => k end))
  (at level 61, p pattern, m at next level, right associativity).

Definition is_ok {A : Type} (m : res A) : bool :=
  match m with Ok _ => true | Raise _ => false end.

(** ** Arithmetic interface

    What the engine asks of its numbers.  [of_int] is Python's conversion of
    an [int] operand to [float]; [fsquare x] is [x ** 2]; [round_sqrt x] is
    the expression [round(sqrt(x))], whose result is a Python [int]. *)

Record Arith (F : Type) : Type := {
  of_int : Z -> res F;
  fadd : F -> F -> F;
  fsub : F -> F -> F;
  fmul : F -> F -> F;
  fdiv : F -> F -> res F;
  fsquare : F -> res F;
  round_sqrt : F -> res Z
}.

Arguments of_int {F} _ _.
Arguments fadd {F} _ _ _.
Arguments fsub {F} _ _ _.
Arguments fmul {F} _ _ _.
Arguments fdiv {F} _ _ _.
Arguments fsquare {F} _ _.
Arguments round_sqrt {F} _ _.

(** ** IEEE binary64 *)

Module B64.

Definition prec : Z := 53.
Definition emax : Z := 1024.

Definition float : Type := spec_float.

Definition zero : float := S754_zero false.
Definition neg_infinity : float := S754_infinity true.

Definition add : float -> float -> float := SFadd prec emax.
Definition sub : float -> float -> float := SFsub prec emax.
Definition mul : float -> float -> float := SFmul prec emax.
Definition ltb : float -> float -> bool := SFltb.

Definition is_nan (x : float) : bool :=
  match x with S754_nan => true | _ => false end.

Definition is_finite (x : float) : bool :=
  match x with
  | S754_zero _ | S754_finite _ _ _ => true
  | _ => false
  end.

Definition is_zero (x : float) : bool :=
  match x with S754_zero _ => true | _ => false end.

(** [float(n)] for a Python int: the nearest double, ties to even;
    [OverflowError] when [n] is beyond the largest double. *)
Definition of_int (n : Z) : res float :=
  match binary_normalize prec emax n 0 false with
  | S754_infinity _ => Raise OverflowError
  | x => Ok x
  end.

(** [x / y] on floats: [ZeroDivisionError] on a zero divisor. *)
Definition div (x y : float) : res float :=
  if is_zero y then Raise ZeroDivisionError else Ok (SFdiv prec emax x y).

(** [x ** 2] on a float: the correctly rounded square; [OverflowError]
    when the square of a finite [x] is beyond the largest double. *)
Definition square (x : float) : res float :=
  match x, mul x x with
  | S754_finite _ _ _, S754_infinity _ => Raise OverflowError
  | _, r => Ok r
  end.

(** [round(x)] with one argument: the nearest integer, ties to even;
    [ValueError] on NaN and [OverflowError] on an infinity. *)
Definition round (x : float) : res Z :=
  match x with
  | S754_nan => Raise ValueError
  | S754_infinity _ => Raise OverflowError
  | S754_zero _ => Ok 0
  | S754_finite s m e =>
      let n :=
        match e with
        | Z0 => Zpos m
        | Zpos p => Zpos m * 2 ^ Zpos p
        | Zneg p =>
            let d := 2 ^ Zpos p in
            let q := Zpos m / d in
            let r := Zpos m mod d in
            match 2 * r ?= d with
            | Lt => q
            | Gt => q + 1
            | Eq => if Z.even q then q else q + 1
            end
        end in
      Ok (if s then - n else n)
  end.

(** [math.sqrt(x)]: [ValueError] ("math domain error") below zero. *)
Definition sqrt (x : float) : res float :=
  if ltb x zero then Raise ValueError else Ok (SFsqrt prec emax x).

Definition round_sqrt (x : float) : res Z :=
  r <- sqrt x ;; round r.

Definition arith : Arith float :=
  Build_Arith float of_int add sub mul div square round_sqrt.

(** The doubles written [0.1] and [0.5] in Python source. *)
Definition f0_1 : float := S754_finite false 7205759403792794 (-56).
Definition f0_5 : float := S754_finite false 4503599627370496 (-53).

End B64.

(** ** The engine: [rolling_zscore] *)

Section Engine.

Context {F : Type} (A : Arith F).

(** The nested function [add_to_history]; [decay] is read from the
    enclosing call. *)
Definition add_to_history (decay : F) (point : Z) (average sq_average : F)
  : res (F * F) :=
  p <- of_int A point ;;
  one <- of_int A 1 ;;
  p2 <- of_int A (point ^ 2) ;;
  let average := fadd A (fmul A average decay) (fmul A p (fsub A one decay)) in
  let sq_average :=
    fadd A (fmul A sq_average decay) (fmul A p2 (fsub A one decay)) in
  Ok (average, sq_average).

(** The nested function [calculate_zscore].  Its body reads [avg], a
    variable of the enclosing call that the loops rebind; [avg] here is
    the content of that variable when the function is called. *)
Definition calculate_zscore (avg : F) (average sq_average : F) (value : Z)
  : res F :=
  avg2 <- fsquare A avg ;;
  std <- round_sqrt A (fsub A sq_average avg2) ;;
  v <- of_int A value ;;
  if std =? 0 then Ok (fsub A v average)
  else
    s <- of_int A std ;;
    fdiv A (fsub A v average) s.

(** [for point in data[1:]: avg, squared_average = add_to_history(...)] *)
Fixpoint history_loop (decay : F) (points : list Z) (avg squared_average : F)
  : res (F * F) :=
  match points with
  | [] => Ok (avg, squared_average)
  | point :: rest =>
      '(avg', sq') <- add_to_history decay point avg squared_average ;;
      history_loop decay rest avg' sq'
  end.

(** The loop over [observed_window]; returns [trends]. *)
Fixpoint observed_loop (decay : F) (window : list Z) (avg squared_average : F)
  : res (list F) :=
  match window with
  | [] => Ok []
  | point :: rest =>
      z <- calculate_zscore avg avg squared_average point ;;
      '(avg', sq') <- add_to_history decay point avg squared_average ;;
      trends <- observed_loop decay rest avg' sq' ;;
      Ok (z :: trends)
  end.

(** [sum(trends)]: the additions start from the int [0]. *)
Definition sum (trends : list F) : res F :=
  z <- of_int A 0 ;;
  Ok (fold_left (fadd A) trends z).

(** [sum(trends) / len(trends) if len(trends) != 0 else 0] *)
Definition mean_of_trends (trends : list F) : res F :=
  if Z.of_nat (length trends) =? 0 then of_int A 0
  else
    s <- sum trends ;;
    n <- of_int A (Z.of_nat (length trends)) ;;
    fdiv A s n.

(** The running statistics once the history is absorbed: the seeding from
    [data[0]] and the loop over [data[1:]]. *)
Definition history_state (data : list Z) (decay : F) : res (F * F) :=
  match data with
  | [] => Raise IndexError
  | d0 :: rest =>
      avg <- of_int A d0 ;;
      squared_average <- of_int A (d0 ^ 2) ;;
      history_loop decay rest avg squared_average
  end.

Definition rolling_zscore (data observed_window : list Z) (decay : F)
  : res F :=
  '(avg, squared_average) <- history_state data decay ;;
  trends <- observed_loop decay observed_window avg squared_average ;;
  mean_of_trends trends.

(** *** Two readings of the variance term

    [calculate_zscore] subtracts the square of [avg].  The first reading
    below takes [avg] to be the seed [float(data[0])] throughout; the
    second takes it to be the running mean, which is also the argument
    [average]. *)

Fixpoint observed_loop_seed (seed decay : F) (window : list Z)
                            (avg squared_average : F) : res (list F) :=
  match window with
  | [] => Ok []
  | point :: rest =>
      z <- calculate_zscore seed avg squared_average point ;;
      '(avg', sq') <- add_to_history decay point avg squared_average ;;
      trends <- observed_loop_seed seed decay rest avg' sq' ;;
      Ok (z :: trends)
  end.

Definition rolling_zscore_seed (data observed_window : list Z) (decay : F)
  : res F :=
  match data with
  | [] => Raise IndexError
  | d0 :: rest =>
      seed <- of_int A d0 ;;
      squared_average <- of_int A (d0 ^ 2) ;;
      '(avg, squared_average) <- history_loop decay rest seed squared_average ;;
      trends <- observed_loop_seed seed decay observed_window avg squared_average ;;
      mean_of_trends trends
  end.

Definition zscore_running (average sq_average : F) (value : Z) : res F :=
  average2 <- fsquare A average ;;
  std <- round_sqrt A (fsub A sq_average average2) ;;
  v <- of_int A value ;;
  if std =? 0 then Ok (fsub A v average)
  else
    s <- of_int A std ;;
    fdiv A (fsub A v average) s.

Fixpoint observed_loop_running (decay : F) (window : list Z)
                               (avg squared_average : F) : res (list F) :=
  match window with
  | [] => Ok []
  | point :: rest =>
      z <- zscore_running avg squared_average point ;;
      '(avg', sq') <- add_to_history decay point avg squared_average ;;
      trends <- observed_loop_running decay rest avg' sq' ;;
      Ok (z :: trends)
  end.

End Engine.

(** [rolling_zscore] on Python floats. *)
Definition rolling_zscore_float : list Z -> list Z -> B64.float -> res B64.float :=
  rolling_zscore B64.arith.

(** ** Python lists *)

(** The position a (possibly negative) index denotes in a list of [len]
    elements; [IndexError] out of range. *)
Definition py_index (len i : Z) : res nat :=
  if (0 <=? i) && (i <? len) then Ok (Z.to_nat i)
  else if (- len <=? i) && (i <? 0) then Ok (Z.to_nat (len + i))
  else Raise IndexError.

Fixpoint update {A : Type} (l : list A) (n : nat) (v : A) : list A :=
  match l, n with
  | [], _ => []
  | _ :: t, O => v :: t
  | h :: t, S n' => h :: update t n' v
  end.

(** [l[i]] *)
Definition list_get {A : Type} (l : list A) (i : Z) : res A :=
  n <- py_index (Z.of_nat (length l)) i ;;
  match nth_error l n with
  | Some x => Ok x
  | None => Raise IndexError
  end.

(** [l[i] = v] *)
Definition list_set {A : Type} (l : list A) (i : Z) (v : A) : res (list A) :=
  n <- py_index (Z.of_nat (length l)) i ;;
  Ok (update l n v).

(** [l[:-1]] and [l[-1:]] *)
Definition all_but_last {A : Type} (l : list A) : list A := removelast l.

Definition last_slice {A : Type} (l : list A) : list A :=
  skipn (length l - 1) l.

(** [[0]*n] *)
Definition zeros (n : Z) : list Z := repeat 0 (Z.to_nat n).

(** ** The event log and its aggregation: [load_data] *)

(** A row of the input table after [pd.to_datetime]: the timestamp is in
    seconds since the epoch, a missing [user_id] is [None]; item and
    timestamp are present in every row.  The column [interaction_type] is
    not read by the program. *)
Record event : Type := {
  item_id : Z;
  user_id : option Z;
  interaction_time : Z
}.

(** A row of [df_group]: columns [item_id], [lag], [user_count]. *)
Record group_row : Type := {
  g_item : Z;
  lag : Z;
  user_count : Z
}.

(** The attributes of a [trend] object; [item_list] and [data] exist only
    after [load_data].  [max_length] is [None] before [load_data], and also
    stands for the NaN that [min()] of an empty column gives. *)
Record trend : Type := {
  max_length : option Z;
  decay : B64.float;
  int_days : Z;
  item_list : option (list Z);
  data : option (list group_row)
}.

(** [trend.__init__] *)
Definition init (decay : B64.float) (interval_days : Z) : res trend :=
  Ok {| max_length := None;
        decay := decay;
        int_days := interval_days;
        item_list := None;
        data := None |}.

Definition seconds_per_day : Z := 86400.

(** [pd.datetime.now().date()] as a day number, [now] being the clock's
    reading in seconds. *)
Definition date (now : Z) : Z := now / seconds_per_day.

(** [(data[interaction_time] - pd.datetime.now().date()).dt.days]: the whole
    days, rounded down, from midnight of the clock's date to the event. *)
Definition dt_days (now : Z) (t : Z) : Z :=
  (t - seconds_per_day * date now) / seconds_per_day.

(** [(days / self.int_days).astype(int)]: truncation toward zero.  The
    float quotient of two integers below 2^53 truncates to their integer
    quotient. *)
Definition bucket (interval_days now : Z) (e : event) : Z :=
  Z.quot (dt_days now (interaction_time e)) interval_days.

(** [data.sort_values([interaction_time])] *)
Fixpoint insert_by_time (e : event) (l : list event) : list event :=
  match l with
  | [] => [e]
  | h :: t =>
      if interaction_time h <=? interaction_time e
      then h :: insert_by_time e t
      else e :: l
  end.

Definition sort_by_time (events : list event) : list event :=
  fold_left (fun acc e => insert_by_time e acc) events [].

(** [Series.min()] *)
Definition series_min (l : list Z) : option Z :=
  match l with
  | [] => None
  | h :: t => Some (fold_left Z.min t h)
  end.

(** The keys of [groupby([item_col, 'diff'])]: each pair once, in
    increasing order of item, then of bucket. *)
Definition key_lt (a b : Z * Z) : bool :=
  (fst a <? fst b) || ((fst a =? fst b) && (snd a <? snd b)).

Definition key_eqb (a b : Z * Z) : bool :=
  (fst a =? fst b) && (snd a =? snd b).

Fixpoint insert_key (k : Z * Z) (ks : list (Z * Z)) : list (Z * Z) :=
  match ks with
  | [] => [k]
  | h :: t =>
      if key_eqb k h then ks
      else if key_lt k h then k :: ks
      else h :: insert_key k t
  end.

Definition group_keys (keyed : list (Z * Z * option Z)) : list (Z * Z) :=
  fold_left (fun acc r => insert_key (fst r) acc) keyed [].

(** [[user_col].count()] of one group: the rows of the group whose user is
    not missing. *)
Definition in_group (k : Z * Z) (r : Z * Z * option Z) : bool :=
  key_eqb (fst r) k &&
  match snd r with Some _ => true | None => false end.

Definition group_count (keyed : list (Z * Z * option Z)) (k : Z * Z) : Z :=
  Z.of_nat (length (filter (in_group k) keyed)).

Definition groupby_count (keyed : list (Z * Z * option Z)) : list group_row :=
  map (fun k => {| g_item := fst k; lag := snd k;
                   user_count := group_count keyed k |})
      (group_keys keyed).

(** [Series.unique()]: first occurrences, in order of appearance. *)
Definition unique (l : list Z) : list Z :=
  fold_left (fun acc x => if existsb (Z.eqb x) acc then acc else acc ++ [x])
            l [].

(** [trend.load_data], reading the wall clock [now].  A zero
    [interval_days] makes every quotient infinite or NaN, which
    [astype(int)] refuses. *)
Definition load_data (self : trend) (events : list event) (now : Z)
  : res trend :=
  let sorted := sort_by_time events in
  if (int_days self =? 0) && negb (length sorted =? 0)%nat
  then Raise ValueError
  else
    let keyed :=
      map (fun e => (item_id e, bucket (int_days self) now e, user_id e))
          sorted in
    let diff := map (fun r => snd (fst r)) keyed in
    let df_group := groupby_count keyed in
    Ok {| max_length := option_map Z.opp (series_min diff);
          decay := decay self;
          int_days := int_days self;
          item_list := Some (unique (map g_item df_group));
          data := Some df_group |}.

(** ** The lag vector and the score of one item: [zvalue] *)

(** The loop [for i,j in zip(loc,range(len(value))): vec[i]=value[j]]. *)
Fixpoint write_loop (vec : list Z) (value : list Z) (pairs : list (Z * nat))
  : res (list Z) :=
  match pairs with
  | [] => Ok vec
  | (i, j) :: rest =>
      v <- list_get value (Z.of_nat j) ;;
      vec' <- list_set vec i v ;;
      write_loop vec' value rest
  end.

(** The dense vector of an item: lines 86 and 91-94 of [zvalue]. *)
Definition lag_vector (length : Z) (df_filtered : list group_row)
  : res (list Z) :=
  let vec := zeros (length + 1) in
  let loc := map (fun r => length + lag r) df_filtered in
  let value := map user_count df_filtered in
  write_loop vec value (combine loc (seq 0 (List.length value))).

Definition filter_item (df : list group_row) (item : Z) : list group_row :=
  filter (fun r => g_item r =? item) df.

Definition zvalue (self : trend) (df : list group_row) (item : Z)
                  (length : option Z) : res B64.float :=
  match length with
  | None => Raise TypeError
  | Some length =>
      let df_filtered := filter_item df item in
      if (List.length df_filtered =? 1)%nat then Ok B64.neg_infinity
      else
        vec <- lag_vector length df_filtered ;;
        rolling_zscore_float (all_but_last vec) (last_slice vec) (decay self)
  end.

(** ** The ranking: [calc] *)

Record score_row : Type := {
  item : Z;
  trending_score : B64.float
}.

(** [sort_values("trending_score", ascending=False)]: rows with a NaN score
    go last, the others by decreasing score; rows of equal score, whose
    order pandas leaves open, keep theirs.  [pd.DataFrame] of an empty
    list has no column, and sorting by a missing column is a [KeyError]. *)
Fixpoint insert_desc (r : score_row) (l : list score_row) : list score_row :=
  match l with
  | [] => [r]
  | h :: t =>
      if B64.ltb (trending_score r) (trending_score h)
      then h :: insert_desc r t
      else r :: l
  end.

Definition sort_desc (l : list score_row) : list score_row :=
  fold_right insert_desc [] l.

Definition sort_values_desc (rows : list score_row) : res (list score_row) :=
  match rows with
  | [] => Raise KeyError
  | _ =>
      Ok (sort_desc (filter (fun r => negb (B64.is_nan (trending_score r))) rows)
          ++ filter (fun r => B64.is_nan (trending_score r)) rows)
  end.

Fixpoint score_items (self : trend) (df : list group_row) (items : list Z)
  : res (list score_row) :=
  match items with
  | [] => Ok []
  | it :: rest =>
      _score <- zvalue self df it (max_length self) ;;
      df_trend <- score_items self df rest ;;
      Ok ({| item := it; trending_score := _score |} :: df_trend)
  end.

Definition calc (self : trend) : res (list score_row) :=
  match item_list self, data self with
  | Some items, Some df =>
      df_trend <- score_items self df items ;;
      sort_values_desc df_trend
  | _, _ => Raise AttributeError
  end.

(** A whole run: construct, load, rank. *)
Definition run (decay : B64.float) (interval_days : Z) (events : list event)
               (now : Z) : res (list score_row) :=
  self <- init decay interval_days ;;
  self <- load_data self events now ;;
  calc self.

(** ** Reference notions used to state the properties *)

Definition ev (i u t : Z) : event :=
  {| item_id := i; user_id := Some u; interaction_time := t |}.

(** The number of distinct users among the events of an item in a bucket. *)
Definition distinct_users (interval_days now : Z) (events : list event)
                          (it b : Z) : Z :=
  let users :=
    flat_map (fun e =>
                if (item_id e =? it) && (bucket interval_days now e =? b)
                then match user_id e with Some u => [u] | None => [] end
                else [])
             events in
  Z.of_nat (length (nodup Z.eq_dec users)).

(** The number of events of an item in a bucket whose user is not missing. *)
Definition event_count (interval_days now : Z) (events : list event)
                       (it b : Z) : Z :=
  Z.of_nat (length (filter (fun e =>
    (item_id e =? it) && (bucket interval_days now e =? b) &&
    match user_id e with Some _ => true | None => false end) events)).

(** An item with exactly one aggregated (item, bucket) point. *)
Definition single_point (df : list group_row) (it : Z) : Prop :=
  length (filter_item df it) = 1%nat.

(** The order of the group keys. *)
Definition klt (a b : Z * Z) : Prop := key_lt a b = true.

(** A write [(i, j)] of the loop of [zvalue] that is in range. *)
Definition in_bounds (vec value : list Z) (p : Z * nat) : Prop :=
  0 <= fst p < Z.of_nat (length vec) /\ (snd p < length value)%nat.

Definition not_finite (r : score_row) : Prop :=
  B64.is_finite (trending_score r) = false.

Definition not_nan (r : score_row) : Prop :=
  B64.is_nan (trending_score r) = false.

(** No row scored [-inf] stands before a row with a finite score. *)
Fixpoint neginf_last (l : list score_row) : Prop :=
  match l with
  | [] => True
  | a :: t =>
      (trending_score a = B64.neg_infinity -> Forall not_finite t)
      /\ neginf_last t
  end.

(** ** The rest of the program: [plot_trend] and [app] *)

(** [trend.plot_trend]: what is handed to matplotlib.  One line per item,
    [plt.plot(_lag, _num_user)], both columns reversed, and the labels of
    the legend.  [self.data] is read inside the loop only. *)
Fixpoint plot_lines (data : option (list group_row)) (items : list Z)
  : res (list (list Z * list Z)) :=
  match items with
  | [] => Ok []
  | it :: rest =>
      match data with
      | None => Raise AttributeError
      | Some df =>
          let df_filtered := filter_item df it in
          let _lag := rev (map lag df_filtered) in
          let _num_user := rev (map user_count df_filtered) in
          lines <- plot_lines data rest ;;
          Ok ((_lag, _num_user) :: lines)
      end
  end.

Definition plot_trend (self : trend) (items : list Z)
  : res (list (list Z * list Z) * list Z) :=
  lines <- plot_lines (data self) items ;;
  Ok (lines, items).

(** [app]: decay 0.1, interval of 40 days; the ranking is returned, its
    first three items are plotted. *)
Definition app (events : list event) (now : Z)
  : res (list score_row * (list (list Z * list Z) * list Z)) :=
  trend_obj <- init B64.f0_1 40 ;;
  trend_obj <- load_data trend_obj events now ;;
  trending_data <- calc trend_obj ;;
  let top_trending_items := map item (firstn 3 trending_data) in
  plots <- plot_trend trend_obj top_trending_items ;;
  Ok (trending_data, plots).

(** ** Further notions used to state properties *)

Definition has_user (e : event) : bool :=
  match user_id e with Some _ => true | None => false end.

Definition column_sum (l : list Z) : Z := fold_right Z.add 0 l.

(** Row [a] may stand above row [b]: its score is not the smaller one. *)
Definition not_below (a b : score_row) : Prop :=
  B64.ltb (trending_score a) (trending_score b) = false.

Definition row_key (r : group_row) : Z * Z := (g_item r, lag r).

(** A small loaded object, the table [calc] returns for it, and an object
    with a row in a future bucket, used to instantiate properties. *)
Definition sample_rows : list group_row :=
  [{| g_item := 1; lag := -1; user_count := 1 |};
   {| g_item := 1; lag := 0; user_count := 1 |};
   {| g_item := 2; lag := -1; user_count := 1 |}].

Definition sample_trend : trend :=
  {| max_length := Some 1; decay := B64.f0_5; int_days := 7;
     item_list := Some [1; 2]; data := Some sample_rows |}.

Definition sample_table : list score_row :=
  [{| item := 1; trending_score := S754_zero false |};
   {| item := 2; trending_score := B64.neg_infinity |}].

Definition future_rows : list group_row :=
  [{| g_item := 1; lag := -1; user_count := 1 |};
   {| g_item := 1; lag := 1; user_count := 1 |}].

Definition future_trend : trend :=
  {| max_length := Some 1; decay := B64.f0_5; int_days := 7;
     item_list := Some [1]; data := Some future_rows |}.

(** The place of a float in the order of [SFcompare]: sign class first,
    then exponent and mantissa. *)
Definition rank (x : B64.float) : Z * Z * Z :=
  match x with
  | S754_infinity true => (-2, 0, 0)
  | S754_finite true m e => (-1, - e, - Zpos m)
  | S754_zero _ => (0, 0, 0)
  | S754_finite false m e => (1, e, Zpos m)
  | S754_infinity false => (2, 0, 0)
  | S754_nan => (3, 0, 0)
  end.

Definition rank_lt (a b : Z * Z * Z) : Prop :=
  fst (fst a) < fst (fst b)
  \/ (fst (fst a) = fst (fst b)
      /\ (snd (fst a) < snd (fst b)
          \/ (snd (fst a) = snd (fst b) /\ snd a < snd b))).

(** ** Notions used to reason about rounding *)

(** [mrs] locates the rational [N / D]: its mantissa is the integer part
    and its two bits tell where the fraction stands against one half. *)
Definition inbetween (N D : Z) (mrs : shr_record) : Prop :=
  let m := shr_m mrs in
  0 <= m
  /\ match shr_r mrs, shr_s mrs with
     | false, false => N = m * D
     | false, true => m * D < N /\ 2 * N < (2 * m + 1) * D
     | true, false => 2 * N = (2 * m + 1) * D
     | true, true => (2 * m + 1) * D < 2 * N /\ N < (m + 1) * D
     end.

Definition rne (mrs : shr_record) : Z :=
  round_nearest_even (shr_m mrs) (loc_of_shr_record mrs).

(** What [binary_round_aux] makes of a rounded mantissa [m] at exponent
    [e]: a carry into bit 53 moves to the next exponent, and an exponent
    beyond the largest gives an infinity. *)
Definition finish (s : bool) (m e : Z) : spec_float :=
  if m =? 0 then S754_zero s
  else if m <? 9007199254740992 then
         (if e <=? 971 then S754_finite s (Z.to_pos m) e
          else S754_infinity s)
       else
         (if e + 1 <=? 971 then S754_finite s 4503599627370496 (e + 1)
          else S754_infinity s).

Definition mant (x : spec_float) : Z :=
  match x with
  | S754_finite s m _ => if s then - Zpos m else Zpos m
  | _ => 0
  end.

Definition expo (x : spec_float) : Z :=
  match x with S754_finite _ _ e => e | _ => 0 end.

(** The order of the values; false when either side is NaN. *)
Definition fle (x y : spec_float) : Prop :=
  match x, y with
  | S754_nan, _ | _, S754_nan => False
  | S754_infinity true, _ => True
  | _, S754_infinity false => True
  | S754_infinity false, _ => False
  | _, S754_infinity true => False
  | _, _ =>
      mant x * 2 ^ (expo x - Z.min (expo x) (expo y))
      <= mant y * 2 ^ (expo y - Z.min (expo x) (expo y))
  end.

(** The exponent [finish] gives a rounded mantissa. *)
Definition finish_exp (m e : Z) : Z :=
  if m <? 9007199254740992 then e else e + 1.

Definition nonneg (x : spec_float) : Prop :=
  match x with
  | S754_zero _ | S754_finite false _ _ | S754_infinity false => True
  | _ => False
  end.

Definition nonpos (x : spec_float) : Prop :=
  match x with
  | S754_zero _ | S754_finite true _ _ | S754_infinity true => True
  | _ => False
  end.

(** A double: a finite one has a mantissa in canonical position and an
    exponent in range. *)
Definition valid (x : spec_float) : Prop :=
  valid_binary B64.prec B64.emax x = true.

(** * Properties *)

(** ** The variance term of [calculate_zscore] *)

Section EngineFacts.

Context {F : Type} (A : Arith F).

Lemma calculate_zscore_running_mean (average sq_average : F) (value : Z) :
  calculate_zscore A average average sq_average value
  = zscore_running A average sq_average value.
Proof. reflexivity. Qed.

Lemma observed_loop_running_eq (decay : F) (window : list Z) :
  forall avg sq,
    observed_loop A decay window avg sq
    = observed_loop_running A decay window avg sq.
Proof.
  induction window as [| point rest IH]; intros avg sq; simpl.
  - reflexivity.
  - rewrite calculate_zscore_running_mean.
    destruct (zscore_running A avg sq point) as [z |]; simpl; [| reflexivity].
    destruct (add_to_history A decay point avg sq) as [[a' s'] |]; simpl;
      [| reflexivity].
    now rewrite IH.
Qed.

(** C1 (amended): at every observed point the standard deviation is
    [round(sqrt(sq_average - average^2))] where [average] is the running
    decayed mean at that point, the same value the point is compared
    with; the seed [data[0]] plays no other part than starting the mean. *)
Theorem std_uses_running_mean (decay : F) (window : list Z) (avg sq : F) :
  observed_loop A decay window avg sq
  = observed_loop_running A decay window avg sq
  /\ forall point rest,
       observed_loop A decay (point :: rest) avg sq
       = (avg2 <- fsquare A avg ;;
          std <- round_sqrt A (fsub A sq avg2) ;;
          v <- of_int A point ;;
          z <- (if std =? 0 then Ok (fsub A v avg)
                else s <- of_int A std ;; fdiv A (fsub A v avg) s) ;;
          '(avg', sq') <- add_to_history A decay point avg sq ;;
          trends <- observed_loop A decay rest avg' sq' ;;
          Ok (z :: trends)).
Proof.
  split.
  - apply observed_loop_running_eq.
  - intros point rest; simpl. unfold calculate_zscore.
    destruct (fsquare A avg) as [avg2 |]; simpl; [| reflexivity].
    destruct (round_sqrt A (fsub A sq avg2)) as [std |]; simpl;
      [| reflexivity].
    destruct (of_int A point) as [v |]; simpl; reflexivity.
Qed.

End EngineFacts.

(** C1 (as stated) fails: with history [[0; 10]], window [[10]] and decay
    [0.5] the running mean is 5 and the mean of squares 50, so the program
    divides by [round(sqrt(50 - 25)) = 5] and returns 1.0, where the seed
    reading divides by [round(sqrt(50 - 0)) = 7]. *)
Lemma std_not_from_seed :
  rolling_zscore_float [0; 10] [10] B64.f0_5
  = Ok (S754_finite false 4503599627370496 (-52))
  /\ rolling_zscore_seed B64.arith [0; 10] [10] B64.f0_5
     = Ok (S754_finite false 6433713753386423 (-53))
  /\ rolling_zscore_float [0; 10] [10] B64.f0_5
     <> rolling_zscore_seed B64.arith [0; 10] [10] B64.f0_5.
Proof.
  repeat split; try (vm_compute; reflexivity).
  vm_compute; discriminate.
Qed.

(** ** The engine on floats: sample runs *)

(** [f0_1] is the double nearest to one tenth. *)
Example f0_1_is_one_tenth :
  B64.div (S754_finite false 1 0) (S754_finite false 10 0) = Ok B64.f0_1.
Proof. vm_compute; reflexivity. Qed.

(** History [[5, 7, 6]] with decay 0.1: the observed value 20 scores 13.92
    and the observed value 6 scores -0.08000000000000007. *)
Example rolling_zscore_sample :
  rolling_zscore_float [5; 7; 6] [20] B64.f0_1
  = Ok (S754_finite false 7836263351624663 (-49))
  /\ rolling_zscore_float [5; 7; 6] [6] B64.f0_1
     = Ok (S754_finite true 5764607523034240 (-56)).
Proof. split; vm_compute; reflexivity. Qed.

(** An empty observed window scores 0 once the history is absorbed. *)
Lemma rolling_zscore_empty_window {F : Type} (A : Arith F)
      (data : list Z) (d : F) (st : F * F) :
  history_state A data d = Ok st ->
  rolling_zscore A data [] d = of_int A 0.
Proof.
  intros H; unfold rolling_zscore; rewrite H; destruct st; reflexivity.
Qed.

(** ** Totality of the engine on floats *)

(** C10: the program misses the case of a variance that rounding makes
    negative.  With history [[13; 13]] and the default decay [0.1] the
    running mean is 13.000000000000002 while the mean of squares is 169.0;
    the argument of [sqrt] is about -5.7e-14 and [math.sqrt] raises
    [ValueError]. *)
Theorem rolling_zscore_raises_on_constant_history :
  history_state B64.arith [13; 13] B64.f0_1
  = Ok (S754_finite false 7318349394477057 (-49),
        S754_finite false 5946158883012608 (-45))
  /\ B64.ltb (B64.sub (S754_finite false 5946158883012608 (-45))
                      (B64.mul (S754_finite false 7318349394477057 (-49))
                               (S754_finite false 7318349394477057 (-49))))
             B64.zero = true
  /\ rolling_zscore_float [13; 13] [13] B64.f0_1 = Raise ValueError.
Proof. repeat split; vm_compute; reflexivity. Qed.

(** ** Construction *)

(** C9 (amended): the constructor validates nothing; for every decay and
    every interval it returns an object that stores them unchanged. *)
Theorem init_accepts_every_decay (d : B64.float) (interval_days : Z) :
  exists self,
    init d interval_days = Ok self
    /\ decay self = d
    /\ int_days self = interval_days
    /\ max_length self = None.
Proof. eexists; repeat split. Qed.

(** C9 (as stated) fails: a decay of 2.0 is accepted. *)
Lemma init_accepts_decay_two :
  B64.ltb (S754_finite false 1 0) (S754_finite false 2 0) = true
  /\ is_ok (init (S754_finite false 2 0) 7) = true.
Proof. split; reflexivity. Qed.

(** ** The empty event log *)

(** C4: on an empty event log [load_data] succeeds and leaves an empty
    [item_list]; [calc] then builds [pd.DataFrame([])], which has no
    column [trending_score], and sorting by it raises [KeyError]. *)
Theorem empty_dataset_raises (d : B64.float) (interval_days now : Z) :
  run d interval_days [] now = Raise KeyError.
Proof.
  unfold run, init, load_data; simpl.
  rewrite andb_false_r; reflexivity.
Qed.

(** ** The reference instant *)

Lemma dt_days_same_date (now1 now2 t : Z) :
  date now1 = date now2 -> dt_days now1 t = dt_days now2 t.
Proof. unfold dt_days; intros ->; reflexivity. Qed.

Lemma bucket_same_date (interval_days now1 now2 : Z) (e : event) :
  date now1 = date now2 ->
  bucket interval_days now1 e = bucket interval_days now2 e.
Proof.
  unfold bucket; intros H; now rewrite (dt_days_same_date now1 now2).
Qed.

Lemma load_data_same_date (self : trend) (events : list event) (now1 now2 : Z) :
  date now1 = date now2 ->
  load_data self events now1 = load_data self events now2.
Proof.
  intros H; unfold load_data.
  assert (E : map (fun e => (item_id e, bucket (int_days self) now1 e, user_id e))
                  (sort_by_time events)
              = map (fun e => (item_id e, bucket (int_days self) now2 e, user_id e))
                    (sort_by_time events)).
  { apply map_ext; intros e; now rewrite (bucket_same_date _ now1 now2). }
  now rewrite E.
Qed.

(** C5 (amended): the reference instant is the wall clock read inside
    [load_data]; the output of a run depends on the time of execution
    only through the clock's calendar date, so two runs on the same input,
    decay and interval started on the same date give the same table. *)
Theorem run_depends_on_clock_date
  (d : B64.float) (interval_days : Z) (events : list event) (now1 now2 : Z) :
  date now1 = date now2 ->
  run d interval_days events now1 = run d interval_days events now2.
Proof.
  intros H; unfold run, init; simpl.
  now rewrite (load_data_same_date _ events now1 now2 H).
Qed.

Lemma run_depends_on_clock_date_witness :
  run B64.f0_5 7 [ev 1 7 0; ev 1 7 864000] 864000
  = run B64.f0_5 7 [ev 1 7 0; ev 1 7 864000] 900000.
Proof.
  apply (run_depends_on_clock_date B64.f0_5 7 [ev 1 7 0; ev 1 7 864000]
                                   864000 900000).
  reflexivity.
Defined.

(** C5 (as stated) fails: the same two events, decay and interval give
    score 0.0 when the run is made on day 10 and score -1.0 on day 20. *)
Lemma run_depends_on_execution_day :
  run B64.f0_5 7 [ev 1 7 0; ev 1 7 864000] 864000
  = Ok [{| item := 1; trending_score := S754_zero false |}]
  /\ run B64.f0_5 7 [ev 1 7 0; ev 1 7 864000] 1728000
     = Ok [{| item := 1;
              trending_score := S754_finite true 4503599627370496 (-52) |}]
  /\ run B64.f0_5 7 [ev 1 7 0; ev 1 7 864000] 864000
     <> run B64.f0_5 7 [ev 1 7 0; ev 1 7 864000] 1728000.
Proof.
  repeat split; try (vm_compute; reflexivity).
  vm_compute; discriminate.
Qed.

(** ** The aggregation of [load_data] *)

Section Aggregation.

Lemma insert_by_time_perm (e : event) (l : list event) :
  Permutation (insert_by_time e l) (e :: l).
Proof.
  induction l as [| h t IH]; simpl.
  - apply Permutation_refl.
  - destruct (interaction_time h <=? interaction_time e).
    + eapply perm_trans; [apply perm_skip, IH | apply perm_swap].
    + apply Permutation_refl.
Qed.

Lemma sort_by_time_perm (events : list event) :
  Permutation (sort_by_time events) events.
Proof.
  unfold sort_by_time.
  assert (G : forall l acc,
             Permutation (fold_left (fun acc e => insert_by_time e acc) l acc)
                         (acc ++ l)).
  { induction l as [| e l IH]; intros acc; simpl.
    - rewrite app_nil_r; apply Permutation_refl.
    - eapply perm_trans; [apply IH |].
      eapply perm_trans;
        [apply Permutation_app_tail, insert_by_time_perm |].
      simpl. apply Permutation_middle. }
  apply (G events []).
Qed.

Lemma filter_length_perm {A : Type} (f : A -> bool) (l l' : list A) :
  Permutation l l' -> length (filter f l) = length (filter f l').
Proof.
  induction 1 as [| x l l' _ IH | x y l | l l' l'' _ IH1 _ IH2]; simpl.
  - reflexivity.
  - destruct (f x); simpl; now rewrite IH.
  - destruct (f x), (f y); reflexivity.
  - now rewrite IH1.
Qed.

Lemma filter_map_length {A B : Type} (g : A -> B) (f : B -> bool) (l : list A) :
  length (filter f (map g l)) = length (filter (fun a => f (g a)) l).
Proof.
  induction l as [| a l IH]; simpl; [reflexivity |].
  destruct (f (g a)); simpl; now rewrite IH.
Qed.

Lemma groupby_count_row (keyed : list (Z * Z * option Z)) (r : group_row) :
  In r (groupby_count keyed) ->
  In (g_item r, lag r) (group_keys keyed)
  /\ user_count r = group_count keyed (g_item r, lag r).
Proof.
  unfold groupby_count; rewrite in_map_iff.
  intros [[i b] [<- Hin]]; simpl; split; [assumption | reflexivity].
Qed.

(** What [load_data] stores, when it returns. *)
Lemma load_data_ok (self self' : trend) (events : list event) (now : Z) :
  load_data self events now = Ok self' ->
  let keyed :=
    map (fun e => (item_id e, bucket (int_days self) now e, user_id e))
        (sort_by_time events) in
  data self' = Some (groupby_count keyed)
  /\ item_list self' = Some (unique (map g_item (groupby_count keyed)))
  /\ max_length self'
     = option_map Z.opp (series_min (map (fun r => snd (fst r)) keyed))
  /\ decay self' = decay self
  /\ int_days self' = int_days self.
Proof.
  unfold load_data.
  destruct ((int_days self =? 0) && negb (length (sort_by_time events) =? 0)%nat);
    [discriminate |].
  intros [= <-]; simpl; repeat split.
Qed.

End Aggregation.

(** C2 (amended): the value stored for an (item, bucket) pair is the
    number of events of that item in that bucket whose [user_id] is not
    missing; a user with several events in the bucket is counted once per
    event. *)
Theorem user_count_counts_events
  (self self' : trend) (events : list event) (now : Z)
  (df : list group_row) (r : group_row) :
  load_data self events now = Ok self' ->
  data self' = Some df ->
  In r df ->
  user_count r = event_count (int_days self) now events (g_item r) (lag r).
Proof.
  intros Hload Hdata Hin.
  destruct (load_data_ok _ _ _ _ Hload) as [Hd _].
  rewrite Hd in Hdata; injection Hdata as <-.
  apply groupby_count_row in Hin as [_ ->].
  unfold group_count, event_count; f_equal.
  rewrite filter_map_length.
  rewrite (filter_length_perm _ _ _ (sort_by_time_perm events)).
  reflexivity.
Qed.

Lemma user_count_counts_events_witness :
  user_count {| g_item := 1; lag := 0; user_count := 2 |}
  = event_count 7 0 [ev 1 7 0; ev 1 7 10] 1 0.
Proof.
  apply (user_count_counts_events
           {| max_length := None; decay := B64.f0_1; int_days := 7;
              item_list := None; data := None |}
           {| max_length := Some 0; decay := B64.f0_1; int_days := 7;
              item_list := Some [1];
              data := Some [{| g_item := 1; lag := 0; user_count := 2 |}] |}
           [ev 1 7 0; ev 1 7 10] 0
           [{| g_item := 1; lag := 0; user_count := 2 |}]).
  - reflexivity.
  - reflexivity.
  - simpl; left; reflexivity.
Defined.

(** C2 (as stated) fails: two events of the same user for item 1 in bucket
    0 are stored as a count of 2, although one distinct user is involved. *)
Lemma user_count_not_distinct_users :
  load_data {| max_length := None; decay := B64.f0_1; int_days := 7;
               item_list := None; data := None |}
            [ev 1 7 0; ev 1 7 10] 0
  = Ok {| max_length := Some 0; decay := B64.f0_1; int_days := 7;
          item_list := Some [1];
          data := Some [{| g_item := 1; lag := 0; user_count := 2 |}] |}
  /\ distinct_users 7 0 [ev 1 7 0; ev 1 7 10] 1 0 = 1.
Proof. split; reflexivity. Qed.

(** ** Group keys and the oldest bucket *)

Section Keys.

Lemma key_eqb_eq (a b : Z * Z) : key_eqb a b = true <-> a = b.
Proof.
  destruct a as [a1 a2], b as [b1 b2]; unfold key_eqb; simpl.
  rewrite andb_true_iff, !Z.eqb_eq; split.
  - intros [-> ->]; reflexivity.
  - intros [= -> ->]; split; reflexivity.
Qed.

Lemma klt_iff (a b : Z * Z) :
  klt a b <-> fst a < fst b \/ (fst a = fst b /\ snd a < snd b).
Proof.
  unfold klt, key_lt.
  rewrite orb_true_iff, andb_true_iff, !Z.ltb_lt, Z.eqb_eq; tauto.
Qed.

Lemma klt_trans (a b c : Z * Z) : klt a b -> klt b c -> klt a c.
Proof. rewrite !klt_iff; lia. Qed.

Lemma klt_irrefl (a : Z * Z) : ~ klt a a.
Proof. rewrite klt_iff; lia. Qed.

Lemma klt_total (a b : Z * Z) :
  key_eqb a b = false -> key_lt a b = false -> klt b a.
Proof.
  intros He Hl. rewrite klt_iff.
  assert (Hne : a <> b) by (rewrite <- key_eqb_eq; congruence).
  assert (Hnl : ~ klt a b) by (unfold klt; congruence).
  rewrite klt_iff in Hnl.
  destruct a as [a1 a2], b as [b1 b2]; simpl in *.
  assert (a1 <> b1 \/ a2 <> b2).
  { destruct (Z.eq_dec a1 b1) as [-> |]; [| now left].
    right; intros ->; now apply Hne. }
  lia.
Qed.

Lemma insert_key_In (k x : Z * Z) (ks : list (Z * Z)) :
  In x (insert_key k ks) <-> x = k \/ In x ks.
Proof.
  induction ks as [| h t IH]; simpl.
  - intuition congruence.
  - destruct (key_eqb k h) eqn:He.
    + apply key_eqb_eq in He; subst h; simpl; intuition congruence.
    + destruct (key_lt k h); simpl; [intuition congruence |].
      rewrite IH; intuition congruence.
Qed.

Lemma insert_key_sorted (k : Z * Z) (ks : list (Z * Z)) :
  StronglySorted klt ks -> StronglySorted klt (insert_key k ks).
Proof.
  induction 1 as [| h t Hs IH Hall]; simpl.
  - repeat constructor.
  - destruct (key_eqb k h) eqn:He; [now constructor |].
    destruct (key_lt k h) eqn:Hl.
    + constructor; [now constructor |].
      constructor; [exact Hl |].
      eapply Forall_impl; [| exact Hall].
      intros x Hx; now apply (klt_trans k h x).
    + constructor; [exact IH |].
      apply Forall_forall; intros x Hx.
      apply insert_key_In in Hx as [-> | Hx].
      * now apply klt_total.
      * rewrite Forall_forall in Hall; now apply Hall.
Qed.

Lemma sorted_keys_NoDup (ks : list (Z * Z)) :
  StronglySorted klt ks -> NoDup ks.
Proof.
  induction 1 as [| h t Hs IH Hall]; constructor; [| exact IH].
  intros Hin. rewrite Forall_forall in Hall.
  exact (klt_irrefl h (Hall h Hin)).
Qed.

Lemma group_keys_spec (keyed : list (Z * Z * option Z)) :
  StronglySorted klt (group_keys keyed)
  /\ forall k, In k (group_keys keyed) <-> In k (map fst keyed).
Proof.
  unfold group_keys.
  assert (G : forall (l : list (Z * Z * option Z)) acc,
             StronglySorted klt acc ->
             StronglySorted klt
               (fold_left (fun acc r => insert_key (fst r) acc) l acc)
             /\ forall k,
                  In k (fold_left (fun acc r => insert_key (fst r) acc) l acc)
                  <-> In k acc \/ In k (map fst l)).
  { induction l as [| r l IH]; intros acc Hacc; simpl.
    - split; [assumption | intuition].
    - destruct (IH (insert_key (fst r) acc) (insert_key_sorted _ _ Hacc))
        as [Hs Hin].
      split; [assumption |].
      intros k; rewrite Hin, insert_key_In; intuition congruence. }
  destruct (G keyed [] (SSorted_nil _)) as [Hs Hin].
  split; [assumption |].
  intros k; rewrite Hin; simpl; tauto.
Qed.

Lemma fold_min_spec (t : list Z) :
  forall h,
    (fold_left Z.min t h = h \/ In (fold_left Z.min t h) t)
    /\ fold_left Z.min t h <= h
    /\ forall x, In x t -> fold_left Z.min t h <= x.
Proof.
  induction t as [| y t IH]; intros h; simpl.
  - split; [now left | split; [lia | tauto]].
  - destruct (IH (Z.min h y)) as [Hin [Hle Hall]].
    split; [| split].
    + destruct Hin as [-> | Hin]; [| tauto].
      destruct (Z.min_spec h y) as [[_ ->] | [_ ->]]; tauto.
    + lia.
    + intros x [<- | Hx]; [lia | now apply Hall].
Qed.

Lemma series_min_spec (l : list Z) (m : Z) :
  series_min l = Some m -> In m l /\ forall x, In x l -> m <= x.
Proof.
  destruct l as [| h t]; simpl; [discriminate |].
  intros [= <-].
  destruct (fold_min_spec t h) as [Hin [Hle Hall]].
  split; [destruct Hin as [-> | Hin]; tauto |].
  intros x [<- | Hx]; [exact Hle | now apply Hall].
Qed.

End Keys.

(** ** The lag vector *)

Section Vector.

Lemma update_length {A : Type} (l : list A) (n : nat) (v : A) :
  length (update l n v) = length l.
Proof.
  revert n; induction l as [| h t IH]; intros [| n]; simpl; auto.
Qed.

Lemma nth_error_update_eq {A : Type} (l : list A) (n : nat) (v : A) :
  (n < length l)%nat -> nth_error (update l n v) n = Some v.
Proof.
  revert n; induction l as [| h t IH]; intros [| n] H; simpl in *;
    try lia; [reflexivity | apply IH; lia].
Qed.

Lemma nth_error_update_neq {A : Type} (l : list A) (n q : nat) (v : A) :
  q <> n -> nth_error (update l n v) q = nth_error l q.
Proof.
  revert n q; induction l as [| h t IH]; intros [| n] [| q] H; simpl;
    try reflexivity; try congruence.
  apply IH; congruence.
Qed.

Lemma py_index_in_range (len i : Z) :
  0 <= i < len -> py_index len i = Ok (Z.to_nat i).
Proof.
  intros H; unfold py_index.
  destruct (Z.leb_spec 0 i); [| lia].
  destruct (Z.ltb_spec i len); [reflexivity | lia].
Qed.

Lemma list_get_in_range {A : Type} (l : list A) (j : nat) :
  (j < length l)%nat ->
  exists v, list_get l (Z.of_nat j) = Ok v /\ nth_error l j = Some v.
Proof.
  intros H; unfold list_get.
  rewrite py_index_in_range by lia; simpl.
  rewrite Nat2Z.id.
  destruct (nth_error l j) as [v |] eqn:E.
  - exists v; split; reflexivity.
  - apply nth_error_None in E; lia.
Qed.

(** When every position is in range the loop of writes returns a vector
    of the same length, untouched outside the written positions; when the
    positions are moreover distinct, each one holds the value written. *)
Lemma write_loop_ok (value : list Z) (pairs : list (Z * nat)) :
  forall vec,
    Forall (in_bounds vec value) pairs ->
    exists vec',
      write_loop vec value pairs = Ok vec'
      /\ length vec' = length vec
      /\ (forall q, (forall p, In p pairs -> Z.to_nat (fst p) <> q) ->
                    nth_error vec' q = nth_error vec q)
      /\ (NoDup (map fst pairs) ->
          forall p, In p pairs ->
                    nth_error vec' (Z.to_nat (fst p)) = nth_error value (snd p)).
Proof.
  induction pairs as [| [i j] rest IH]; intros vec Hall.
  - exists vec; simpl; repeat split; auto.
    intros _ p [].
  - inversion Hall as [| p l [Hi Hj] Hrest]; subst; simpl in Hi, Hj.
    destruct (list_get_in_range value j Hj) as [v [Hget Hnth]].
    simpl. rewrite Hget; simpl.
    unfold list_set. rewrite py_index_in_range by lia; simpl.
    destruct (IH (update vec (Z.to_nat i) v)) as [vec' [Hw [Hlen [Hout Hin]]]].
    { eapply Forall_impl; [| exact Hrest].
      intros p [Hp1 Hp2]; split; [| exact Hp2].
      rewrite update_length; exact Hp1. }
    exists vec'; split; [exact Hw |].
    rewrite update_length in Hlen.
    split; [exact Hlen |]. split.
    + intros q Hq. rewrite Hout.
      * apply nth_error_update_neq.
        intros ->; apply (Hq (i, j)); [now left | reflexivity].
      * intros p Hp; apply Hq; now right.
    + intros Hnd p [<- | Hp]; simpl.
      * inversion Hnd as [| x l Hni Hnd']; subst.
        rewrite Hout.
        -- rewrite nth_error_update_eq by lia. now rewrite Hnth.
        -- intros p Hp Heq. apply Hni.
           rewrite Forall_forall in Hrest.
           destruct (Hrest p Hp) as [Hp1 _].
           assert (fst p = i) by lia; subst i.
           now apply in_map.
      * inversion Hnd as [| x l Hni Hnd']; subst.
        now apply Hin.
Qed.

Lemma zeros_length (n : Z) : length (zeros n) = Z.to_nat n.
Proof. unfold zeros; apply repeat_length. Qed.

Lemma In_combine_seq {A : Type} (f : A -> Z) (g : A -> Z) (rows : list A) (r : A) :
  In r rows ->
  exists k,
    In (f r, k) (combine (map f rows) (seq 0 (length (map g rows))))
    /\ nth_error (map g rows) k = Some (g r).
Proof.
  intros Hin.
  destruct (In_nth _ _ r Hin) as [k [Hk Hnth]].
  exists k; split.
  - assert (E : nth k (combine (map f rows) (seq 0 (length (map g rows))))
                    (f r, O)
                = (f r, k)).
    { rewrite combine_nth by (now rewrite !length_map, length_seq).
      rewrite seq_nth by (now rewrite length_map).
      rewrite (map_nth f), Hnth; reflexivity. }
    rewrite <- E; apply nth_In.
    rewrite length_combine, !length_map, length_seq; lia.
  - rewrite nth_error_map.
    rewrite (nth_error_nth' rows r Hk), Hnth; reflexivity.
Qed.

Lemma lag_vector_ok (m : Z) (rows : list group_row) :
  0 <= m ->
  (forall r, In r rows -> 0 <= m + lag r <= m) ->
  NoDup (map lag rows) ->
  exists vec,
    lag_vector m rows = Ok vec
    /\ Z.of_nat (length vec) = m + 1
    /\ forall r, In r rows ->
                 nth_error vec (Z.to_nat (m + lag r)) = Some (user_count r).
Proof.
  intros Hm Hpos Hnd. unfold lag_vector.
  set (loc := map (fun r => m + lag r) rows).
  set (value := map user_count rows).
  destruct (write_loop_ok value (combine loc (seq 0 (length value)))
                          (zeros (m + 1)))
    as [vec [Hw [Hlen [_ Hin]]]].
  { apply Forall_forall; intros [i j] Hp.
    pose proof (in_combine_l _ _ _ _ Hp) as Hi.
    pose proof (in_combine_r _ _ _ _ Hp) as Hj.
    unfold loc in Hi; apply in_map_iff in Hi as [r [<- Hr]].
    apply in_seq in Hj.
    split; simpl; [| lia].
    rewrite zeros_length. specialize (Hpos r Hr). lia. }
  exists vec; split; [exact Hw |].
  rewrite zeros_length in Hlen.
  split; [lia |].
  intros r Hr.
  destruct (In_combine_seq (fun r => m + lag r) user_count rows r Hr)
    as [k [Hk Hv]].
  fold loc value in Hk, Hv.
  rewrite <- Hv.
  apply (Hin) with (p := (m + lag r, k)); [| exact Hk].
  assert (E : map fst (combine loc (seq 0 (length value))) = loc).
  { clear. unfold value, loc. rewrite length_map.
    generalize 0%nat.
    induction rows as [| r rows IH]; intros s; simpl; [reflexivity |].
    now rewrite IH. }
  rewrite E. unfold loc.
  clear - Hnd. induction rows as [| r rows IH]; simpl; [constructor |].
  inversion Hnd as [| x l Hni Hnd']; subst.
  constructor; [| now apply IH].
  rewrite in_map_iff; intros [r' [Heq Hr']].
  apply Hni. apply in_map_iff; exists r'; split; [lia | exact Hr'].
Qed.

End Vector.

Section DenseVector.

Lemma bucket_nonpos (interval_days now : Z) (e : event) :
  0 < interval_days ->
  dt_days now (interaction_time e) < interval_days ->
  bucket interval_days now e <= 0.
Proof.
  intros Hd Hlt; unfold bucket.
  rewrite <- (Z.quot_small (interval_days - 1) interval_days) by lia.
  apply Z.quot_le_mono; lia.
Qed.

Lemma NoDup_map_filter {K R : Type} (key : R -> K) (keep : R -> bool) :
  forall rows : list R,
    NoDup (map key rows) -> NoDup (map key (filter keep rows)).
Proof.
  intros rows; induction rows as [| r rows IH]; simpl; intros Hnd.
  - constructor.
  - inversion Hnd as [| k ks Hfresh Hrest]; subst.
    destruct (keep r); simpl; [| now apply IH].
    constructor; [| now apply IH].
    rewrite in_map_iff; intros [r' [Hk Hin]].
    apply Hfresh; rewrite in_map_iff; exists r'; split; [exact Hk |].
    now apply filter_In in Hin as [Hin _].
Qed.

Lemma groupby_count_keys (keyed : list (Z * Z * option Z)) :
  map (fun r => (g_item r, lag r)) (groupby_count keyed) = group_keys keyed.
Proof.
  unfold groupby_count; rewrite map_map; simpl.
  rewrite <- (map_id (group_keys keyed)) at 2.
  apply map_ext; intros [i b]; reflexivity.
Qed.

(** The rows of one item have pairwise distinct buckets. *)
Lemma filter_item_lags_NoDup (keyed : list (Z * Z * option Z)) (it : Z) :
  NoDup (map lag (filter_item (groupby_count keyed) it)).
Proof.
  assert (Hk : NoDup (map (fun r => (g_item r, lag r))
                          (filter_item (groupby_count keyed) it))).
  { apply NoDup_map_filter. rewrite groupby_count_keys.
    apply sorted_keys_NoDup, group_keys_spec. }
  assert (Hit : forall r, In r (filter_item (groupby_count keyed) it) ->
                          g_item r = it).
  { intros r Hr; apply filter_In in Hr as [_ Hr]; now apply Z.eqb_eq. }
  induction (filter_item (groupby_count keyed) it) as [| r rows IH]; simpl;
    [constructor |].
  inversion Hk as [| x xs Hni Hnd]; subst.
  constructor.
  - rewrite in_map_iff; intros [r' [Heq Hr']].
    apply Hni; rewrite in_map_iff; exists r'; split; [| exact Hr'].
    rewrite Heq, (Hit r' (or_intror Hr')), (Hit r (or_introl eq_refl)).
    reflexivity.
  - apply IH; [exact Hnd |].
    intros r' Hr'; apply Hit; now right.
Qed.

(** A row of the aggregated table comes from an event of the log. *)
Lemma group_row_event (interval_days now : Z) (events : list event)
                      (r : group_row) :
  In r (groupby_count
          (map (fun e => (item_id e, bucket interval_days now e, user_id e))
               (sort_by_time events))) ->
  exists e, In e events
            /\ item_id e = g_item r
            /\ bucket interval_days now e = lag r.
Proof.
  intros Hr; apply groupby_count_row in Hr as [Hk _].
  apply group_keys_spec in Hk.
  rewrite map_map in Hk; apply in_map_iff in Hk as [e [Heq He]].
  simpl in Heq; injection Heq as Hi Hb.
  exists e; repeat split; try assumption.
  eapply Permutation_in; [apply sort_by_time_perm | exact He].
Qed.

End DenseVector.

(** C6 (amended): when no event is dated [interval_days] days or more after
    the clock's date, every bucket index is <= 0, and for every item the
    writes at positions [max_length + bucket_index] all land inside a dense
    vector of length [max_length + 1], which then holds each count at its
    position. *)
Theorem lag_vector_in_bounds
  (self self' : trend) (events : list event) (now : Z)
  (df : list group_row) (m : Z) :
  0 < int_days self ->
  (forall e, In e events -> dt_days now (interaction_time e) < int_days self) ->
  load_data self events now = Ok self' ->
  data self' = Some df ->
  max_length self' = Some m ->
  (forall r, In r df -> lag r <= 0)
  /\ forall it,
       exists vec,
         lag_vector m (filter_item df it) = Ok vec
         /\ Z.of_nat (length vec) = m + 1
         /\ forall r, In r (filter_item df it) ->
                      0 <= m + lag r <= m
                      /\ nth_error vec (Z.to_nat (m + lag r))
                         = Some (user_count r).
Proof.
  intros Hd Hpast Hload Hdata Hmax.
  destruct (load_data_ok _ _ _ _ Hload) as [Hdf [_ [Hm _]]].
  rewrite Hdf in Hdata; injection Hdata as <-.
  rewrite Hm in Hmax; clear Hm Hdf Hload.
  set (keyed := map (fun e => (item_id e, bucket (int_days self) now e, user_id e))
                    (sort_by_time events)) in *.
  destruct (series_min (map (fun r => snd (fst r)) keyed)) as [mn |] eqn:Hmin;
    [| discriminate].
  simpl in Hmax; injection Hmax as <-.
  apply series_min_spec in Hmin as [Hmn_in Hmn_le].
  assert (Hlag : forall r, In r (groupby_count keyed) -> lag r <= 0 /\ mn <= lag r).
  { intros r Hr.
    pose proof (groupby_count_row _ _ Hr) as [Hk _].
    destruct (group_row_event _ _ _ _ Hr) as [e [He [_ Hb]]].
    split.
    - rewrite <- Hb; apply bucket_nonpos; auto.
    - apply Hmn_le. apply group_keys_spec in Hk.
      apply in_map_iff in Hk as [x [Hx Hin]].
      apply in_map_iff; exists x; split; [now rewrite Hx | exact Hin]. }
  assert (Hmn : mn <= 0).
  { apply in_map_iff in Hmn_in as [x [Hx Hin]].
    unfold keyed in Hin; apply in_map_iff in Hin as [e [<- He]].
    simpl in Hx; subst mn. apply bucket_nonpos; [exact Hd |].
    apply Hpast. eapply Permutation_in; [apply sort_by_time_perm | exact He]. }
  split; [intros r Hr; now apply Hlag |].
  intros it.
  assert (Hrows : forall r, In r (filter_item (groupby_count keyed) it) ->
                            0 <= - mn + lag r <= - mn).
  { intros r Hr; apply filter_In in Hr as [Hr _].
    destruct (Hlag r Hr); lia. }
  destruct (lag_vector_ok (- mn) (filter_item (groupby_count keyed) it))
    as [vec [Hv [Hlen Hnth]]];
    [lia | exact Hrows | apply filter_item_lags_NoDup |].
  exists vec; repeat split; auto; now apply Hrows.
Qed.

Lemma lag_vector_in_bounds_witness :
  (forall r, In r [{| g_item := 1; lag := -1; user_count := 1 |};
                   {| g_item := 1; lag := 0; user_count := 1 |}] ->
             lag r <= 0)
  /\ forall it,
       exists vec,
         lag_vector 1 (filter_item
                         [{| g_item := 1; lag := -1; user_count := 1 |};
                          {| g_item := 1; lag := 0; user_count := 1 |}] it)
         = Ok vec
         /\ Z.of_nat (length vec) = 1 + 1
         /\ forall r,
              In r (filter_item
                      [{| g_item := 1; lag := -1; user_count := 1 |};
                       {| g_item := 1; lag := 0; user_count := 1 |}] it) ->
              0 <= 1 + lag r <= 1
              /\ nth_error vec (Z.to_nat (1 + lag r)) = Some (user_count r).
Proof.
  apply (lag_vector_in_bounds
           {| max_length := None; decay := B64.f0_5; int_days := 7;
              item_list := None; data := None |}
           {| max_length := Some 1; decay := B64.f0_5; int_days := 7;
              item_list := Some [1];
              data := Some [{| g_item := 1; lag := -1; user_count := 1 |};
                            {| g_item := 1; lag := 0; user_count := 1 |}] |}
           [ev 1 7 0; ev 1 7 864000] 864000).
  - reflexivity.
  - intros e [<- | [<- | []]]; reflexivity.
  - reflexivity.
  - reflexivity.
  - reflexivity.
Defined.

(** C6 (as stated) fails: an event dated seven days after the clock's date
    falls in bucket 1; the oldest bucket being -1, its count is written at
    position 2 of a vector of length 2, which raises [IndexError]. *)
Lemma future_event_out_of_bounds :
  load_data {| max_length := None; decay := B64.f0_5; int_days := 7;
               item_list := None; data := None |}
            [ev 1 7 (-604800); ev 1 7 604800] 0
  = Ok {| max_length := Some 1; decay := B64.f0_5; int_days := 7;
          item_list := Some [1];
          data := Some [{| g_item := 1; lag := -1; user_count := 1 |};
                        {| g_item := 1; lag := 1; user_count := 1 |}] |}
  /\ lag_vector 1 [{| g_item := 1; lag := -1; user_count := 1 |};
                   {| g_item := 1; lag := 1; user_count := 1 |}]
     = Raise IndexError
  /\ run B64.f0_5 7 [ev 1 7 (-604800); ev 1 7 604800] 0 = Raise IndexError.
Proof. repeat split; vm_compute; reflexivity. Qed.

(** ** The sentinel and the ranking *)

Section Ranking.

Lemma ltb_neg_infinity_r (x : B64.float) :
  B64.ltb x B64.neg_infinity = false.
Proof. destruct x as [s | s | | s m e]; try destruct s; reflexivity. Qed.

Lemma not_above_neg_infinity (x : B64.float) :
  B64.is_nan x = false ->
  B64.ltb B64.neg_infinity x = false ->
  x = B64.neg_infinity.
Proof.
  destruct x as [s | s | | s m e]; try destruct s; simpl;
    try discriminate; reflexivity.
Qed.

Lemma insert_desc_In (r x : score_row) (l : list score_row) :
  In x (insert_desc r l) <-> x = r \/ In x l.
Proof.
  induction l as [| h t IH]; simpl; [intuition congruence |].
  destruct (B64.ltb (trending_score r) (trending_score h)); simpl;
    [rewrite IH |]; intuition congruence.
Qed.

Lemma sort_desc_In (x : score_row) (l : list score_row) :
  In x (sort_desc l) <-> In x l.
Proof.
  induction l as [| h t IH]; simpl; [tauto |].
  rewrite insert_desc_In, IH; intuition congruence.
Qed.

Lemma insert_desc_neginf_last (r : score_row) (l : list score_row) :
  Forall not_nan l ->
  neginf_last l ->
  neginf_last (insert_desc r l).
Proof.
  induction l as [| h t IH]; simpl; intros Hnn Hinv.
  - split; [intros _; constructor | exact I].
  - inversion Hnn as [| x xs Hh Ht]; subst.
    destruct Hinv as [Hh_inf Hinv].
    destruct (B64.ltb (trending_score r) (trending_score h)) eqn:Hlt; simpl.
    + split; [| now apply IH].
      intros Heq; rewrite Heq, ltb_neg_infinity_r in Hlt; discriminate.
    + split; [| split; assumption].
      intros Heq; rewrite Heq in Hlt.
      pose proof (not_above_neg_infinity _ Hh Hlt) as Hhn.
      constructor; [| now apply Hh_inf].
      unfold not_finite; now rewrite Hhn.
Qed.

Lemma sort_desc_neginf_last (l : list score_row) :
  Forall not_nan l -> neginf_last (sort_desc l).
Proof.
  induction l as [| h t IH]; simpl; intros Hnn; [exact I |].
  inversion Hnn as [| x xs Hh Ht]; subst.
  apply insert_desc_neginf_last; [| now apply IH].
  apply Forall_forall; intros x Hx.
  rewrite sort_desc_In in Hx.
  rewrite Forall_forall in Ht; now apply Ht.
Qed.

Lemma neginf_last_app (l1 l2 : list score_row) :
  neginf_last l1 -> Forall not_finite l2 -> neginf_last (l1 ++ l2).
Proof.
  intros H1 H2; induction l1 as [| a t IH]; simpl.
  - induction H2 as [| b l2 Hb H2 IH2]; simpl; [exact I |].
    split; [intros _; exact H2 | exact IH2].
  - destruct H1 as [Ha H1]; split; [| now apply IH].
    intros Heq; apply Forall_app; split; [now apply Ha | exact H2].
Qed.

Lemma neginf_last_nth (l : list score_row) :
  neginf_last l ->
  forall i j ri rj,
    nth_error l i = Some ri ->
    nth_error l j = Some rj ->
    trending_score ri = B64.neg_infinity ->
    B64.is_finite (trending_score rj) = true ->
    (j < i)%nat.
Proof.
  induction l as [| a t IH]; intros Hinv i j ri rj Hi Hj Hinf Hfin.
  - destruct i; discriminate.
  - destruct Hinv as [Ha Hinv].
    destruct i as [| i], j as [| j]; simpl in Hi, Hj.
    + injection Hi as <-; injection Hj as <-.
      rewrite Hinf in Hfin; discriminate.
    + injection Hi as <-.
      apply nth_error_In in Hj.
      specialize (Ha Hinf); rewrite Forall_forall in Ha.
      specialize (Ha rj Hj); unfold not_finite in Ha; congruence.
    + lia.
    + apply -> Nat.succ_lt_mono. eapply IH; eauto.
Qed.

Lemma sort_values_desc_neginf_last (rows table : list score_row) :
  sort_values_desc rows = Ok table ->
  neginf_last table /\ forall r, In r table -> In r rows.
Proof.
  intros H.
  assert (E : table
              = sort_desc (filter (fun r => negb (B64.is_nan (trending_score r)))
                                  rows)
                ++ filter (fun r => B64.is_nan (trending_score r)) rows).
  { destruct rows as [| r0 rows']; [discriminate H |].
    unfold sort_values_desc in H; now injection H as <-. }
  clear H; subst table; split.
  - apply neginf_last_app.
    + apply sort_desc_neginf_last.
      apply Forall_forall; intros x Hx.
      apply filter_In in Hx as [_ Hx].
      now apply negb_true_iff in Hx.
    + apply Forall_forall; intros x Hx.
      apply filter_In in Hx as [_ Hx].
      unfold not_finite; destruct (trending_score x); simpl in *;
        try discriminate; reflexivity.
  - intros r Hr; apply in_app_or in Hr as [Hr | Hr].
    + rewrite sort_desc_In in Hr; now apply filter_In in Hr as [Hr _].
    + now apply filter_In in Hr as [Hr _].
Qed.

Lemma score_items_rows (self : trend) (df : list group_row) (items : list Z) :
  forall rows,
    score_items self df items = Ok rows ->
    forall r, In r rows ->
              zvalue self df (item r) (max_length self)
              = Ok (trending_score r).
Proof.
  induction items as [| it rest IH]; simpl; intros rows H.
  - injection H as <-; intros r [].
  - destruct (zvalue self df it (max_length self)) as [z |] eqn:Hz;
      simpl in H; [| discriminate].
    destruct (score_items self df rest) as [rows' |]; simpl in H;
      [| discriminate].
    injection H as <-. intros r [<- | Hr]; simpl; [exact Hz |].
    now apply IH with (rows := rows').
Qed.

Lemma single_point_zvalue (self : trend) (df : list group_row) (it m : Z) :
  single_point df it ->
  zvalue self df it (Some m) = Ok B64.neg_infinity.
Proof.
  unfold single_point, zvalue; intros ->; reflexivity.
Qed.

End Ranking.

(** C3: after [load_data], an item with exactly one aggregated point is
    scored [-inf], and in every table [calc] returns no row with a finite
    score stands below it. *)
Theorem sentinel_ranked_last
  (self self' : trend) (events : list event) (now : Z)
  (df : list group_row) (it : Z) :
  load_data self events now = Ok self' ->
  data self' = Some df ->
  single_point df it ->
  zvalue self' df it (max_length self') = Ok B64.neg_infinity
  /\ forall table,
       calc self' = Ok table ->
       forall i j ri rj,
         nth_error table i = Some ri ->
         item ri = it ->
         nth_error table j = Some rj ->
         B64.is_finite (trending_score rj) = true ->
         (j < i)%nat.
Proof.
  intros Hload Hdata Hsingle.
  destruct (load_data_ok _ _ _ _ Hload) as [Hdf [Hitems [Hm _]]].
  assert (Hz : zvalue self' df it (max_length self') = Ok B64.neg_infinity).
  { assert (Hmax : exists m, max_length self' = Some m).
    { rewrite Hdf in Hdata; injection Hdata as <-.
      rewrite Hm; clear Hm Hdf Hitems Hload.
      remember (map (fun e => (item_id e, bucket (int_days self) now e, user_id e))
                    (sort_by_time events)) as keyed eqn:Hkeyed.
      clear Hkeyed. unfold single_point in Hsingle.
      assert (Hr : exists r, In r (filter_item (groupby_count keyed) it)).
      { destruct (filter_item (groupby_count keyed) it) as [| r rows];
          [discriminate Hsingle | exists r; now left]. }
      destruct Hr as [r Hr].
      apply filter_In in Hr as [Hr _].
      apply groupby_count_row in Hr as [Hk _].
      apply group_keys_spec in Hk.
      destruct keyed as [| x keyed]; [destruct Hk |].
      simpl; eexists; reflexivity. }
    destruct Hmax as [m ->]. now apply single_point_zvalue. }
  split; [exact Hz |].
  intros table Hcalc i j ri rj Hi Hit Hj Hfin.
  unfold calc in Hcalc. rewrite Hitems, Hdata in Hcalc.
  destruct (score_items self' df _) as [rows |] eqn:Hrows; simpl in Hcalc;
    [| discriminate].
  destruct (sort_values_desc_neginf_last _ _ Hcalc) as [Hinv Hsub].
  apply (neginf_last_nth table Hinv i j ri rj Hi Hj); [| exact Hfin].
  pose proof (score_items_rows _ _ _ _ Hrows ri
                (Hsub ri (nth_error_In _ _ Hi))) as Hri.
  rewrite Hit, Hz in Hri. now injection Hri.
Qed.

Lemma sentinel_ranked_last_witness :
  zvalue {| max_length := Some 1; decay := B64.f0_5; int_days := 7;
            item_list := Some [1; 2];
            data := Some [{| g_item := 1; lag := -1; user_count := 1 |};
                          {| g_item := 1; lag := 0; user_count := 1 |};
                          {| g_item := 2; lag := -1; user_count := 1 |}] |}
         [{| g_item := 1; lag := -1; user_count := 1 |};
          {| g_item := 1; lag := 0; user_count := 1 |};
          {| g_item := 2; lag := -1; user_count := 1 |}]
         2 (Some 1)
  = Ok B64.neg_infinity
  /\ forall table,
       calc {| max_length := Some 1; decay := B64.f0_5; int_days := 7;
               item_list := Some [1; 2];
               data := Some [{| g_item := 1; lag := -1; user_count := 1 |};
                             {| g_item := 1; lag := 0; user_count := 1 |};
                             {| g_item := 2; lag := -1; user_count := 1 |}] |}
       = Ok table ->
       forall i j ri rj,
         nth_error table i = Some ri ->
         item ri = 2 ->
         nth_error table j = Some rj ->
         B64.is_finite (trending_score rj) = true ->
         (j < i)%nat.
Proof.
  refine (sentinel_ranked_last
            {| max_length := None; decay := B64.f0_5; int_days := 7;
               item_list := None; data := None |}
            {| max_length := Some 1; decay := B64.f0_5; int_days := 7;
               item_list := Some [1; 2];
               data := Some [{| g_item := 1; lag := -1; user_count := 1 |};
                             {| g_item := 1; lag := 0; user_count := 1 |};
                             {| g_item := 2; lag := -1; user_count := 1 |}] |}
            [ev 2 3 5; ev 1 7 0; ev 1 7 864000] 864000
            [{| g_item := 1; lag := -1; user_count := 1 |};
             {| g_item := 1; lag := 0; user_count := 1 |};
             {| g_item := 2; lag := -1; user_count := 1 |}]
            2 _ _ _).
  - reflexivity.
  - reflexivity.
  - reflexivity.
Defined.

(** ** Rounding: the arithmetic of doubles is monotone *)

Section Digits.

Lemma digits2_pos_bounds (p : positive) :
  2 ^ (Zpos (digits2_pos p) - 1) <= Zpos p < 2 ^ Zpos (digits2_pos p).
Proof.
  induction p as [p IH | p IH |]; simpl digits2_pos.
  - rewrite Pos2Z.inj_succ, (Pos2Z.inj_xI p).
    replace (Z.succ (Zpos (digits2_pos p)) - 1)
      with (Z.succ (Zpos (digits2_pos p) - 1)) by lia.
    rewrite !Z.pow_succ_r by lia. lia.
  - rewrite Pos2Z.inj_succ, (Pos2Z.inj_xO p).
    replace (Z.succ (Zpos (digits2_pos p)) - 1)
      with (Z.succ (Zpos (digits2_pos p) - 1)) by lia.
    rewrite !Z.pow_succ_r by lia. lia.
  - simpl; lia.
Qed.

Lemma Zdigits2_nonneg (m : Z) : 0 <= Zdigits2 m.
Proof. destruct m; simpl; lia. Qed.

Lemma Zdigits2_bounds (m : Z) :
  0 < m -> 2 ^ (Zdigits2 m - 1) <= m < 2 ^ Zdigits2 m.
Proof.
  destruct m as [| p | p]; try lia; intros _. apply digits2_pos_bounds.
Qed.

Lemma Zdigits2_le (m k : Z) : 0 <= k -> 0 <= m < 2 ^ k -> Zdigits2 m <= k.
Proof.
  intros Hk [H0 Hm].
  destruct (Z.eq_dec m 0) as [-> | Hne]; [simpl; lia |].
  destruct (Zdigits2_bounds m ltac:(lia)) as [Hlo _].
  destruct (Z_le_gt_dec (Zdigits2 m) k) as [Hle | Hgt]; [exact Hle |].
  exfalso.
  assert (2 ^ k <= 2 ^ (Zdigits2 m - 1)) by (apply Z.pow_le_mono_r; lia).
  lia.
Qed.

Lemma Zdigits2_ge (m k : Z) : 2 ^ (k - 1) <= m -> 0 < m -> k <= Zdigits2 m.
Proof.
  intros Hm H0.
  destruct (Zdigits2_bounds m H0) as [_ Hhi].
  destruct (Z_le_gt_dec k (Zdigits2 m)) as [Hle | Hgt]; [exact Hle |].
  exfalso.
  assert (2 ^ Zdigits2 m <= 2 ^ (k - 1))
    by (apply Z.pow_le_mono_r; [lia | lia]).
  lia.
Qed.

Lemma Zdigits2_mono (m1 m2 : Z) :
  0 <= m1 <= m2 -> Zdigits2 m1 <= Zdigits2 m2.
Proof.
  intros [H0 H12].
  destruct (Z.eq_dec m2 0) as [-> | Hne].
  - replace m1 with 0 by lia; lia.
  - apply Zdigits2_le; [apply Zdigits2_nonneg |].
    destruct (Zdigits2_bounds m2 ltac:(lia)); lia.
Qed.

End Digits.

Section Shift.

Lemma inbetween_shr_1 (N D : Z) (mrs : shr_record) :
  0 < D ->
  inbetween N D mrs ->
  inbetween N (2 * D) (shr_1 mrs).
Proof.
  intros HD [Hm H]. destruct mrs as [m r s].
  unfold inbetween; cbn [shr_m shr_r shr_s] in *.
  destruct m as [| p | p]; [| | lia].
  - destruct r, s; cbn [shr_1 shr_m shr_r shr_s orb]; lia.
  - destruct p as [p | p |];
      rewrite ?(Pos2Z.inj_xI p), ?(Pos2Z.inj_xO p) in H;
      destruct r, s; cbn [shr_1 shr_m shr_r shr_s orb]; lia.
Qed.

Lemma inbetween_iter_pos (N : Z) (p : positive) :
  forall D mrs,
    0 < D ->
    inbetween N D mrs ->
    inbetween N (D * 2 ^ Zpos p) (iter_pos shr_1 p mrs).
Proof.
  induction p as [p IH | p IH |]; intros D mrs HD H; simpl iter_pos.
  - rewrite (Pos2Z.inj_xI p).
    replace (D * 2 ^ (2 * Zpos p + 1))
      with (2 * D * 2 ^ Zpos p * 2 ^ Zpos p)
      by (rewrite Z.pow_add_r, Z.pow_mul_r, Z.pow_2_r by lia;
          change (2 ^ 1) with 2;
          replace ((2 * 2) ^ Zpos p) with (2 ^ Zpos p * 2 ^ Zpos p)
            by (rewrite <- Z.pow_mul_l; reflexivity); ring).
    assert (0 < 2 ^ Zpos p) by (apply Z.pow_pos_nonneg; lia).
    apply IH; [nia |]. apply IH; [lia |]. now apply inbetween_shr_1.
  - rewrite (Pos2Z.inj_xO p).
    replace (D * 2 ^ (2 * Zpos p))
      with (D * 2 ^ Zpos p * 2 ^ Zpos p)
      by (rewrite Z.pow_mul_r, Z.pow_2_r by lia;
          replace ((2 * 2) ^ Zpos p) with (2 ^ Zpos p * 2 ^ Zpos p)
            by (rewrite <- Z.pow_mul_l; reflexivity); ring).
    assert (0 < 2 ^ Zpos p) by (apply Z.pow_pos_nonneg; lia).
    apply IH; [nia |]. now apply IH.
  - change (2 ^ 1) with 2. rewrite Z.mul_comm. now apply inbetween_shr_1.
Qed.

(** The mantissa of a record that locates [N / D] is the integer part. *)
Lemma inbetween_floor (N D : Z) (mrs : shr_record) :
  0 < D -> inbetween N D mrs -> shr_m mrs = N / D.
Proof.
  intros HD [Hm H].
  apply Z.div_unique with (r := N - shr_m mrs * D); [| ring].
  left. destruct (shr_r mrs), (shr_s mrs); nia.
Qed.

End Shift.

Section Rounding.

Local Abbreviation fexp := (SpecFloat.fexp B64.prec B64.emax).

Lemma fexp_eq (e : Z) : fexp e = Z.max (e - 53) (-1074).
Proof. reflexivity. Qed.

Lemma shr_m_of_loc (m : Z) (l : location) : shr_m (shr_record_of_loc m l) = m.
Proof. destruct l as [| []]; reflexivity. Qed.

Lemma rne_range (mrs : shr_record) : shr_m mrs <= rne mrs <= shr_m mrs + 1.
Proof.
  destruct mrs as [m r s]; unfold rne; cbn [shr_m].
  destruct r, s; cbn [round_nearest_even loc_of_shr_record];
    try destruct (Z.even m); lia.
Qed.

Lemma even_succ_false (m : Z) : Z.even m = true -> Z.even (m + 1) = false.
Proof.
  intros H. rewrite Z.even_add, H. reflexivity.
Qed.

Lemma odd_succ_true (m : Z) : Z.even m = false -> Z.even (m + 1) = true.
Proof.
  intros H. rewrite Z.even_add, H. reflexivity.
Qed.

Lemma rne_lower (N D : Z) (mrs : shr_record) :
  0 < D -> inbetween N D mrs ->
  (2 * rne mrs - 1) * D <= 2 * N
  /\ ((2 * rne mrs - 1) * D = 2 * N -> Z.even (rne mrs) = true).
Proof.
  intros HD [Hm H]. destruct mrs as [m r s]; unfold rne;
    cbn [shr_m shr_r shr_s] in *.
  destruct r, s; cbn [round_nearest_even loc_of_shr_record].
  - split; [nia | intros; nia].
  - destruct (Z.even m) eqn:Ev.
    + split; [nia | intros; nia].
    + split; [nia | intros _; now apply odd_succ_true].
  - split; [nia | intros; nia].
  - split; [nia | intros; nia].
Qed.

Lemma rne_upper (N D : Z) (mrs : shr_record) :
  0 < D -> inbetween N D mrs ->
  2 * N <= (2 * rne mrs + 1) * D
  /\ ((2 * rne mrs + 1) * D = 2 * N -> Z.even (rne mrs) = true).
Proof.
  intros HD [Hm H]. destruct mrs as [m r s]; unfold rne;
    cbn [shr_m shr_r shr_s] in *.
  destruct r, s; cbn [round_nearest_even loc_of_shr_record].
  - split; [nia | intros; nia].
  - destruct (Z.even m) eqn:Ev.
    + split; [nia | intros _; exact Ev].
    + split; [nia | intros; nia].
  - split; [nia | intros; nia].
  - split; [nia | intros; nia].
Qed.

(** Rounding to nearest, ties to even, is monotone. *)
Lemma rne_mono (N1 D1 N2 D2 : Z) (mrs1 mrs2 : shr_record) :
  0 < D1 -> 0 < D2 ->
  inbetween N1 D1 mrs1 ->
  inbetween N2 D2 mrs2 ->
  N1 * D2 <= N2 * D1 ->
  rne mrs1 <= rne mrs2.
Proof.
  intros H1 H2 I1 I2 Hle.
  destruct (rne_lower N1 D1 mrs1 H1 I1) as [Lo LoE].
  destruct (rne_upper N2 D2 mrs2 H2 I2) as [Up UpE].
  set (a := rne mrs1) in *; set (b := rne mrs2) in *.
  destruct (Z_le_gt_dec a b) as [Hab | Hab]; [exact Hab | exfalso].
  assert (HD : 0 < D1 * D2) by nia.
  assert (C1 : (2 * a - 1) * (D1 * D2) <= 2 * N1 * D2) by nia.
  assert (C2 : 2 * N2 * D1 <= (2 * b + 1) * (D1 * D2)) by nia.
  assert (C3 : (2 * b + 1) * (D1 * D2) <= (2 * a - 1) * (D1 * D2)) by nia.
  assert (Eab : a = b + 1) by nia.
  assert (E1 : (2 * a - 1) * D1 = 2 * N1) by nia.
  assert (E2 : (2 * b + 1) * D2 = 2 * N2) by nia.
  specialize (LoE E1); specialize (UpE E2).
  rewrite Eab in LoE. rewrite (even_succ_false _ UpE) in LoE. discriminate.
Qed.

Lemma finish_spec (s : bool) (m e : Z) :
  0 <= m <= 9007199254740992 ->
  -1074 <= e ->
  (let '(mrs, e') := shr_fexp B64.prec B64.emax m e loc_Exact in
   match shr_m mrs with
   | Z0 => S754_zero s
   | Zpos p =>
       if Z.leb e' (Z.sub B64.emax B64.prec) then S754_finite s p e'
       else S754_infinity s
   | Zneg _ => S754_nan
   end) = finish s m e.
Proof.
  intros Hm He. unfold shr_fexp, finish. rewrite fexp_eq.
  change (Z.sub B64.emax B64.prec) with 971.
  change (shr_record_of_loc m loc_Exact)
    with {| shr_m := m; shr_r := false; shr_s := false |}.
  destruct (Z.eqb_spec m 0) as [-> | Hne].
  - change (Zdigits2 0) with 0.
    assert (Hn : Z.max (0 + e - 53) (-1074) - e <= 0) by lia.
    unfold shr. destruct (Z.max (0 + e - 53) (-1074) - e); try lia;
      reflexivity.
  - destruct (Z.ltb_spec m 9007199254740992) as [Hlt | Hge].
    + assert (Hd : Zdigits2 m <= 53)
        by (apply Zdigits2_le; [lia | change (2 ^ 53) with 9007199254740992; lia]).
      assert (Hn : Z.max (Zdigits2 m + e - 53) (-1074) - e <= 0) by lia.
      unfold shr. destruct (Z.max (Zdigits2 m + e - 53) (-1074) - e);
        try lia; cbn [shr_m]; destruct m; try lia; reflexivity.
    + assert (Em : m = 9007199254740992) by lia. subst m.
      change (Zdigits2 9007199254740992) with 54.
      replace (Z.max (54 + e - 53) (-1074) - e) with 1 by lia.
      unfold shr. cbn [iter_pos shr_1 shr_m orb].
      replace (e + 1 <=? 971) with (e + 1 <=? 971) by reflexivity.
      reflexivity.
Qed.

Lemma pow2_pos (k : Z) : 0 <= k -> 0 < 2 ^ k.
Proof. intros; apply Z.pow_pos_nonneg; lia. Qed.

Lemma pow2_split (a b : Z) : 0 <= a -> 0 <= b -> 2 ^ (a + b) = 2 ^ a * 2 ^ b.
Proof. intros; apply Z.pow_add_r; assumption. Qed.

(** The result of [binary_round_aux] on a located value whose exponent
    does not exceed the one its magnitude calls for. *)
Lemma aux_spec (m e : Z) (l : location) (N D : Z) :
  0 < D ->
  inbetween N D (shr_record_of_loc m l) ->
  e <= fexp (Zdigits2 m + e) ->
  exists mrs,
    inbetween N (D * 2 ^ (fexp (Zdigits2 m + e) - e)) mrs
    /\ (forall s, binary_round_aux B64.prec B64.emax s m e l
                  = finish s (rne mrs) (fexp (Zdigits2 m + e)))
    /\ 0 <= rne mrs <= 9007199254740992
    /\ (-1074 < fexp (Zdigits2 m + e) -> 4503599627370496 <= rne mrs).
Proof.
  intros HD Hin HP.
  set (e' := fexp (Zdigits2 m + e)) in *.
  assert (He' : e' = Z.max (Zdigits2 m + e - 53) (-1074)) by reflexivity.
  assert (Hm0 : 0 <= m).
  { destruct Hin as [Hm _]. now rewrite shr_m_of_loc in Hm. }
  assert (Hfloor : m = N / D).
  { rewrite <- (inbetween_floor N D _ HD Hin). now rewrite shr_m_of_loc. }
  assert (Hshift :
            exists mrs,
              inbetween N (D * 2 ^ (e' - e)) mrs
              /\ shr (shr_record_of_loc m l) e (e' - e) = (mrs, e')).
  { unfold shr. destruct (e' - e) as [| p | p] eqn:En; [| | lia].
    - exists (shr_record_of_loc m l). split.
      + now rewrite Z.pow_0_r, Z.mul_1_r.
      + f_equal; lia.
    - exists (iter_pos shr_1 p (shr_record_of_loc m l)). split.
      + now apply inbetween_iter_pos.
      + f_equal; lia. }
  destruct Hshift as [mrs [Hin' Hshr]].
  assert (Hpow : 0 < 2 ^ (e' - e)) by (apply pow2_pos; lia).
  assert (HD' : 0 < D * 2 ^ (e' - e)) by nia.
  assert (Hm' : shr_m mrs = m / 2 ^ (e' - e)).
  { rewrite (inbetween_floor _ _ _ HD' Hin'), Hfloor.
    rewrite Z.div_div by lia. reflexivity. }
  assert (Hdig : m < 2 ^ Zdigits2 m).
  { destruct (Z.eq_dec m 0) as [-> | Hne]; [simpl; lia |].
    apply Zdigits2_bounds; lia. }
  assert (Hup : shr_m mrs < 9007199254740992).
  { rewrite Hm'. apply Z.div_lt_upper_bound; [exact Hpow |].
    change 9007199254740992 with (2 ^ 53).
    rewrite <- pow2_split by lia.
    eapply Z.lt_le_trans; [exact Hdig |].
    apply Z.pow_le_mono_r; lia. }
  assert (Hlo : -1074 < e' -> 4503599627370496 <= shr_m mrs).
  { intros Hbig. rewrite Hm'.
    assert (En : e' - e = Zdigits2 m - 53) by lia.
    assert (Hmpos : 0 < m).
    { destruct (Z.eq_dec m 0) as [-> | Hne]; [simpl in *; lia | lia]. }
    apply Z.div_le_lower_bound; [exact Hpow |].
    change 4503599627370496 with (2 ^ 52).
    rewrite <- pow2_split by lia.
    replace (e' - e + 52) with (Zdigits2 m - 1) by lia.
    apply Zdigits2_bounds; exact Hmpos. }
  pose proof (rne_range mrs) as Hr.
  assert (Hm'0 : 0 <= shr_m mrs) by (destruct Hin' as [H _]; exact H).
  exists mrs. split; [exact Hin' |].
  split; [| split; [lia | intros H; specialize (Hlo H); lia]].
  intros s. unfold binary_round_aux, shr_fexp. fold e'. rewrite Hshr.
  apply finish_spec; lia.
Qed.

End Rounding.

Section Order.

Lemma pow2_ge_1 (k : Z) : 0 <= k -> 1 <= 2 ^ k.
Proof. intros H. pose proof (pow2_pos k H). lia. Qed.

Lemma pow2_ge_2 (k : Z) : 1 <= k -> 2 <= 2 ^ k.
Proof.
  intros H. replace k with (1 + (k - 1)) by lia.
  rewrite pow2_split by lia. change (2 ^ 1) with 2.
  pose proof (pow2_pos (k - 1) ltac:(lia)). lia.
Qed.

(** Between numbers the order can be read at any exponent below both. *)
Lemma fle_scale (x y : spec_float) (E : Z) :
  B64.is_finite x = true -> B64.is_finite y = true ->
  E <= expo x -> E <= expo y ->
  (fle x y <-> mant x * 2 ^ (expo x - E) <= mant y * 2 ^ (expo y - E)).
Proof.
  intros Hx Hy Ex Ey.
  assert (Hfle : fle x y
                 <-> mant x * 2 ^ (expo x - Z.min (expo x) (expo y))
                     <= mant y * 2 ^ (expo y - Z.min (expo x) (expo y))).
  { destruct x as [sx | sx | | sx mx ex], y as [sy | sy | | sy my ey];
      try discriminate; reflexivity. }
  rewrite Hfle. clear Hfle.
  set (M := Z.min (expo x) (expo y)).
  assert (HM : E <= M) by (unfold M; lia).
  assert (HMx : M <= expo x) by (unfold M; lia).
  assert (HMy : M <= expo y) by (unfold M; lia).
  replace (expo x - E) with ((expo x - M) + (M - E)) by lia.
  replace (expo y - E) with ((expo y - M) + (M - E)) by lia.
  rewrite !pow2_split by lia.
  pose proof (pow2_pos (M - E) ltac:(lia)) as HP.
  generalize dependent (2 ^ (M - E)); intros P HP.
  rewrite !Z.mul_assoc.
  generalize (mant x * 2 ^ (expo x - M)) (mant y * 2 ^ (expo y - M)).
  intros a b. split; intros H; nia.
Qed.

Lemma fle_refl (x : spec_float) : B64.is_finite x = true -> fle x x.
Proof.
  intros Hx. apply (fle_scale x x (expo x) Hx Hx); lia.
Qed.

End Order.

Section FinishOrder.

Lemma finish_kind (s : bool) (r e : Z) :
  0 <= r <= 9007199254740992 ->
  (r = 0 /\ finish s r e = S754_zero s)
  \/ (0 < r /\ 971 < finish_exp r e /\ finish s r e = S754_infinity s)
  \/ (0 < r /\ finish_exp r e <= 971
      /\ exists m, finish s r e = S754_finite s m (finish_exp r e)
                   /\ Zpos m * 2 ^ (finish_exp r e - e) = r
                   /\ Zpos m < 9007199254740992
                   /\ (4503599627370496 <= r -> 4503599627370496 <= Zpos m)).
Proof.
  intros Hr. unfold finish, finish_exp.
  destruct (Z.eqb_spec r 0) as [-> | Hne]; [left; split; reflexivity |].
  right.
  destruct (Z.ltb_spec r 9007199254740992) as [Hlt | Hge].
  - destruct (Z.leb_spec e 971) as [Hle | Hgt].
    + right. split; [lia | split; [lia |]].
      exists (Z.to_pos r). rewrite Z2Pos.id by lia.
      rewrite Z.sub_diag, Z.pow_0_r. repeat split; lia.
    + left. repeat split; lia.
  - destruct (Z.leb_spec (e + 1) 971) as [Hle | Hgt].
    + right. split; [lia | split; [lia |]].
      exists 4503599627370496%positive.
      replace (e + 1 - e) with 1 by lia. repeat split; lia.
    + left. repeat split; lia.
Qed.

Lemma fle_zero_pos (s : bool) (m : positive) (e : Z) :
  fle (S754_zero s) (S754_finite false m e).
Proof.
  unfold fle; cbn [mant expo].
  assert (0 <= 2 ^ (e - Z.min 0 e)) by (apply Z.pow_nonneg; lia).
  nia.
Qed.

Lemma fle_neg_zero (s : bool) (m : positive) (e : Z) :
  fle (S754_finite true m e) (S754_zero s).
Proof.
  unfold fle; cbn [mant expo].
  assert (0 <= 2 ^ (e - Z.min e 0)) by (apply Z.pow_nonneg; lia).
  nia.
Qed.

Lemma fle_finite_pos (m1 m2 : positive) (e1 e2 E : Z) :
  E <= e1 -> E <= e2 ->
  Zpos m1 * 2 ^ (e1 - E) <= Zpos m2 * 2 ^ (e2 - E) ->
  fle (S754_finite false m1 e1) (S754_finite false m2 e2)
  /\ fle (S754_finite true m2 e2) (S754_finite true m1 e1).
Proof.
  intros H1 H2 H. split.
  - apply (fle_scale _ _ E); try reflexivity; try assumption.
  - apply (fle_scale _ _ E); try reflexivity; try assumption.
    cbn [mant expo]. lia.
Qed.

(** Two rounded mantissas in order, at one exponent or at two with the
    upper one normal, finish in order. *)
Lemma finish_fle (r1 e1 r2 e2 : Z) :
  0 <= r1 <= 9007199254740992 ->
  0 <= r2 <= 9007199254740992 ->
  (e1 = e2 /\ r1 <= r2) \/ (e1 < e2 /\ 4503599627370496 <= r2) ->
  fle (finish false r1 e1) (finish false r2 e2)
  /\ fle (finish true r2 e2) (finish true r1 e1).
Proof.
  intros H1 H2 Hc.
  assert (Hexp : 0 < r1 -> finish_exp r1 e1 <= finish_exp r2 e2).
  { intros Hpos. unfold finish_exp.
    destruct (Z.ltb_spec r1 9007199254740992),
             (Z.ltb_spec r2 9007199254740992); lia. }
  assert (Hval : r1 <= r2 * 2 ^ (e2 - e1)).
  { destruct Hc as [[-> Hr] | [He Hr]].
    - rewrite Z.sub_diag, Z.pow_0_r; lia.
    - pose proof (pow2_ge_2 (e2 - e1) ltac:(lia)). nia. }
  assert (He12 : e1 <= e2) by lia.
  assert (Hpos2 : 0 < r1 -> 0 < r2) by lia.
  destruct (finish_kind false r1 e1 H1) as [[Z1 F1] | [[P1 [O1 F1]] | [P1 [O1 [m1 [F1 [V1 _]]]]]]];
  destruct (finish_kind true r1 e1 H1) as [[Z1' F1'] | [[P1' [O1' F1']] | [P1' [O1' [m1' [F1' [V1' _]]]]]]];
    try lia;
  destruct (finish_kind false r2 e2 H2) as [[Z2 F2] | [[P2 [O2 F2]] | [P2 [O2 [m2 [F2 [V2 _]]]]]]];
  destruct (finish_kind true r2 e2 H2) as [[Z2' F2'] | [[P2' [O2' F2']] | [P2' [O2' [m2' [F2' [V2' _]]]]]]];
    try lia;
    rewrite F1, F1', F2, F2'.
  - split; unfold fle; cbn [mant expo]; lia.
  - split; exact I.
  - split; [apply fle_zero_pos | apply fle_neg_zero].
  - split; exact I.
  - split; exact I.
  - assert (Em1 : m1' = m1) by nia. subst m1'.
    assert (Em2 : m2' = m2) by nia. subst m2'.
    specialize (Hexp P1).
    assert (G1 : e1 <= finish_exp r1 e1)
      by (unfold finish_exp; destruct (r1 <? 9007199254740992); lia).
    assert (G2 : e2 <= finish_exp r2 e2)
      by (unfold finish_exp; destruct (r2 <? 9007199254740992); lia).
    apply (fle_finite_pos m1 m2 _ _ e1); [lia | lia |].
    rewrite V1.
    replace (finish_exp r2 e2 - e1)
      with ((finish_exp r2 e2 - e2) + (e2 - e1)) by lia.
    rewrite pow2_split by lia. rewrite Z.mul_assoc, V2. exact Hval.
Qed.

End FinishOrder.

Section Monotone.

Local Abbreviation fexp := (SpecFloat.fexp B64.prec B64.emax).
Local Abbreviation aux := (binary_round_aux B64.prec B64.emax).

Lemma fexp_mono (a b : Z) : a <= b -> fexp a <= fexp b.
Proof. intros H; rewrite !fexp_eq; lia. Qed.

Lemma fexp_ge (a : Z) : -1074 <= fexp a.
Proof. rewrite fexp_eq; lia. Qed.

(** A greater value has no smaller magnitude. *)
Lemma magnitude_le (m1 e1 N1 D1 m2 e2 N2 D2 E : Z) :
  0 < D1 -> 0 < D2 ->
  0 < m1 -> 0 <= m2 ->
  m1 = N1 / D1 -> m2 = N2 / D2 ->
  E <= e1 -> E <= e2 ->
  N1 * 2 ^ (e1 - E) * D2 <= N2 * 2 ^ (e2 - E) * D1 ->
  Zdigits2 m1 + e1 <= Zdigits2 m2 + e2.
Proof.
  intros HD1 HD2 Hm1 Hm2 F1 F2 HE1 HE2 Hle.
  pose proof (Z.mul_div_le N1 D1 HD1) as L1. rewrite <- F1 in L1.
  pose proof (Z.mul_succ_div_gt N2 D2 HD2) as L2. rewrite <- F2 in L2.
  pose proof (pow2_pos (e1 - E) ltac:(lia)) as PA1.
  pose proof (pow2_pos (e2 - E) ltac:(lia)) as PA2.
  destruct (Zdigits2_bounds m1 Hm1) as [B1 _].
  assert (B2 : m2 + 1 <= 2 ^ Zdigits2 m2).
  { destruct (Z.eq_dec m2 0) as [-> | Hne]; [simpl; lia |].
    destruct (Zdigits2_bounds m2 ltac:(lia)); lia. }
  pose proof (Zdigits2_nonneg m2) as Hd2.
  assert (Hd1 : 1 <= Zdigits2 m1).
  { apply Zdigits2_ge; [simpl; lia | lia]. }
  assert (K : 2 ^ (Zdigits2 m1 - 1 + (e1 - E)) < 2 ^ (Zdigits2 m2 + (e2 - E))).
  { rewrite !pow2_split by lia.
    set (A1 := 2 ^ (e1 - E)) in *. set (A2 := 2 ^ (e2 - E)) in *.
    set (P1 := 2 ^ (Zdigits2 m1 - 1)) in *. set (P2 := 2 ^ Zdigits2 m2) in *.
    assert (S1 : m1 * A1 < (m2 + 1) * A2).
    { assert (m1 * D1 * A1 * D2 <= N1 * A1 * D2) by nia.
      assert (N2 * A2 * D1 < (m2 + 1) * D2 * A2 * D1).
      { apply Z.mul_lt_mono_pos_r; [lia |].
        apply Z.mul_lt_mono_pos_r; [lia |]. lia. }
      assert (m1 * A1 * (D1 * D2) < (m2 + 1) * A2 * (D1 * D2)) by nia.
      apply Z.mul_lt_mono_pos_r with (p := D1 * D2); [nia | exact H1]. }
    assert (P1 * A1 <= m1 * A1) by nia.
    assert ((m2 + 1) * A2 <= P2 * A2) by nia.
    lia. }
  apply Z.pow_lt_mono_r_iff in K; lia.
Qed.

(** [binary_round_aux] is monotone: of two located values in order, the
    results are in order, with either sign. *)
Lemma aux_mono (m1 e1 : Z) (l1 : location) (N1 D1 : Z)
               (m2 e2 : Z) (l2 : location) (N2 D2 : Z) (E : Z) :
  0 < D1 -> 0 < D2 ->
  inbetween N1 D1 (shr_record_of_loc m1 l1) ->
  inbetween N2 D2 (shr_record_of_loc m2 l2) ->
  e1 <= fexp (Zdigits2 m1 + e1) ->
  e2 <= fexp (Zdigits2 m2 + e2) ->
  (m1 = 0 -> fexp e1 = -1074) ->
  E <= e1 -> E <= e2 ->
  N1 * 2 ^ (e1 - E) * D2 <= N2 * 2 ^ (e2 - E) * D1 ->
  fle (aux false m1 e1 l1) (aux false m2 e2 l2)
  /\ fle (aux true m2 e2 l2) (aux true m1 e1 l1).
Proof.
  intros HD1 HD2 I1 I2 P1 P2 Hz HE1 HE2 Hle.
  destruct (aux_spec m1 e1 l1 N1 D1 HD1 I1 P1) as [r1 [J1 [A1 [R1 Lo1]]]].
  destruct (aux_spec m2 e2 l2 N2 D2 HD2 I2 P2) as [r2 [J2 [A2 [R2 Lo2]]]].
  rewrite !A1, !A2.
  set (e1' := fexp (Zdigits2 m1 + e1)) in *.
  set (e2' := fexp (Zdigits2 m2 + e2)) in *.
  assert (F1 : m1 = N1 / D1).
  { rewrite <- (inbetween_floor N1 D1 _ HD1 I1). now rewrite shr_m_of_loc. }
  assert (F2 : m2 = N2 / D2).
  { rewrite <- (inbetween_floor N2 D2 _ HD2 I2). now rewrite shr_m_of_loc. }
  assert (Hm1 : 0 <= m1)
    by (destruct I1 as [H _]; now rewrite shr_m_of_loc in H).
  assert (Hm2 : 0 <= m2)
    by (destruct I2 as [H _]; now rewrite shr_m_of_loc in H).
  assert (He : e1' <= e2').
  { destruct (Z.eq_dec m1 0) as [Hm0 | Hm0].
    - unfold e1'. rewrite Hm0. change (Zdigits2 0) with 0.
      rewrite Z.add_0_l, (Hz Hm0). apply fexp_ge.
    - apply fexp_mono.
      apply (magnitude_le m1 e1 N1 D1 m2 e2 N2 D2 E); try assumption; lia. }
  apply finish_fle; try assumption.
  destruct (Z.eq_dec e1' e2') as [Heq | Hne].
  - left. split; [exact Heq |].
    pose proof (pow2_pos (e1' - e1) ltac:(lia)) as U.
    pose proof (pow2_pos (e2' - e2) ltac:(lia)) as W.
    pose proof (pow2_pos (e1 - E) ltac:(lia)) as PA1.
    pose proof (pow2_pos (e2 - E) ltac:(lia)) as PA2.
    apply (rne_mono N1 (D1 * 2 ^ (e1' - e1)) N2 (D2 * 2 ^ (e2' - e2)));
      try assumption; try nia.
    assert (T : 2 ^ (e1' - e1) * 2 ^ (e1 - E) = 2 ^ (e2' - e2) * 2 ^ (e2 - E)).
    { rewrite <- !pow2_split by lia. f_equal; lia. }
    set (u := 2 ^ (e1' - e1)) in *. set (w := 2 ^ (e2' - e2)) in *.
    set (a1 := 2 ^ (e1 - E)) in *. set (a2 := 2 ^ (e2 - E)) in *.
    apply Z.mul_le_mono_pos_r with (p := a1 * a2); [nia |].
    replace (N1 * (D2 * w) * (a1 * a2)) with (N1 * a1 * D2 * (w * a2)) by ring.
    replace (N2 * (D1 * u) * (a1 * a2)) with (N2 * a2 * D1 * (u * a1)) by ring.
    rewrite <- T. apply Z.mul_le_mono_nonneg_r; [nia | exact Hle].
  - right. split; [lia |]. apply Lo2. pose proof (fexp_ge (Zdigits2 m1 + e1)).
    fold e1' in H. lia.
Qed.

End Monotone.

Section Normalize.

Local Abbreviation fexp := (SpecFloat.fexp B64.prec B64.emax).
Local Abbreviation aux := (binary_round_aux B64.prec B64.emax).

Lemma iter_xO (m d : positive) :
  Zpos (Pos.iter xO m d) = Zpos m * 2 ^ Zpos d.
Proof.
  induction d as [| d IH] using Pos.peano_ind.
  - cbn [Pos.iter]. rewrite (Pos2Z.inj_xO m). change (2 ^ 1) with 2. ring.
  - rewrite Pos.iter_succ, (Pos2Z.inj_xO (Pos.iter xO m d)), IH.
    rewrite Pos2Z.inj_succ, Z.pow_succ_r by lia. ring.
Qed.

Lemma shl_align_spec (mx : positive) (ex ex' : Z) :
  snd (shl_align mx ex ex') = Z.min ex ex'
  /\ Zpos (fst (shl_align mx ex ex'))
     = Zpos mx * 2 ^ (ex - Z.min ex ex').
Proof.
  unfold shl_align. destruct (ex' - ex) as [| d | d] eqn:E; cbn [fst snd].
  - rewrite Z.min_l by lia. rewrite Z.sub_diag, Z.pow_0_r. lia.
  - rewrite Z.min_l by lia. rewrite Z.sub_diag, Z.pow_0_r. lia.
  - rewrite Z.min_r by lia. split; [reflexivity |].
    rewrite iter_xO. f_equal. f_equal. lia.
Qed.

Lemma Zdigits2_shift (m k : Z) :
  0 < m -> 0 <= k -> Zdigits2 (m * 2 ^ k) = Zdigits2 m + k.
Proof.
  intros Hm Hk.
  destruct (Zdigits2_bounds m Hm) as [Lo Hi].
  pose proof (pow2_pos k Hk) as HP.
  assert (Hd : 1 <= Zdigits2 m) by (apply Zdigits2_ge; [simpl; lia | lia]).
  apply Z.le_antisymm.
  - apply Zdigits2_le; [lia |]. rewrite pow2_split by lia. nia.
  - apply Zdigits2_ge; [| nia].
    replace (Zdigits2 m + k - 1) with ((Zdigits2 m - 1) + k) by lia.
    rewrite pow2_split by lia. nia.
Qed.

(** [binary_round] rounds the exact value [mx * 2^ex]. *)
Lemma binary_round_form (mx : positive) (ex : Z) :
  exists mz ez,
    (forall s, binary_round B64.prec B64.emax s mx ex
               = aux s (Zpos mz) ez loc_Exact)
    /\ ez <= ex
    /\ Zpos mz = Zpos mx * 2 ^ (ex - ez)
    /\ ez <= fexp (Zdigits2 (Zpos mz) + ez).
Proof.
  unfold binary_round.
  set (t := fexp (Zpos (digits2_pos mx) + ex)).
  destruct (shl_align_spec mx ex t) as [Hs Hf].
  destruct (shl_align mx ex t) as [mz ez] eqn:Sh; cbn [fst snd] in *.
  exists mz, ez. split; [reflexivity |]. split; [lia |]. split.
  - rewrite Hf, Hs. reflexivity.
  - rewrite Hf, Hs.
    rewrite Zdigits2_shift by lia.
    change (Zdigits2 (Zpos mx)) with (Zpos (digits2_pos mx)).
    replace (Zpos (digits2_pos mx) + (ex - Z.min ex t) + Z.min ex t)
      with (Zpos (digits2_pos mx) + ex) by lia.
    fold t. lia.
Qed.

Lemma inbetween_exact (m : Z) :
  0 <= m -> inbetween m 1 (shr_record_of_loc m loc_Exact).
Proof. intros H; split; cbn; lia. Qed.

Lemma binary_round_mono (mx1 : positive) (ex1 : Z) (mx2 : positive) (ex2 E : Z) :
  E <= ex1 -> E <= ex2 ->
  Zpos mx1 * 2 ^ (ex1 - E) <= Zpos mx2 * 2 ^ (ex2 - E) ->
  fle (binary_round B64.prec B64.emax false mx1 ex1)
      (binary_round B64.prec B64.emax false mx2 ex2)
  /\ fle (binary_round B64.prec B64.emax true mx2 ex2)
         (binary_round B64.prec B64.emax true mx1 ex1).
Proof.
  intros HE1 HE2 Hle.
  destruct (binary_round_form mx1 ex1) as [mz1 [ez1 [B1 [L1 [V1 P1]]]]].
  destruct (binary_round_form mx2 ex2) as [mz2 [ez2 [B2 [L2 [V2 P2]]]]].
  rewrite !B1, !B2.
  set (E' := Z.min E (Z.min ez1 ez2)).
  apply (aux_mono (Zpos mz1) ez1 loc_Exact (Zpos mz1) 1
                  (Zpos mz2) ez2 loc_Exact (Zpos mz2) 1 E');
    try lia; try (apply inbetween_exact; lia); try assumption;
    try (unfold E'; lia).
  rewrite !Z.mul_1_r, V1, V2, <- !Z.mul_assoc, <- !pow2_split
    by (unfold E'; lia).
  replace (ex1 - ez1 + (ez1 - E')) with ((ex1 - E) + (E - E'))
    by (unfold E'; lia).
  replace (ex2 - ez2 + (ez2 - E')) with ((ex2 - E) + (E - E'))
    by (unfold E'; lia).
  rewrite !pow2_split by (unfold E'; lia).
  pose proof (pow2_pos (E - E') ltac:(unfold E'; lia)).
  rewrite !Z.mul_assoc. apply Z.mul_le_mono_nonneg_r; [lia | exact Hle].
Qed.

Lemma finish_nonneg (r e : Z) : nonneg (finish false r e).
Proof.
  unfold finish.
  destruct (r =? 0), (r <? 9007199254740992), (e <=? 971), (e + 1 <=? 971);
    exact I.
Qed.

Lemma finish_nonpos (r e : Z) : nonpos (finish true r e).
Proof.
  unfold finish.
  destruct (r =? 0), (r <? 9007199254740992), (e <=? 971), (e + 1 <=? 971);
    exact I.
Qed.

Lemma fle_nonpos_nonneg (x y : spec_float) : nonpos x -> nonneg y -> fle x y.
Proof.
  destruct x as [sx | [|] | | [|] mx ex], y as [sy | [|] | | [|] my ey];
    try contradiction; intros _ _; try exact I.
  - unfold fle; cbn [mant expo]; lia.
  - apply fle_zero_pos.
  - apply fle_neg_zero.
  - unfold fle; cbn [mant expo].
    assert (0 <= 2 ^ (ex - Z.min ex ey)) by (apply Z.pow_nonneg; lia).
    assert (0 <= 2 ^ (ey - Z.min ex ey)) by (apply Z.pow_nonneg; lia).
    nia.
Qed.

Lemma binary_round_sign (mx : positive) (ex : Z) :
  nonneg (binary_round B64.prec B64.emax false mx ex)
  /\ nonpos (binary_round B64.prec B64.emax true mx ex).
Proof.
  destruct (binary_round_form mx ex) as [mz [ez [B [L [V P]]]]].
  destruct (aux_spec (Zpos mz) ez loc_Exact (Zpos mz) 1 Z.lt_0_1
              (inbetween_exact _ (Pos2Z.is_nonneg mz)) P) as [r [_ [A _]]].
  rewrite !B, !A. split; [apply finish_nonneg | apply finish_nonpos].
Qed.

(** [binary_normalize] is monotone in the exact value it rounds. *)
Lemma binary_normalize_mono (M1 e1 M2 e2 E : Z) :
  E <= e1 -> E <= e2 ->
  M1 * 2 ^ (e1 - E) <= M2 * 2 ^ (e2 - E) ->
  fle (binary_normalize B64.prec B64.emax M1 e1 false)
      (binary_normalize B64.prec B64.emax M2 e2 false).
Proof.
  intros HE1 HE2 Hle.
  pose proof (pow2_pos (e1 - E) ltac:(lia)) as PA1.
  pose proof (pow2_pos (e2 - E) ltac:(lia)) as PA2.
  destruct M1 as [| p1 | p1], M2 as [| p2 | p2]; cbn [binary_normalize];
    try (exfalso; nia).
  - exact I || (unfold fle; cbn [mant expo]; lia).
  - apply fle_nonpos_nonneg; [exact I | apply binary_round_sign].
  - now apply (binary_round_mono p1 e1 p2 e2 E).
  - apply fle_nonpos_nonneg; [apply binary_round_sign | exact I].
  - apply fle_nonpos_nonneg; apply binary_round_sign.
  - apply (binary_round_mono p2 e2 p1 e1 E); try assumption. nia.
Qed.

End Normalize.

Section Validity.

Local Abbreviation fexp := (SpecFloat.fexp B64.prec B64.emax).
Local Abbreviation aux := (binary_round_aux B64.prec B64.emax).

Lemma valid_finite_iff (s : bool) (m : positive) (e : Z) :
  valid (S754_finite s m e)
  <-> (-1074 <= e <= 971
       /\ Zpos m < 9007199254740992
       /\ (-1074 < e -> 4503599627370496 <= Zpos m)).
Proof.
  unfold valid, valid_binary, bounded, canonical_mantissa.
  rewrite andb_true_iff, Z.eqb_eq, Z.leb_le, fexp_eq.
  change (B64.emax - B64.prec) with 971.
  pose proof (digits2_pos_bounds m) as [Lo Hi].
  set (d := Zpos (digits2_pos m)) in *.
  assert (Hd : 1 <= d) by (unfold d; lia).
  split.
  - intros [Hc He].
    assert (Hd53 : d <= 53) by lia.
    split; [lia |]. split.
    + assert (2 ^ d <= 2 ^ 53) by (apply Z.pow_le_mono_r; lia).
      change (2 ^ 53) with 9007199254740992 in *. lia.
    + intros Hbig. assert (d = 53) by lia.
      replace (d - 1) with 52 in Lo by lia.
      change (2 ^ 52) with 4503599627370496 in Lo. exact Lo.
  - intros [He [Hm Hn]].
    assert (Hd53 : d <= 53).
    { assert (K : 2 ^ (d - 1) < 2 ^ 53)
        by (change (2 ^ 53) with 9007199254740992; lia).
      apply Z.pow_lt_mono_r_iff in K; lia. }
    split; [| lia].
    destruct (Z.eq_dec e (-1074)) as [-> | Hne]; [lia |].
    assert (H52 : 4503599627370496 <= Zpos m) by (apply Hn; lia).
    assert (53 <= d).
    { destruct (Z_le_gt_dec 53 d) as [H | H]; [exact H | exfalso].
      assert (2 ^ d <= 2 ^ 52) by (apply Z.pow_le_mono_r; lia).
      change (2 ^ 52) with 4503599627370496 in *. lia. }
    lia.
Qed.

Lemma valid_finish (s : bool) (r e : Z) :
  0 <= r <= 9007199254740992 ->
  -1074 <= e ->
  (-1074 < e -> 4503599627370496 <= r) ->
  valid (finish s r e) /\ finish s r e <> S754_nan.
Proof.
  intros Hr He Hn.
  destruct (finish_kind s r e Hr)
    as [[Z1 F1] | [[P1 [O1 F1]] | [P1 [O1 [m [F1 [V1 [U1 L1]]]]]]]];
    rewrite F1; (split; [| discriminate]); try reflexivity.
  apply valid_finite_iff.
  unfold finish_exp in *.
  destruct (Z.ltb_spec r 9007199254740992) as [Hlt | Hge].
  - rewrite Z.sub_diag, Z.pow_0_r in V1. split; [lia |]. split; [lia |].
    intros Hbig. specialize (Hn Hbig). lia.
  - split; [lia |]. split; [lia |]. intros _. apply L1. lia.
Qed.

Lemma aux_valid (s : bool) (m e : Z) (l : location) (N D : Z) :
  0 < D ->
  inbetween N D (shr_record_of_loc m l) ->
  e <= fexp (Zdigits2 m + e) ->
  valid (aux s m e l) /\ aux s m e l <> S754_nan.
Proof.
  intros HD Hin HP.
  destruct (aux_spec m e l N D HD Hin HP) as [r [_ [A [R Lo]]]].
  rewrite A. apply valid_finish; [exact R | apply fexp_ge | exact Lo].
Qed.

Lemma binary_round_valid (s : bool) (mx : positive) (ex : Z) :
  valid (binary_round B64.prec B64.emax s mx ex)
  /\ binary_round B64.prec B64.emax s mx ex <> S754_nan.
Proof.
  destruct (binary_round_form mx ex) as [mz [ez [B [L [V P]]]]].
  rewrite B.
  apply (aux_valid s (Zpos mz) ez loc_Exact (Zpos mz) 1 Z.lt_0_1
           (inbetween_exact _ (Pos2Z.is_nonneg mz)) P).
Qed.

Lemma binary_normalize_valid (M e : Z) (sz : bool) :
  valid (binary_normalize B64.prec B64.emax M e sz)
  /\ binary_normalize B64.prec B64.emax M e sz <> S754_nan.
Proof.
  destruct M as [| p | p]; cbn [binary_normalize].
  - split; [reflexivity | discriminate].
  - apply binary_round_valid.
  - apply binary_round_valid.
Qed.

(** Rounding a double gives it back. *)
Lemma binary_round_exact (s : bool) (m : positive) (e : Z) :
  valid (S754_finite s m e) ->
  binary_round B64.prec B64.emax s m e = S754_finite s m e.
Proof.
  intros Hv.
  assert (Hc : fexp (Zpos (digits2_pos m) + e) = e).
  { unfold valid, valid_binary, bounded, canonical_mantissa in Hv.
    apply andb_true_iff in Hv as [Hc _]. now apply Z.eqb_eq in Hc. }
  apply valid_finite_iff in Hv as [He [Hm Hn]].
  unfold binary_round. rewrite Hc.
  unfold shl_align. rewrite Z.sub_diag.
  assert (HP : e <= fexp (Zdigits2 (Zpos m) + e))
    by (change (Zdigits2 (Zpos m)) with (Zpos (digits2_pos m)); lia).
  destruct (aux_spec (Zpos m) e loc_Exact (Zpos m) 1 Z.lt_0_1
              (inbetween_exact _ (Pos2Z.is_nonneg m)) HP)
    as [r [J [A _]]].
  rewrite A.
  change (Zdigits2 (Zpos m)) with (Zpos (digits2_pos m)) in *.
  rewrite Hc in *. rewrite Z.sub_diag, Z.pow_0_r, Z.mul_1_r in J.
  destruct (rne_lower _ _ _ Z.lt_0_1 J) as [Lo _].
  destruct (rne_upper _ _ _ Z.lt_0_1 J) as [Up _].
  assert (Er : rne r = Zpos m) by lia.
  rewrite Er. unfold finish.
  destruct (Z.eqb_spec (Zpos m) 0) as [H0 | _]; [lia |].
  destruct (Z.ltb_spec (Zpos m) 9007199254740992) as [_ | H1]; [| lia].
  destruct (Z.leb_spec e 971) as [_ | H2]; [| lia].
  reflexivity.
Qed.

Lemma of_int_valid (n : Z) (x : B64.float) :
  B64.of_int n = Ok x -> valid x /\ B64.is_finite x = true.
Proof.
  unfold B64.of_int.
  destruct (binary_normalize_valid n 0 false) as [Hv Hn].
  destruct (binary_normalize B64.prec B64.emax n 0 false) eqn:E;
    try discriminate; try contradiction; intros [= <-];
    (split; [exact Hv | reflexivity]).
Qed.

Lemma of_int_mono (v1 v2 : Z) (x1 x2 : B64.float) :
  v1 <= v2 ->
  B64.of_int v1 = Ok x1 ->
  B64.of_int v2 = Ok x2 ->
  fle x1 x2.
Proof.
  intros Hv H1 H2.
  pose proof (binary_normalize_mono v1 0 v2 0 0 ltac:(lia) ltac:(lia)) as Hm.
  rewrite !Z.sub_diag, Z.pow_0_r, !Z.mul_1_r in Hm. specialize (Hm Hv).
  unfold B64.of_int in H1, H2.
  destruct (binary_normalize B64.prec B64.emax v1 0 false);
    try discriminate; injection H1 as <-;
    destruct (binary_normalize B64.prec B64.emax v2 0 false);
    try discriminate; injection H2 as <-; exact Hm.
Qed.

End Validity.

Section Operations.

Local Abbreviation fexp := (SpecFloat.fexp B64.prec B64.emax).
Local Abbreviation aux := (binary_round_aux B64.prec B64.emax).
Local Abbreviation bn := (binary_normalize B64.prec B64.emax).

Lemma cond_Zopp_mant (s : bool) (m : positive) (e : Z) (k : Z) :
  cond_Zopp s (Zpos m * k) = mant (S754_finite s m e) * k.
Proof. destruct s; cbn [cond_Zopp mant]; ring. Qed.

(** Subtracting a finite double rounds the exact difference. *)
Lemma sub_finite_form (x : spec_float) (sa : bool) (ma : positive) (ea : Z) :
  B64.is_finite x = true ->
  valid (S754_finite sa ma ea) ->
  exists M e,
    B64.sub x (S754_finite sa ma ea) = bn M e false
    /\ Z.min (expo x) ea <= e
    /\ forall E, E <= Z.min (expo x) ea ->
         M * 2 ^ (e - E)
         = mant x * 2 ^ (expo x - E)
           - mant (S754_finite sa ma ea) * 2 ^ (ea - E).
Proof.
  intros Hx Ha.
  destruct x as [sx | sx | | sx mx ex]; try discriminate.
  - exists (- mant (S754_finite sa ma ea)), ea. split; [| split].
    + unfold B64.sub, SFsub.
      destruct sa; cbn [mant negb Z.opp binary_normalize].
      * symmetry. apply binary_round_exact.
        apply valid_finite_iff. now apply valid_finite_iff in Ha.
      * symmetry. apply binary_round_exact.
        apply valid_finite_iff. now apply valid_finite_iff in Ha.
    + cbn [expo]; lia.
    + intros E HE. cbn [mant expo]. ring.
  - set (ez := Z.min ex ea).
    exists (cond_Zopp sx (Zpos (fst (shl_align mx ex ez)))
            - cond_Zopp sa (Zpos (fst (shl_align ma ea ez)))), ez.
    split; [reflexivity |]. split; [cbn [expo]; unfold ez; lia |].
    intros E HE. cbn [expo] in *.
    destruct (shl_align_spec mx ex ez) as [_ Fx].
    destruct (shl_align_spec ma ea ez) as [_ Fa].
    rewrite Fx, Fa.
    replace (Z.min ex ez) with ez by (unfold ez; lia).
    replace (Z.min ea ez) with ez by (unfold ez; lia).
    rewrite (cond_Zopp_mant sx mx ex), (cond_Zopp_mant sa ma ea).
    rewrite Z.mul_sub_distr_r, <- !Z.mul_assoc, <- !pow2_split
      by (unfold ez; lia).
    replace (ex - ez + (ez - E)) with (ex - E) by lia.
    replace (ea - ez + (ez - E)) with (ea - E) by lia.
    reflexivity.
Qed.

Lemma fle_zero_sign (s s' : bool) (y : spec_float) :
  (fle (S754_zero s) y -> fle (S754_zero s') y)
  /\ (fle y (S754_zero s) -> fle y (S754_zero s')).
Proof. split; destruct y as [sy | [|] | | sy my ey]; intros H; exact H. Qed.

(** Subtraction of a fixed double is monotone in the first operand. *)
Lemma sub_mono (x1 x2 a : spec_float) :
  B64.is_finite x1 = true ->
  B64.is_finite x2 = true ->
  B64.is_finite a = true ->
  valid a ->
  fle x1 x2 ->
  fle (B64.sub x1 a) (B64.sub x2 a).
Proof.
  intros H1 H2 Ha Hv Hle.
  destruct a as [sa | sa | | sa ma ea]; try discriminate.
  - assert (Hz : forall x, B64.is_finite x = true ->
                           (exists s, x = S754_zero s
                                      /\ exists s', B64.sub x (S754_zero sa) = S754_zero s')
                           \/ ((exists s m e, x = S754_finite s m e)
                               /\ B64.sub x (S754_zero sa) = x)).
    { intros x Hx. destruct x as [sx | sx | | sx mx ex]; try discriminate.
      - left. exists sx. split; [reflexivity |].
        destruct sx, sa; eexists; reflexivity.
      - right. split; [now exists sx, mx, ex | reflexivity]. }
    destruct (Hz x1 H1) as [[s1 [-> [s1' ->]]] | [_ ->]];
      destruct (Hz x2 H2) as [[s2 [-> [s2' ->]]] | [_ ->]].
    + unfold fle; cbn [mant expo]; lia.
    + now apply (fle_zero_sign s1 s1').
    + now apply (fle_zero_sign s2 s2').
    + exact Hle.
  - destruct (sub_finite_form x1 sa ma ea H1 Hv) as [M1 [e1 [-> [L1 V1]]]].
    destruct (sub_finite_form x2 sa ma ea H2 Hv) as [M2 [e2 [-> [L2 V2]]]].
    set (E := Z.min (Z.min (expo x1) (expo x2)) ea).
    apply (binary_normalize_mono M1 e1 M2 e2 E); try (unfold E; lia).
    rewrite V1, V2 by (unfold E; lia).
    apply (fle_scale x1 x2 E H1 H2) in Hle; try (unfold E; lia).
    lia.
Qed.

Lemma add_zero_mono (w1 w2 : spec_float) :
  fle w1 w2 ->
  fle (B64.add (S754_zero false) w1) (B64.add (S754_zero false) w2).
Proof.
  intros H.
  assert (Hz : forall w, (exists s, w = S754_zero s
                                    /\ B64.add (S754_zero false) w = S754_zero false)
                         \/ B64.add (S754_zero false) w = w).
  { intros w. destruct w as [s | s | | s m e]; try (right; reflexivity).
    left. exists s. split; [reflexivity | destruct s; reflexivity]. }
  destruct (Hz w1) as [[s1 [-> ->]] | ->];
    destruct (Hz w2) as [[s2 [-> ->]] | ->].
  - unfold fle; cbn [mant expo]; lia.
  - now apply (fle_zero_sign s1 false).
  - now apply (fle_zero_sign s2 false).
  - exact H.
Qed.

End Operations.

Section Division.

Local Abbreviation fexp := (SpecFloat.fexp B64.prec B64.emax).
Local Abbreviation aux := (binary_round_aux B64.prec B64.emax).

Lemma new_location_spec (D r q : Z) :
  0 < D -> 0 <= r < D -> 0 <= q ->
  inbetween (D * q + r) D (shr_record_of_loc q (new_location D r)).
Proof.
  intros HD Hr Hq.
  unfold new_location, new_location_even, new_location_odd.
  destruct (Z.even D) eqn:Ev.
  - destruct (Z.eqb_spec r 0) as [-> | Hne].
    + unfold inbetween; cbn [shr_record_of_loc shr_m shr_r shr_s]. lia.
    + destruct (Z.compare_spec (2 * r) D) as [He | Hl | Hg];
        unfold inbetween; cbn [shr_record_of_loc shr_m shr_r shr_s]; lia.
  - assert (Hodd : exists k, D = 2 * k + 1).
    { apply Z.odd_spec. rewrite <- Z.negb_even, Ev. reflexivity. }
    destruct Hodd as [k Hk].
    destruct (Z.eqb_spec r 0) as [-> | Hne].
    + unfold inbetween; cbn [shr_record_of_loc shr_m shr_r shr_s]. lia.
    + destruct (Z.compare_spec (2 * r + 1) D) as [He | Hl | Hg];
        unfold inbetween; cbn [shr_record_of_loc shr_m shr_r shr_s]; lia.
Qed.

(** The quotient located by [SFdiv_core_binary]. *)
Lemma div_core_spec (m1 : positive) (e1 : Z) (m2 : positive) (e2 : Z) :
  exists q e' l,
    SFdiv_core_binary B64.prec B64.emax (Zpos m1) e1 (Zpos m2) e2 = (q, e', l)
    /\ e' <= e1 - e2
    /\ inbetween (Zpos m1 * 2 ^ (e1 - e2 - e')) (Zpos m2)
                 (shr_record_of_loc q l)
    /\ e' <= fexp (Zdigits2 q + e')
    /\ (q = 0 -> fexp e' = -1074).
Proof.
  unfold SFdiv_core_binary.
  set (d1 := Zdigits2 (Zpos m1)). set (d2 := Zdigits2 (Zpos m2)).
  set (e' := Z.min (fexp (d1 + e1 - (d2 + e2))) (e1 - e2)).
  set (s := e1 - e2 - e').
  assert (Hs : 0 <= s) by (unfold s, e'; lia).
  set (m' := match s with
             | 0 => Zpos m1
             | Zpos _ => Z.shiftl (Zpos m1) s
             | Zneg _ => 0
             end).
  assert (Hm' : m' = Zpos m1 * 2 ^ s).
  { unfold m'. destruct s as [| p | p] eqn:Es; [| | lia].
    - rewrite Z.pow_0_r; lia.
    - apply Z.shiftl_mul_pow2; lia. }
  pose proof (pow2_pos s Hs) as HP.
  pose proof (Z_div_mod m' (Zpos m2) ltac:(lia)) as Hdm.
  destruct (Z.div_eucl m' (Zpos m2)) as [q r] eqn:Hqr.
  destruct Hdm as [Hdiv Hrem].
  assert (Hq : 0 <= q) by nia.
  exists q, e', (new_location (Zpos m2) r).
  split; [reflexivity |]. split; [unfold e'; lia |].
  split.
  { fold s. rewrite <- Hm', Hdiv. apply new_location_spec; lia. }
  assert (Hbig : -1074 < e' -> 4503599627370496 <= q).
  { intros Hb.
    assert (HX : 53 <= d1 + s - d2).
    { unfold s. assert (e' <= fexp (d1 + e1 - (d2 + e2))) by (unfold e'; lia).
      rewrite fexp_eq in H. lia. }
    destruct (digits2_pos_bounds m1) as [Lo1 _].
    destruct (digits2_pos_bounds m2) as [_ Hi2].
    fold (Zdigits2 (Zpos m1)) in Lo1. fold d1 in Lo1.
    fold (Zdigits2 (Zpos m2)) in Hi2. fold d2 in Hi2.
    assert (Hd1 : 1 <= d1) by (unfold d1; simpl; lia).
    assert (Hd2 : 1 <= d2) by (unfold d2; simpl; lia).
    assert (K : 2 ^ 52 * 2 ^ d2 <= 2 ^ (d1 - 1) * 2 ^ s).
    { rewrite <- !pow2_split by lia. apply Z.pow_le_mono_r; lia. }
    change (2 ^ 52) with 4503599627370496 in K.
    destruct (Z_le_gt_dec 4503599627370496 q) as [Hok | Hbad]; [exact Hok |].
    exfalso.
    assert (m' < 4503599627370496 * Zpos m2) by nia.
    assert (2 ^ (d1 - 1) * 2 ^ s <= m') by (rewrite Hm'; nia).
    assert (4503599627370496 * Zpos m2 < 4503599627370496 * 2 ^ d2) by nia.
    lia. }
  split.
  - destruct (Z_le_gt_dec e' (-1074)) as [Hsmall | Hb].
    + pose proof (fexp_ge (Zdigits2 q + e')). lia.
    + specialize (Hbig ltac:(lia)).
      assert (53 <= Zdigits2 q).
      { apply Zdigits2_ge; [| lia].
        change (2 ^ (53 - 1)) with 4503599627370496. exact Hbig. }
      rewrite fexp_eq. lia.
  - intros Hq0. rewrite fexp_eq.
    destruct (Z_le_gt_dec e' (-1074)) as [Hsmall | Hb]; [lia |].
    specialize (Hbig ltac:(lia)). lia.
Qed.

Lemma fle_not_nan (x y : spec_float) :
  fle x y -> x <> S754_nan /\ y <> S754_nan.
Proof.
  destruct x as [sx | [|] | | sx mx ex], y as [sy | [|] | | sy my ey];
    intros H; try contradiction; split; discriminate.
Qed.

Lemma fle_inf_l (y : spec_float) : y <> S754_nan -> fle (S754_infinity true) y.
Proof. destruct y; intros H; try exact I. contradiction. Qed.

Lemma fle_inf_r (x : spec_float) : x <> S754_nan -> fle x (S754_infinity false).
Proof.
  destruct x as [sx | [|] | | sx mx ex]; intros H; try exact I. contradiction.
Qed.

(** Dividing a finite double by a positive one rounds the located
    quotient. *)
Lemma div_finite_form (sx : bool) (mx : positive) (ex : Z)
      (ms : positive) (es : Z) :
  exists q e' l,
    SFdiv B64.prec B64.emax (S754_finite sx mx ex) (S754_finite false ms es)
    = aux sx q e' l
    /\ e' <= ex - es
    /\ inbetween (Zpos mx * 2 ^ (ex - es - e')) (Zpos ms)
                 (shr_record_of_loc q l)
    /\ e' <= fexp (Zdigits2 q + e')
    /\ (q = 0 -> fexp e' = -1074).
Proof.
  destruct (div_core_spec mx ex ms es) as [q [e' [l [Hc H]]]].
  exists q, e', l. split; [| exact H].
  unfold SFdiv. rewrite Hc. now rewrite xorb_false_r.
Qed.

Lemma aux_sign (q e : Z) (l : location) (N D : Z) :
  0 < D ->
  inbetween N D (shr_record_of_loc q l) ->
  e <= fexp (Zdigits2 q + e) ->
  nonneg (aux false q e l) /\ nonpos (aux true q e l).
Proof.
  intros HD Hin HP.
  destruct (aux_spec q e l N D HD Hin HP) as [r [_ [A _]]].
  rewrite !A. split; [apply finish_nonneg | apply finish_nonpos].
Qed.

Lemma nonneg_not_nan (x : spec_float) : nonneg x -> x <> S754_nan.
Proof. destruct x; intros H; try discriminate; contradiction. Qed.

Lemma nonpos_not_nan (x : spec_float) : nonpos x -> x <> S754_nan.
Proof. destruct x; intros H; try discriminate; contradiction. Qed.

(** Division by a fixed positive double is monotone in the dividend. *)
Lemma div_mono (y1 y2 : spec_float) (ms : positive) (es : Z) :
  fle y1 y2 ->
  fle (SFdiv B64.prec B64.emax y1 (S754_finite false ms es))
      (SFdiv B64.prec B64.emax y2 (S754_finite false ms es)).
Proof.
  intros Hle.
  assert (Hform : forall y, y <> S754_nan ->
            (nonneg y -> nonneg (SFdiv B64.prec B64.emax y (S754_finite false ms es)))
            /\ (nonpos y -> nonpos (SFdiv B64.prec B64.emax y (S754_finite false ms es)))).
  { intros y Hy. destruct y as [s | s | | s m e]; try contradiction.
    - destruct s; split; intros H; exact H.
    - destruct s; split; intros H; exact H.
    - destruct (div_finite_form s m e ms es) as [q [e' [l [-> [_ [I [P _]]]]]]].
      destruct (aux_sign q e' l _ _ (Pos2Z.is_pos ms) I P) as [Hn Hp].
      destruct s; split; intros H; try contradiction; assumption. }
  destruct (fle_not_nan _ _ Hle) as [N1 N2].
  assert (Hsign : forall y, y <> S754_nan -> nonneg y \/ nonpos y).
  { intros y Hy. destruct y as [s | [|] | | [|] m e]; try contradiction;
      (left; exact I) || (right; exact I). }
  destruct y1 as [s1 | s1 | | s1 m1 e1]; try contradiction;
    destruct y2 as [s2 | s2 | | s2 m2 e2]; try contradiction.
  - (* zero, zero *)
    apply fle_nonpos_nonneg.
    + apply (proj2 (Hform _ N1)); exact I.
    + apply (proj1 (Hform _ N2)); exact I.
  - (* zero, infinity *)
    destruct s2; [contradiction |].
    apply fle_inf_r. apply nonpos_not_nan, (proj2 (Hform _ N1)); exact I.
  - (* zero, finite *)
    destruct s2.
    + exfalso. unfold fle in Hle; cbn [mant expo] in Hle.
      pose proof (pow2_pos (e2 - Z.min 0 e2) ltac:(lia)). nia.
    + apply fle_nonpos_nonneg.
      * apply (proj2 (Hform _ N1)); exact I.
      * apply (proj1 (Hform _ N2)); exact I.
  - (* infinity, zero *)
    destruct s1; [| contradiction].
    apply fle_inf_l. apply nonneg_not_nan, (proj1 (Hform _ N2)); exact I.
  - (* infinity, infinity *)
    destruct s1, s2; try contradiction; exact I.
  - (* infinity, finite *)
    destruct s1; [| contradiction].
    apply fle_inf_l.
    destruct (Hsign _ N2) as [H | H].
    + apply nonneg_not_nan, (proj1 (Hform _ N2)), H.
    + apply nonpos_not_nan, (proj2 (Hform _ N2)), H.
  - (* finite, zero *)
    destruct s1.
    + apply fle_nonpos_nonneg.
      * apply (proj2 (Hform _ N1)); exact I.
      * apply (proj1 (Hform _ N2)); exact I.
    + exfalso. unfold fle in Hle; cbn [mant expo] in Hle.
      pose proof (pow2_pos (e1 - Z.min e1 0) ltac:(lia)). nia.
  - (* finite, infinity *)
    destruct s2; [destruct s1; contradiction |].
    apply fle_inf_r.
    destruct (Hsign _ N1) as [H | H].
    + apply nonneg_not_nan, (proj1 (Hform _ N1)), H.
    + apply nonpos_not_nan, (proj2 (Hform _ N1)), H.
  - (* finite, finite *)
    destruct (div_finite_form s1 m1 e1 ms es)
      as [q1 [e1' [l1 [F1 [L1 [I1 [P1 Z1]]]]]]].
    destruct (div_finite_form s2 m2 e2 ms es)
      as [q2 [e2' [l2 [F2 [L2 [I2 [P2 Z2]]]]]]].
    set (E := Z.min e1' e2').
    assert (HE1 : es + E <= e1) by (unfold E; lia).
    assert (HE2 : es + E <= e2) by (unfold E; lia).
    apply (fle_scale _ _ (es + E)) in Hle; try reflexivity; try assumption.
    cbn [mant expo] in Hle.
    assert (S1 : Zpos m1 * 2 ^ (e1 - es - e1') * 2 ^ (e1' - E)
                 = Zpos m1 * 2 ^ (e1 - (es + E))).
    { rewrite <- Z.mul_assoc, <- pow2_split by (unfold E; lia).
      f_equal; f_equal; lia. }
    assert (S2 : Zpos m2 * 2 ^ (e2 - es - e2') * 2 ^ (e2' - E)
                 = Zpos m2 * 2 ^ (e2 - (es + E))).
    { rewrite <- Z.mul_assoc, <- pow2_split by (unfold E; lia).
      f_equal; f_equal; lia. }
    pose proof (pow2_pos (e1 - (es + E)) ltac:(lia)) as Q1.
    pose proof (pow2_pos (e2 - (es + E)) ltac:(lia)) as Q2.
    rewrite F1, F2.
    destruct s1, s2.
    + (* both negative *)
      apply (aux_mono q2 e2' l2 (Zpos m2 * 2 ^ (e2 - es - e2')) (Zpos ms)
                      q1 e1' l1 (Zpos m1 * 2 ^ (e1 - es - e1')) (Zpos ms) E);
        try assumption; try lia; try (unfold E; lia).
      rewrite S1, S2. nia.
    + apply fle_nonpos_nonneg.
      * apply (aux_sign q1 e1' l1 _ _ (Pos2Z.is_pos ms) I1 P1).
      * apply (aux_sign q2 e2' l2 _ _ (Pos2Z.is_pos ms) I2 P2).
    + exfalso. nia.
    + apply (aux_mono q1 e1' l1 (Zpos m1 * 2 ^ (e1 - es - e1')) (Zpos ms)
                      q2 e2' l2 (Zpos m2 * 2 ^ (e2 - es - e2')) (Zpos ms) E);
        try assumption; try lia; try (unfold E; lia).
      rewrite S1, S2. nia.
Qed.

End Division.

Section Doubles.

Local Abbreviation fexp := (SpecFloat.fexp B64.prec B64.emax).
Local Abbreviation aux := (binary_round_aux B64.prec B64.emax).

Lemma mul_valid (x y : spec_float) :
  valid x -> valid y -> valid (B64.mul x y).
Proof.
  intros Hx Hy.
  destruct x as [sx | sx | | sx mx ex], y as [sy | sy | | sy my ey];
    try reflexivity.
  unfold B64.mul, SFmul.
  apply valid_finite_iff in Hx as [Hex [Hmx Hnx]].
  apply valid_finite_iff in Hy as [Hey [Hmy Hny]].
  apply (aux_valid _ _ _ _ (Zpos (mx * my)) 1 Z.lt_0_1
           (inbetween_exact _ (Pos2Z.is_nonneg _))).
  destruct (Z_le_gt_dec (ex + ey) (-1074)) as [Hs | Hb].
  - pose proof (fexp_ge (Zdigits2 (Zpos (mx * my)) + (ex + ey))). lia.
  - assert (Hm : 4503599627370496 <= Zpos (mx * my)).
    { rewrite Pos2Z.inj_mul.
      destruct (Z_le_gt_dec ex (-1074)) as [H1 | H1].
      - assert (4503599627370496 <= Zpos my) by (apply Hny; lia). nia.
      - assert (4503599627370496 <= Zpos mx) by (apply Hnx; lia). nia. }
    assert (53 <= Zdigits2 (Zpos (mx * my))).
    { apply Zdigits2_ge; [| lia].
      change (2 ^ (53 - 1)) with 4503599627370496. exact Hm. }
    rewrite fexp_eq. lia.
Qed.

Lemma add_valid (x y : spec_float) :
  valid x -> valid y -> valid (B64.add x y).
Proof.
  intros Hx Hy.
  destruct x as [sx | sx | | sx mx ex], y as [sy | sy | | sy my ey];
    try reflexivity; try exact Hx; try exact Hy;
    try (destruct sx, sy; reflexivity).
  apply binary_normalize_valid.
Qed.

Lemma sub_valid (x y : spec_float) :
  valid x -> valid y -> valid (B64.sub x y).
Proof.
  intros Hx Hy.
  destruct x as [sx | sx | | sx mx ex], y as [sy | sy | | sy my ey];
    try reflexivity; try exact Hx; try exact Hy;
    try (destruct sx, sy; reflexivity).
  apply binary_normalize_valid.
Qed.

Lemma div_valid (w : spec_float) (ms : positive) (es : Z) :
  valid (SFdiv B64.prec B64.emax w (S754_finite false ms es)).
Proof.
  destruct w as [s | s | | s m e]; try reflexivity.
  destruct (div_finite_form s m e ms es) as [q [e' [l [-> [_ [I [P _]]]]]]].
  apply (aux_valid _ _ _ _ _ _ (Pos2Z.is_pos ms) I P).
Qed.

(** Between doubles the order of the values is [<=]. *)
Lemma fle_leb (x y : spec_float) :
  valid x -> valid y -> fle x y -> SFleb x y = true.
Proof.
  intros Hx Hy Hle.
  destruct x as [sx | [|] | | sx mx ex], y as [sy | [|] | | sy my ey];
    try contradiction; try reflexivity.
  - (* zero, finite *)
    destruct sy; [| reflexivity]. exfalso.
    unfold fle in Hle; cbn [mant expo] in Hle.
    pose proof (pow2_pos (ey - Z.min 0 ey) ltac:(lia)). nia.
  - (* finite, zero *)
    destruct sx; [reflexivity |]. exfalso.
    unfold fle in Hle; cbn [mant expo] in Hle.
    pose proof (pow2_pos (ex - Z.min ex 0) ltac:(lia)). nia.
  - (* finite, finite *)
    apply valid_finite_iff in Hx as [Hex [Hmx Hnx]].
    apply valid_finite_iff in Hy as [Hey [Hmy Hny]].
    apply (proj1 (fle_scale (S754_finite sx mx ex) (S754_finite sy my ey)
                     (Z.min ex ey) eq_refl eq_refl
                     (Z.le_min_l ex ey) (Z.le_min_r ex ey))) in Hle.
    cbn [mant expo] in Hle.
    unfold SFleb, SFcompare.
    destruct sx, sy; try reflexivity.
    + destruct (Z.compare_spec ex ey) as [He | Hl | Hg]; try reflexivity.
      * subst ey. rewrite Z.min_id, Z.sub_diag, Z.pow_0_r in Hle.
        rewrite Pos.compare_cont_spec; cbn [Pos.switch_Eq].
        destruct (Pos.compare_spec mx my) as [H | H | H]; try reflexivity.
        exfalso; lia.
      * exfalso. rewrite Z.min_l in Hle by lia.
        rewrite Z.sub_diag, Z.pow_0_r in Hle.
        pose proof (pow2_ge_2 (ey - ex) ltac:(lia)).
        assert (4503599627370496 <= Zpos my) by (apply Hny; lia). nia.
    + exfalso.
      pose proof (pow2_pos (ex - Z.min ex ey) ltac:(lia)).
      pose proof (pow2_pos (ey - Z.min ex ey) ltac:(lia)). nia.
    + destruct (Z.compare_spec ex ey) as [He | Hl | Hg]; try reflexivity.
      * subst ey. rewrite Z.min_id, Z.sub_diag, Z.pow_0_r in Hle.
        rewrite Pos.compare_cont_spec; cbn [Pos.switch_Eq].
        destruct (Pos.compare_spec mx my) as [H | H | H]; try reflexivity.
        exfalso; lia.
      * exfalso. rewrite Z.min_r in Hle by lia.
        rewrite Z.sub_diag, Z.pow_0_r in Hle.
        pose proof (pow2_ge_2 (ex - ey) ltac:(lia)).
        assert (4503599627370496 <= Zpos mx) by (apply Hnx; lia). nia.
Qed.

Lemma leb_not_ltb (x y : spec_float) :
  SFleb x y = true -> SFltb y x = false.
Proof.
  unfold SFleb, SFltb, SFcompare.
  destruct x as [sx | sx | | sx mx ex], y as [sy | sy | | sy my ey];
    try destruct sx; try destruct sy; try reflexivity; try discriminate;
    rewrite (Z.compare_antisym ex ey);
    destruct (ex ?= ey); cbn [CompOpp]; try reflexivity; try discriminate;
    replace (Pos.compare_cont Eq my mx)
      with (CompOpp (Pos.compare_cont Eq mx my))
      by apply (Pos.compare_cont_antisym mx my Eq);
    destruct (Pos.compare_cont Eq mx my); cbn [CompOpp];
    try reflexivity; discriminate.
Qed.

Lemma aux_false_shape (m e : Z) (l : location) :
  match aux false m e l with
  | S754_zero true | S754_infinity true | S754_finite true _ _ => False
  | _ => True
  end.
Proof.
  unfold binary_round_aux.
  destruct (shr_fexp B64.prec B64.emax m e l) as [mrs' e'].
  destruct (shr_fexp B64.prec B64.emax _ e' loc_Exact) as [mrs'' e''].
  destruct (shr_m mrs''); try exact I.
  destruct (e'' <=? B64.emax - B64.prec); exact I.
Qed.

Lemma round_nonneg (m : positive) (e : Z) :
  exists n, B64.round (S754_finite false m e) = Ok n /\ 0 <= n.
Proof.
  unfold B64.round. destruct e as [| p | p].
  - eexists; split; [reflexivity | lia].
  - eexists; split; [reflexivity |].
    apply Z.mul_nonneg_nonneg; [lia | apply Z.pow_nonneg; lia].
  - eexists; split; [reflexivity |].
    pose proof (pow2_pos (Zpos p) ltac:(lia)) as HP.
    pose proof (Z.div_pos (Zpos m) (2 ^ Zpos p) ltac:(lia) HP) as Hq.
    cbv zeta.
    destruct (2 * (Zpos m mod 2 ^ Zpos p) ?= 2 ^ Zpos p);
      try destruct (Z.even (Zpos m / 2 ^ Zpos p)); lia.
Qed.

(** [round(sqrt(x))] returns only for a number that is not below zero,
    and what it returns is not negative. *)
Lemma round_sqrt_ok (v : spec_float) (n : Z) :
  B64.round_sqrt v = Ok n -> B64.is_finite v = true /\ 0 <= n.
Proof.
  unfold B64.round_sqrt, B64.sqrt.
  destruct v as [s | s | | s m e].
  - destruct s; cbn; intros H; (split; [reflexivity | injection H; lia]).
  - destruct s; cbn; discriminate.
  - cbn; discriminate.
  - destruct s; [cbn; discriminate |].
    change (B64.ltb (S754_finite false m e) B64.zero) with false.
    cbn [bind]. unfold SFsqrt.
    destruct (SFsqrt_core_binary B64.prec B64.emax (Zpos m) e) as [[mz ez] lz].
    pose proof (aux_false_shape mz ez lz) as Hs.
    destruct (aux false mz ez lz) as [s' | s' | | s' m' e'] eqn:Ea;
      try discriminate.
    + destruct s'; cbn; intros H; (split; [reflexivity | injection H; lia]).
    + destruct s'; [contradiction |].
      destruct (round_nonneg m' e') as [n' [En Hn]].
      rewrite En. intros H. split; [reflexivity | injection H; lia].
Qed.

Lemma sub_finite_inv (a b : spec_float) :
  B64.is_finite (B64.sub a b) = true ->
  B64.is_finite a = true /\ B64.is_finite b = true.
Proof.
  destruct a as [sa | [|] | | sa ma ea], b as [sb | [|] | | sb mb eb];
    cbn; try discriminate; intros _; split; reflexivity.
Qed.

Lemma square_finite_inv (a a2 : spec_float) :
  B64.square a = Ok a2 ->
  B64.is_finite a2 = true ->
  B64.is_finite a = true.
Proof.
  unfold B64.square.
  destruct a as [sa | sa | | sa ma ea]; try reflexivity;
    cbn; intros [= <-]; discriminate.
Qed.

Lemma of_int_positive (n : Z) (s : spec_float) :
  0 < n ->
  B64.of_int n = Ok s ->
  B64.is_zero s = false ->
  exists ms es, s = S754_finite false ms es.
Proof.
  intros Hn Hs Hz. unfold B64.of_int in Hs.
  destruct n as [| p | p]; try lia. cbn [binary_normalize] in Hs.
  destruct (binary_round_sign p 0) as [Hnn _].
  destruct (binary_round B64.prec B64.emax false p 0) as [s' | s' | | s' m' e'].
  - injection Hs as <-. discriminate Hz.
  - discriminate Hs.
  - contradiction.
  - injection Hs as <-. destruct s'; [contradiction |]. now exists m', e'.
Qed.

End Doubles.

Section EngineOrder.

Lemma add_to_history_valid (d : B64.float) (p : Z) (avg sq avg' sq' : B64.float) :
  valid d -> valid avg ->
  add_to_history B64.arith d p avg sq = Ok (avg', sq') ->
  valid avg'.
Proof.
  intros Hd Ha. unfold add_to_history.
  change (of_int B64.arith) with B64.of_int.
  destruct (B64.of_int p) as [x |] eqn:Ex; cbn [bind]; [| discriminate].
  destruct (B64.of_int 1) as [one |] eqn:E1; cbn [bind]; [| discriminate].
  destruct (B64.of_int (p ^ 2)) as [x2 |] eqn:E2; cbn [bind]; [| discriminate].
  intros [= <- _].
  apply add_valid.
  - now apply mul_valid.
  - apply mul_valid; [apply (of_int_valid _ _ Ex) |].
    apply sub_valid; [apply (of_int_valid _ _ E1) | exact Hd].
Qed.

Lemma history_loop_valid (d : B64.float) (points : list Z) :
  valid d ->
  forall avg sq avg' sq',
    valid avg ->
    history_loop B64.arith d points avg sq = Ok (avg', sq') ->
    valid avg'.
Proof.
  intros Hd. induction points as [| p rest IH]; intros avg sq avg' sq' Ha.
  - intros [= <- _]. exact Ha.
  - cbn [history_loop].
    destruct (add_to_history B64.arith d p avg sq) as [[a s] |] eqn:E;
      cbn [bind]; [| discriminate].
    apply IH. exact (add_to_history_valid _ _ _ _ _ _ Hd Ha E).
Qed.

(** With a decay that is a double, the decayed mean is a double. *)
Lemma history_state_valid (data : list Z) (d avg sq : B64.float) :
  valid d ->
  history_state B64.arith data d = Ok (avg, sq) ->
  valid avg.
Proof.
  intros Hd. unfold history_state.
  destruct data as [| d0 rest]; [discriminate |].
  change (of_int B64.arith) with B64.of_int.
  destruct (B64.of_int d0) as [a |] eqn:Ea; cbn [bind]; [| discriminate].
  destruct (B64.of_int (d0 ^ 2)) as [s |] eqn:Es; cbn [bind]; [| discriminate].
  apply history_loop_valid; [exact Hd | apply (of_int_valid _ _ Ea)].
Qed.

(** The score of a window of one point, step by step. *)
Lemma rolling_zscore_single (data : list Z) (v : Z) (d z : B64.float) :
  rolling_zscore_float data [v] d = Ok z ->
  exists avg sq avg2 std x,
    history_state B64.arith data d = Ok (avg, sq)
    /\ B64.square avg = Ok avg2
    /\ B64.round_sqrt (B64.sub sq avg2) = Ok std
    /\ B64.of_int v = Ok x
    /\ ((std = 0
         /\ z = SFdiv B64.prec B64.emax
                  (B64.add (S754_zero false) (B64.sub x avg))
                  (S754_finite false 4503599627370496 (-52)))
        \/ (std <> 0
            /\ exists s,
                 B64.of_int std = Ok s
                 /\ B64.is_zero s = false
                 /\ z = SFdiv B64.prec B64.emax
                          (B64.add (S754_zero false)
                                   (SFdiv B64.prec B64.emax (B64.sub x avg) s))
                          (S754_finite false 4503599627370496 (-52)))).
Proof.
  unfold rolling_zscore_float, rolling_zscore.
  destruct (history_state B64.arith data d) as [[avg sq] |]; cbn [bind];
    [| discriminate].
  unfold observed_loop, calculate_zscore.
  change (fsquare B64.arith) with B64.square.
  change (round_sqrt B64.arith) with B64.round_sqrt.
  change (of_int B64.arith) with B64.of_int.
  change (fsub B64.arith) with B64.sub.
  change (fdiv B64.arith) with B64.div.
  destruct (B64.square avg) as [avg2 |] eqn:Esq; cbn [bind]; [| discriminate].
  destruct (B64.round_sqrt (B64.sub sq avg2)) as [std |] eqn:Estd;
    cbn [bind]; [| discriminate].
  destruct (B64.of_int v) as [x |] eqn:Ex; cbn [bind]; [| discriminate].
  assert (Hmean : forall w,
             mean_of_trends B64.arith [w]
             = Ok (SFdiv B64.prec B64.emax (B64.add (S754_zero false) w)
                         (S754_finite false 4503599627370496 (-52)))).
  { intros w. reflexivity. }
  destruct (Z.eqb_spec std 0) as [H0 | Hn0].
  - cbn [bind].
    destruct (add_to_history B64.arith d v avg sq) as [[a' s'] |];
      cbn [bind]; [| discriminate].
    rewrite Hmean. intros [= <-].
    exists avg, sq, avg2, std, x.
    split; [reflexivity |]. split; [exact Esq |].
    split; [exact Estd |]. split; [reflexivity |].
    left. split; [exact H0 | reflexivity].
  - destruct (B64.of_int std) as [s |] eqn:Es; cbn [bind]; [| discriminate].
    unfold B64.div.
    destruct (B64.is_zero s) eqn:Ez; cbn [bind]; [discriminate |].
    destruct (add_to_history B64.arith d v avg sq) as [[a' s'] |];
      cbn [bind]; [| discriminate].
    rewrite Hmean. intros [= <-].
    exists avg, sq, avg2, std, x.
    split; [reflexivity |]. split; [exact Esq |].
    split; [exact Estd |]. split; [reflexivity |].
    right. split; [exact Hn0 |]. exists s.
    split; [exact Es |]. split; [exact Ez | reflexivity].
Qed.

(** With the history and a decay that is a double fixed, the score of a
    window of one point does not decrease when the observed value
    grows. *)
Lemma rolling_zscore_monotone (data : list Z) (d : B64.float) (v1 v2 : Z)
      (z1 z2 : B64.float) :
  valid d ->
  v1 <= v2 ->
  rolling_zscore_float data [v1] d = Ok z1 ->
  rolling_zscore_float data [v2] d = Ok z2 ->
  SFleb z1 z2 = true.
Proof.
  intros Hd Hv R1 R2.
  destruct (rolling_zscore_single _ _ _ _ R1)
    as [avg [sq [avg2 [std [x1 [Hst [Hsq [Hstd [Hx1 Hz1]]]]]]]]].
  destruct (rolling_zscore_single _ _ _ _ R2)
    as [avg' [sq' [avg2' [std' [x2 [Hst' [Hsq' [Hstd' [Hx2 Hz2]]]]]]]]].
  rewrite Hst in Hst'. injection Hst' as <- <-.
  rewrite Hsq in Hsq'. injection Hsq' as <-.
  rewrite Hstd in Hstd'. injection Hstd' as <-.
  pose proof (history_state_valid _ _ _ _ Hd Hst) as Hva.
  destruct (round_sqrt_ok _ _ Hstd) as [Hvar Hstd0].
  destruct (sub_finite_inv _ _ Hvar) as [_ Hf2].
  pose proof (square_finite_inv _ _ Hsq Hf2) as Hfa.
  destruct (of_int_valid _ _ Hx1) as [_ Hf1].
  destruct (of_int_valid _ _ Hx2) as [_ Hf2'].
  pose proof (of_int_mono _ _ _ _ Hv Hx1 Hx2) as Hx.
  pose proof (sub_mono x1 x2 avg Hf1 Hf2' Hfa Hva Hx) as Hy.
  destruct Hz1 as [[H0 ->] | [Hn0 [s [Hs [Hsz ->]]]]];
    destruct Hz2 as [[H0' ->] | [Hn0' [s' [Hs' [Hsz' ->]]]]]; try lia.
  - apply fle_leb; try apply div_valid.
    apply div_mono, add_zero_mono, Hy.
  - rewrite Hs in Hs'. injection Hs' as <-.
    destruct (of_int_positive std s ltac:(lia) Hs Hsz) as [ms [es ->]].
    apply fle_leb; try apply div_valid.
    apply div_mono, add_zero_mono, div_mono, Hy.
Qed.

End EngineOrder.

(** C7 (amended): on floats, with the history and a decay that is a double
    fixed, the score of a window of one point does not decrease when the
    observed value grows: whenever the engine returns a score for [v1] and
    for [v2] with [v1 < v2], both scores are numbers and the score for
    [v1] is less than or equal to the score for [v2], in the fallback
    branch and in the division branch alike. *)
Theorem zscore_nondecreasing
  (history : list Z) (d : B64.float) (v1 v2 : Z) (z1 z2 : B64.float) :
  valid d ->
  v1 < v2 ->
  rolling_zscore_float history [v1] d = Ok z1 ->
  rolling_zscore_float history [v2] d = Ok z2 ->
  SFleb z1 z2 = true
  /\ B64.ltb z2 z1 = false
  /\ B64.is_nan z1 = false
  /\ B64.is_nan z2 = false.
Proof.
  intros Hd Hv R1 R2.
  assert (Hle : SFleb z1 z2 = true)
    by (apply (rolling_zscore_monotone history d v1 v2); try assumption; lia).
  split; [exact Hle |]. split; [exact (leb_not_ltb _ _ Hle) |].
  destruct z1, z2; try discriminate Hle; split; reflexivity.
Qed.

Lemma zscore_nondecreasing_witness :
  SFleb (S754_finite true 5764607523034240 (-56))
        (S754_finite false 7836263351624663 (-49)) = true
  /\ B64.ltb (S754_finite false 7836263351624663 (-49))
             (S754_finite true 5764607523034240 (-56)) = false
  /\ B64.is_nan (S754_finite true 5764607523034240 (-56)) = false
  /\ B64.is_nan (S754_finite false 7836263351624663 (-49)) = false.
Proof.
  refine (zscore_nondecreasing [5; 7; 6] B64.f0_1 6 20 _ _ _ _ _ _).
  - reflexivity.
  - lia.
  - vm_compute; reflexivity.
  - vm_compute; reflexivity.
Defined.

(** C7 (as stated) fails on floats: the observed values 2^53 and 2^53 + 1
    convert to the same double, so against the history [[0]] both get the
    score 9007199254740992.0. *)
Lemma float_zscore_not_strictly_increasing :
  9007199254740992 < 9007199254740993
  /\ rolling_zscore_float [0] [9007199254740992] B64.f0_1
     = Ok (S754_finite false 4503599627370496 1)
  /\ rolling_zscore_float [0] [9007199254740993] B64.f0_1
     = Ok (S754_finite false 4503599627370496 1)
  /\ B64.ltb (S754_finite false 4503599627370496 1)
             (S754_finite false 4503599627370496 1) = false.
Proof. repeat split; vm_compute; reflexivity. Qed.

(** ** Constant histories *)

Section ConstantHistory.

(** A number minus itself is [+0.0]. *)
Lemma sub_diag (y : B64.float) :
  B64.is_finite y = true -> B64.sub y y = B64.zero.
Proof.
  destruct y as [s | s | | s m e]; try discriminate; intros _.
  - destruct s; reflexivity.
  - unfold B64.sub, SFsub. rewrite Z.sub_diag. reflexivity.
Qed.

(** A history whose points all equal [c], absorbed by statistics that one
    update with [c] leaves unchanged, leaves them unchanged. *)
Lemma constant_history_loop (d : B64.float) (c : Z) (x y : B64.float)
      (points : list Z) :
  add_to_history B64.arith d c x y = Ok (x, y) ->
  Forall (fun p => p = c) points ->
  history_loop B64.arith d points x y = Ok (x, y).
Proof.
  intros Hstep; induction 1 as [| p rest Hp _ IH]; [reflexivity |].
  subst p.
  change (history_loop B64.arith d (c :: rest) x y)
    with ('(a, s) <- add_to_history B64.arith d c x y ;;
          history_loop B64.arith d rest a s).
  rewrite Hstep; exact IH.
Qed.

Lemma constant_history_engine (d : B64.float) (c : Z) (x y : B64.float)
      (history : list Z) :
  history <> [] ->
  Forall (fun p => p = c) history ->
  B64.of_int c = Ok x ->
  B64.of_int (c ^ 2) = Ok y ->
  B64.square x = Ok y ->
  add_to_history B64.arith d c x y = Ok (x, y) ->
  history_state B64.arith history d = Ok (x, y)
  /\ (avg2 <- B64.square x ;; B64.round_sqrt (B64.sub y avg2)) = Ok 0
  /\ rolling_zscore_float history [c] d = Ok B64.zero.
Proof.
  intros Hne Hall Hx Hy Hsq Hstep.
  destruct history as [| d0 rest]; [contradiction |].
  inversion Hall as [| p l Hd0 Hrest]; subst p l d0.
  assert (Hst : history_state B64.arith (c :: rest) d = Ok (x, y)).
  { unfold history_state.
    change (of_int B64.arith) with B64.of_int. rewrite Hx, Hy; cbn [bind].
    exact (constant_history_loop d c x y rest Hstep Hrest). }
  assert (Hstd : B64.round_sqrt (B64.sub y y) = Ok 0).
  { rewrite (sub_diag y (proj2 (of_int_valid _ _ Hy))). reflexivity. }
  split; [exact Hst | split].
  - rewrite Hsq; cbn [bind]. exact Hstd.
  - unfold rolling_zscore_float, rolling_zscore. rewrite Hst; cbn [bind].
    unfold observed_loop, calculate_zscore.
    change (fsquare B64.arith) with B64.square.
    change (round_sqrt B64.arith) with B64.round_sqrt.
    change (of_int B64.arith) with B64.of_int.
    change (fsub B64.arith) with B64.sub.
    rewrite Hsq; cbn [bind]. rewrite Hstd; cbn [bind].
    rewrite Hx; cbn [bind]. rewrite Z.eqb_refl, Hstep; cbn [bind].
    rewrite (sub_diag x (proj2 (of_int_valid _ _ Hx))). reflexivity.
Qed.

End ConstantHistory.

(** C8 (amended): on floats, let every point of a non-empty history equal
    [c], and let rounding spare the seeded statistics: one update of
    [float(c)] and [float(c ** 2)] with the point [c] returns them
    unchanged, and [float(c) ** 2] is [float(c ** 2)].  Then after the
    history the decayed mean is [float(c)] and the decayed mean of squares
    [float(c ** 2)]; the standard deviation seen by an observed point
    rounds to 0, and the observed value [c] gets the final score [0.0]. *)
Theorem constant_history_when_update_is_exact
  (d : B64.float) (c : Z) (x y : B64.float) (history : list Z) :
  history <> [] ->
  Forall (fun p => p = c) history ->
  B64.of_int c = Ok x ->
  B64.of_int (c ^ 2) = Ok y ->
  B64.square x = Ok y ->
  add_to_history B64.arith d c x y = Ok (x, y) ->
  history_state B64.arith history d = Ok (x, y)
  /\ (avg2 <- B64.square x ;; B64.round_sqrt (B64.sub y avg2)) = Ok 0
  /\ rolling_zscore_float history [c] d = Ok B64.zero.
Proof. apply constant_history_engine. Qed.

Lemma constant_history_when_update_is_exact_witness :
  history_state B64.arith [12; 12; 12; 12] B64.f0_1
  = Ok (S754_finite false 6755399441055744 (-49),
        S754_finite false 5066549580791808 (-45))
  /\ (avg2 <- B64.square (S754_finite false 6755399441055744 (-49)) ;;
      B64.round_sqrt (B64.sub (S754_finite false 5066549580791808 (-45)) avg2))
     = Ok 0
  /\ rolling_zscore_float [12; 12; 12; 12] [12] B64.f0_1 = Ok B64.zero.
Proof.
  refine (constant_history_when_update_is_exact
            B64.f0_1 12
            (S754_finite false 6755399441055744 (-49))
            (S754_finite false 5066549580791808 (-45))
            [12; 12; 12; 12] _ _ _ _ _ _).
  - discriminate.
  - repeat constructor.
  - vm_compute; reflexivity.
  - vm_compute; reflexivity.
  - vm_compute; reflexivity.
  - vm_compute; reflexivity.
Defined.

(** With the default decay [0.1] rounding spares the statistics of every
    constant from 0 to 12; 13 is the first that it moves. *)
Lemma constant_history_default_decay (c : Z) (history : list Z) :
  0 <= c <= 12 ->
  history <> [] ->
  Forall (fun p => p = c) history ->
  exists x y,
    B64.of_int c = Ok x
    /\ B64.of_int (c ^ 2) = Ok y
    /\ history_state B64.arith history B64.f0_1 = Ok (x, y)
    /\ rolling_zscore_float history [c] B64.f0_1 = Ok B64.zero.
Proof.
  intros Hc Hne Hall.
  assert (Hcases : c = 0 \/ c = 1 \/ c = 2 \/ c = 3 \/ c = 4 \/ c = 5 \/ c = 6
                   \/ c = 7 \/ c = 8 \/ c = 9 \/ c = 10 \/ c = 11 \/ c = 12)
    by lia.
  repeat (destruct Hcases as [-> | Hcases]); try subst c;
    match goal with
    | |- exists x y, B64.of_int ?c = _ /\ _ =>
        eassert (Ex : B64.of_int c = Ok _) by (vm_compute; reflexivity);
        eassert (Ey : B64.of_int (c ^ 2) = Ok _) by (vm_compute; reflexivity);
        match type of Ex with
        | _ = Ok ?x =>
            match type of Ey with
            | _ = Ok ?y =>
                assert (Hsq : B64.square x = Ok y)
                  by (vm_compute; reflexivity);
                assert (Hstep : add_to_history B64.arith B64.f0_1 c x y
                                = Ok (x, y))
                  by (vm_compute; reflexivity);
                destruct (constant_history_engine B64.f0_1 c x y history
                            Hne Hall Ex Ey Hsq Hstep) as [Hst [_ Hz]];
                exists x, y; split; [exact Ex |];
                split; [exact Ey |]; split; [exact Hst | exact Hz]
            end
        end
    end.
Qed.

(** C8 (as stated) fails on floats: with the constant history [[19; 19]]
    and decay 0.1 the decayed mean of squares is 361.00000000000006, not
    the double 361.0 of [19^2]. *)
Lemma float_constant_history_drifts :
  history_state B64.arith [19; 19] B64.f0_1
  = Ok (S754_finite false 5348024557502464 (-48),
        S754_finite false 6350779162034177 (-44))
  /\ B64.of_int (19 ^ 2) = Ok (S754_finite false 6350779162034176 (-44))
  /\ SFeqb (S754_finite false 6350779162034177 (-44))
           (S754_finite false 6350779162034176 (-44)) = false.
Proof. repeat split; vm_compute; reflexivity. Qed.

(** * Further properties of the program *)

(** ** The aggregated table *)

Section AggregatedTable.

(** Two strictly increasing lists of keys with the same elements are the
    same list. *)
Lemma sorted_keys_unique (l1 : list (Z * Z)) :
  forall l2,
    StronglySorted klt l1 ->
    StronglySorted klt l2 ->
    (forall k, In k l1 <-> In k l2) ->
    l1 = l2.
Proof.
  induction l1 as [| h1 t1 IH]; intros l2 H1 H2 Hin.
  - destruct l2 as [| h2 t2]; [reflexivity |].
    destruct (proj2 (Hin h2) (or_introl eq_refl)).
  - destruct l2 as [| h2 t2];
      [destruct (proj1 (Hin h1) (or_introl eq_refl)) |].
    inversion H1 as [| ? ? Hs1 Hall1]; subst.
    inversion H2 as [| ? ? Hs2 Hall2]; subst.
    rewrite Forall_forall in Hall1, Hall2.
    assert (Hh : h1 = h2).
    { destruct (proj1 (Hin h1) (or_introl eq_refl)) as [E | E1]; [now symmetry |].
      destruct (proj2 (Hin h2) (or_introl eq_refl)) as [E | E2]; [exact E |].
      exfalso. apply (klt_irrefl h1).
      apply (klt_trans h1 h2 h1); [now apply Hall1 | now apply Hall2]. }
    subst h2; f_equal. apply IH; try assumption.
    intros k; split; intros Hk.
    + destruct (proj1 (Hin k) (or_intror Hk)) as [E | E]; [| exact E].
      subst k. destruct (klt_irrefl h1 (Hall1 h1 Hk)).
    + destruct (proj2 (Hin k) (or_intror Hk)) as [E | E]; [| exact E].
      subst k. destruct (klt_irrefl h1 (Hall2 h1 Hk)).
Qed.

Lemma group_keys_perm (k1 k2 : list (Z * Z * option Z)) :
  Permutation k1 k2 -> group_keys k1 = group_keys k2.
Proof.
  intros Hp.
  destruct (group_keys_spec k1) as [Hs1 Hin1].
  destruct (group_keys_spec k2) as [Hs2 Hin2].
  apply sorted_keys_unique; try assumption.
  intros k; rewrite Hin1, Hin2; split; apply Permutation_in.
  - now apply Permutation_map.
  - now apply Permutation_map, Permutation_sym.
Qed.

Lemma groupby_count_perm (k1 k2 : list (Z * Z * option Z)) :
  Permutation k1 k2 -> groupby_count k1 = groupby_count k2.
Proof.
  intros Hp; unfold groupby_count.
  rewrite (group_keys_perm k1 k2 Hp).
  apply map_ext; intros k; f_equal.
  unfold group_count; f_equal. now apply filter_length_perm.
Qed.

Lemma series_min_perm (l1 l2 : list Z) :
  Permutation l1 l2 -> series_min l1 = series_min l2.
Proof.
  intros Hp.
  destruct (series_min l1) as [m1 |] eqn:E1, (series_min l2) as [m2 |] eqn:E2.
  - apply series_min_spec in E1 as [Hin1 Hle1].
    apply series_min_spec in E2 as [Hin2 Hle2].
    f_equal; apply Z.le_antisymm.
    + apply Hle1. eapply Permutation_in; [apply Permutation_sym, Hp | exact Hin2].
    + apply Hle2. eapply Permutation_in; [exact Hp | exact Hin1].
  - destruct l2; [| discriminate E2].
    apply Permutation_sym, Permutation_nil in Hp; subst l1; discriminate E1.
  - destruct l1; [| discriminate E1].
    apply Permutation_nil in Hp; subst l2; discriminate E2.
  - reflexivity.
Qed.

End AggregatedTable.

(** X1: the aggregation does not depend on the order of the rows of the
    input table. *)
Theorem load_data_row_order
  (self : trend) (events events' : list event) (now : Z) :
  Permutation events events' ->
  load_data self events now = load_data self events' now.
Proof.
  intros Hp; unfold load_data.
  assert (Hs : Permutation (sort_by_time events) (sort_by_time events')).
  { eapply perm_trans; [apply sort_by_time_perm |].
    eapply perm_trans; [exact Hp | apply Permutation_sym, sort_by_time_perm]. }
  rewrite (Permutation_length Hs).
  destruct ((int_days self =? 0) && negb (length (sort_by_time events') =? 0)%nat);
    [reflexivity |].
  set (f := fun e => (item_id e, bucket (int_days self) now e, user_id e)).
  assert (Hk : Permutation (map f (sort_by_time events))
                           (map f (sort_by_time events')))
    by now apply Permutation_map.
  rewrite (groupby_count_perm _ _ Hk).
  rewrite (series_min_perm _ _ (Permutation_map (fun r => snd (fst r)) Hk)).
  reflexivity.
Qed.

Lemma load_data_row_order_witness :
  load_data {| max_length := None; decay := B64.f0_1; int_days := 7;
               item_list := None; data := None |}
            [ev 1 7 0; ev 2 3 864000] 864000
  = load_data {| max_length := None; decay := B64.f0_1; int_days := 7;
                 item_list := None; data := None |}
              [ev 2 3 864000; ev 1 7 0] 864000.
Proof.
  apply (load_data_row_order _ [ev 1 7 0; ev 2 3 864000]
                             [ev 2 3 864000; ev 1 7 0] 864000).
  apply perm_swap.
Defined.

Section AggregatedRows.

Lemma length_filter_disjoint {A : Type} (p q : A -> bool) (l : list A) :
  (forall x, In x l -> p x = true -> q x = false) ->
  length (filter (fun x => p x || q x) l)
  = (length (filter p l) + length (filter q l))%nat.
Proof.
  induction l as [| a l IH]; intros Hd; simpl; [reflexivity |].
  assert (IH' := IH (fun x Hx => Hd x (or_intror Hx))).
  destruct (p a) eqn:Hp; simpl.
  - rewrite (Hd a (or_introl eq_refl) Hp); simpl. now rewrite IH'.
  - destruct (q a); simpl; rewrite IH'; lia.
Qed.

(** Over distinct keys, the group sizes add up to the number of rows whose
    key is listed and whose user is present. *)
Lemma group_counts_sum (keyed : list (Z * Z * option Z)) (keys : list (Z * Z)) :
  NoDup keys ->
  column_sum (map (group_count keyed) keys)
  = Z.of_nat (length (filter (fun r => existsb (fun k => in_group k r) keys)
                             keyed)).
Proof.
  induction 1 as [| k ks Hni Hnd IH]; simpl.
  - induction keyed as [| r l IHl]; simpl; [reflexivity | exact IHl].
  - rewrite IH. unfold group_count. rewrite <- Nat2Z.inj_add. f_equal.
    symmetry; apply length_filter_disjoint.
    intros r _ Hk. apply not_true_is_false; intros Hex.
    apply existsb_exists in Hex as [k' [Hk' Hg]].
    unfold in_group in Hk, Hg.
    apply andb_true_iff in Hk as [Hk _]; apply andb_true_iff in Hg as [Hg _].
    apply key_eqb_eq in Hk; apply key_eqb_eq in Hg.
    apply Hni; congruence.
Qed.

Lemma unique_spec (l : list Z) :
  NoDup (unique l) /\ forall x, In x (unique l) <-> In x l.
Proof.
  unfold unique.
  assert (G : forall l acc,
             NoDup acc ->
             NoDup (fold_left
                      (fun acc x => if existsb (Z.eqb x) acc then acc
                                    else acc ++ [x]) l acc)
             /\ forall x,
                  In x (fold_left
                          (fun acc x => if existsb (Z.eqb x) acc then acc
                                        else acc ++ [x]) l acc)
                  <-> In x acc \/ In x l).
  { induction l0 as [| y l0 IH]; intros acc Hacc; simpl.
    - split; [exact Hacc | tauto].
    - destruct (existsb (Z.eqb y) acc) eqn:E.
      + destruct (IH acc Hacc) as [Hnd Hin]; split; [exact Hnd |].
        intros x; rewrite Hin.
        apply existsb_exists in E as [y' [Hy' Heq]].
        apply Z.eqb_eq in Heq; subst y'.
        intuition congruence.
      + assert (Hacc' : NoDup (acc ++ [y])).
        { apply NoDup_app; [exact Hacc | repeat constructor; intros [] |].
          intros x Hx [-> | []].
          assert (existsb (Z.eqb x) acc = true)
            by (apply existsb_exists; exists x; split;
                [exact Hx | apply Z.eqb_refl]).
          congruence. }
        destruct (IH (acc ++ [y]) Hacc') as [Hnd Hin]; split; [exact Hnd |].
        intros x; rewrite Hin, in_app_iff; simpl; tauto. }
  destruct (G l [] (NoDup_nil _)) as [Hnd Hin].
  split; [exact Hnd |].
  intros x; rewrite Hin; simpl; tauto.
Qed.

End AggregatedRows.

(** The keys of the aggregated table. *)
Lemma load_data_row_keys
  (self self' : trend) (events : list event) (now : Z) (df : list group_row) :
  load_data self events now = Ok self' ->
  data self' = Some df ->
  StronglySorted klt (map row_key df)
  /\ NoDup (map row_key df)
  /\ forall it b,
       In (it, b) (map row_key df)
       <-> exists e, In e events
                     /\ item_id e = it
                     /\ bucket (int_days self) now e = b.
Proof.
  intros Hload Hdata.
  destruct (load_data_ok _ _ _ _ Hload) as [Hdf _].
  rewrite Hdf in Hdata; injection Hdata as <-.
  unfold row_key; rewrite groupby_count_keys.
  destruct (group_keys_spec
              (map (fun e => (item_id e, bucket (int_days self) now e, user_id e))
                   (sort_by_time events))) as [Hs Hin].
  split; [exact Hs |]. split; [now apply sorted_keys_NoDup |].
  intros it b; rewrite Hin, map_map; simpl; rewrite in_map_iff.
  split.
  - intros [e [[= <- <-] He]]. exists e; repeat split.
    eapply Permutation_in; [apply sort_by_time_perm | exact He].
  - intros [e [He [<- <-]]]. exists e; split; [reflexivity |].
    eapply Permutation_in; [apply Permutation_sym, sort_by_time_perm | exact He].
Qed.

(** X2: after [load_data] the rows of the aggregated table are strictly
    increasing in (item, bucket), so each pair occurs once, and the pairs
    are exactly those of the events of the log. *)
Theorem load_data_rows_sorted_and_complete
  (self self' : trend) (events : list event) (now : Z) (df : list group_row) :
  load_data self events now = Ok self' ->
  data self' = Some df ->
  StronglySorted klt (map row_key df)
  /\ NoDup (map row_key df)
  /\ forall it b,
       In (it, b) (map row_key df)
       <-> exists e, In e events
                     /\ item_id e = it
                     /\ bucket (int_days self) now e = b.
Proof. apply load_data_row_keys. Qed.

Lemma load_data_rows_sorted_and_complete_witness :
  StronglySorted klt
    (map row_key [{| g_item := 1; lag := -1; user_count := 1 |};
                  {| g_item := 1; lag := 0; user_count := 1 |}])
  /\ NoDup (map row_key [{| g_item := 1; lag := -1; user_count := 1 |};
                         {| g_item := 1; lag := 0; user_count := 1 |}])
  /\ forall it b,
       In (it, b) (map row_key [{| g_item := 1; lag := -1; user_count := 1 |};
                                {| g_item := 1; lag := 0; user_count := 1 |}])
       <-> exists e, In e [ev 1 7 0; ev 1 7 864000]
                     /\ item_id e = it
                     /\ bucket 7 864000 e = b.
Proof.
  refine (load_data_rows_sorted_and_complete
            {| max_length := None; decay := B64.f0_5; int_days := 7;
               item_list := None; data := None |}
            {| max_length := Some 1; decay := B64.f0_5; int_days := 7;
               item_list := Some [1];
               data := Some [{| g_item := 1; lag := -1; user_count := 1 |};
                             {| g_item := 1; lag := 0; user_count := 1 |}] |}
            [ev 1 7 0; ev 1 7 864000] 864000
            [{| g_item := 1; lag := -1; user_count := 1 |};
             {| g_item := 1; lag := 0; user_count := 1 |}] _ _);
    reflexivity.
Defined.

(** X3: no event is lost or counted twice: the counts of the aggregated
    table add up to the number of events whose user is present. *)
Theorem load_data_counts_add_up
  (self self' : trend) (events : list event) (now : Z) (df : list group_row) :
  load_data self events now = Ok self' ->
  data self' = Some df ->
  column_sum (map user_count df)
  = Z.of_nat (length (filter has_user events)).
Proof.
  intros Hload Hdata.
  destruct (load_data_ok _ _ _ _ Hload) as [Hdf _].
  rewrite Hdf in Hdata; injection Hdata as <-.
  set (keyed := map (fun e => (item_id e, bucket (int_days self) now e, user_id e))
                    (sort_by_time events)).
  unfold groupby_count; rewrite map_map; simpl.
  change (fun x : Z * Z => group_count keyed x) with (group_count keyed).
  destruct (group_keys_spec keyed) as [Hs Hin].
  rewrite (group_counts_sum keyed _ (sorted_keys_NoDup _ Hs)).
  f_equal.
  rewrite <- (filter_length_perm has_user _ _ (sort_by_time_perm events)).
  unfold keyed at 2; rewrite filter_map_length.
  f_equal; apply filter_ext_in; intros e He.
  unfold has_user; simpl.
  destruct (existsb _ (group_keys keyed)) eqn:E.
  - apply existsb_exists in E as [k [_ Hg]].
    unfold in_group in Hg; simpl in Hg.
    now apply andb_true_iff in Hg as [_ Hg].
  - destruct (user_id e) as [u |] eqn:Hu; [| reflexivity].
    exfalso.
    assert (Hk : In (item_id e, bucket (int_days self) now e) (group_keys keyed)).
    { apply Hin. unfold keyed; rewrite map_map; simpl.
      apply in_map_iff; exists e; split; [reflexivity | exact He]. }
    assert (Ht : existsb (fun k => in_group k (item_id e,
                                               bucket (int_days self) now e,
                                               user_id e))
                         (group_keys keyed) = true).
    { apply existsb_exists; eexists; split; [exact Hk |].
      unfold in_group; simpl. rewrite Hu, andb_true_r.
      now apply key_eqb_eq. }
    rewrite Hu in Ht; congruence.
Qed.

Lemma load_data_counts_add_up_witness :
  column_sum (map user_count [{| g_item := 1; lag := 0; user_count := 2 |}])
  = Z.of_nat (length (filter has_user [ev 1 7 0; ev 1 7 10])).
Proof.
  refine (load_data_counts_add_up
            {| max_length := None; decay := B64.f0_1; int_days := 7;
               item_list := None; data := None |}
            {| max_length := Some 0; decay := B64.f0_1; int_days := 7;
               item_list := Some [1];
               data := Some [{| g_item := 1; lag := 0; user_count := 2 |}] |}
            [ev 1 7 0; ev 1 7 10] 0
            [{| g_item := 1; lag := 0; user_count := 2 |}] _ _);
    reflexivity.
Defined.

(** X4: after [load_data] on a non-empty log, [max_length] is the depth of
    the oldest bucket: some row sits at bucket [- max_length] and no row is
    older, so no write position [max_length + lag] of [zvalue] is
    negative. *)
Theorem max_length_is_oldest_bucket
  (self self' : trend) (events : list event) (now : Z) (df : list group_row) :
  load_data self events now = Ok self' ->
  data self' = Some df ->
  events <> [] ->
  exists m,
    max_length self' = Some m
    /\ (forall r, In r df -> 0 <= m + lag r)
    /\ exists r, In r df /\ lag r = - m.
Proof.
  intros Hload Hdata Hne.
  destruct (load_data_row_keys _ _ _ _ _ Hload Hdata)
    as [_ [_ Hkeys]].
  destruct (load_data_ok _ _ _ _ Hload) as [Hdf [_ [Hm _]]].
  rewrite map_map in Hm; simpl in Hm.
  destruct (series_min (map (fun e => bucket (int_days self) now e)
                            (sort_by_time events))) as [mn |] eqn:Hmin.
  - apply series_min_spec in Hmin as [Hmn_in Hmn_le].
    exists (- mn); split; [exact Hm |]. split.
    + intros r Hr.
      assert (Hk : In (g_item r, lag r) (map row_key df))
        by (apply in_map_iff; exists r; split; [reflexivity | exact Hr]).
      apply Hkeys in Hk as [e [He [_ Hb]]].
      assert (mn <= lag r); [| lia].
      apply Hmn_le. rewrite <- Hb. apply in_map_iff; exists e; split;
        [reflexivity |].
      eapply Permutation_in; [apply Permutation_sym, sort_by_time_perm | exact He].
    + apply in_map_iff in Hmn_in as [e [Hb He]].
      assert (Hk : In (item_id e, mn) (map row_key df)).
      { apply Hkeys. exists e; repeat split; [| exact Hb].
        eapply Permutation_in; [apply sort_by_time_perm | exact He]. }
      apply in_map_iff in Hk as [r [Hkey Hr]].
      exists r; split; [exact Hr |].
      unfold row_key in Hkey; injection Hkey as _ Hl. lia.
  - exfalso. apply Hne.
    destruct (sort_by_time events) as [| e l] eqn:Hs; [| discriminate Hmin].
    pose proof (Permutation_length (sort_by_time_perm events)) as Hlen.
    rewrite Hs in Hlen. destruct events; [reflexivity | discriminate Hlen].
Qed.

Lemma max_length_is_oldest_bucket_witness :
  exists m,
    Some 1 = Some m
    /\ (forall r, In r [{| g_item := 1; lag := -1; user_count := 1 |};
                        {| g_item := 1; lag := 0; user_count := 1 |}] ->
                  0 <= m + lag r)
    /\ exists r, In r [{| g_item := 1; lag := -1; user_count := 1 |};
                       {| g_item := 1; lag := 0; user_count := 1 |}]
                 /\ lag r = - m.
Proof.
  refine (max_length_is_oldest_bucket
            {| max_length := None; decay := B64.f0_5; int_days := 7;
               item_list := None; data := None |}
            {| max_length := Some 1; decay := B64.f0_5; int_days := 7;
               item_list := Some [1];
               data := Some [{| g_item := 1; lag := -1; user_count := 1 |};
                             {| g_item := 1; lag := 0; user_count := 1 |}] |}
            [ev 1 7 0; ev 1 7 864000] 864000
            [{| g_item := 1; lag := -1; user_count := 1 |};
             {| g_item := 1; lag := 0; user_count := 1 |}] _ _ _);
    [reflexivity | reflexivity | discriminate].
Defined.

(** X5: after [load_data], [item_list] holds each item of the log once,
    and nothing else. *)
Theorem item_list_items_of_log
  (self self' : trend) (events : list event) (now : Z) (items : list Z) :
  load_data self events now = Ok self' ->
  item_list self' = Some items ->
  NoDup items
  /\ forall it, In it items <-> exists e, In e events /\ item_id e = it.
Proof.
  intros Hload Hitems.
  destruct (load_data_ok _ _ _ _ Hload) as [Hdf [Hil _]].
  destruct (load_data_row_keys _ _ _ _ _ Hload Hdf)
    as [_ [_ Hkeys]].
  rewrite Hil in Hitems; injection Hitems as <-.
  destruct (unique_spec
              (map g_item
                 (groupby_count
                    (map (fun e => (item_id e, bucket (int_days self) now e,
                                    user_id e))
                         (sort_by_time events))))) as [Hnd Hin].
  split; [exact Hnd |].
  intros it; rewrite Hin, in_map_iff; split.
  - intros [r [<- Hr]].
    assert (Hk : In (g_item r, lag r)
                    (map row_key
                       (groupby_count
                          (map (fun e => (item_id e,
                                          bucket (int_days self) now e,
                                          user_id e))
                               (sort_by_time events)))))
      by (apply in_map_iff; exists r; split; [reflexivity | exact Hr]).
    apply Hkeys in Hk as [e [He [Hi _]]]. now exists e.
  - intros [e [He <-]].
    assert (Hk : In (item_id e, bucket (int_days self) now e)
                    (map row_key
                       (groupby_count
                          (map (fun e => (item_id e,
                                          bucket (int_days self) now e,
                                          user_id e))
                               (sort_by_time events)))))
      by (apply Hkeys; exists e; repeat split; exact He).
    apply in_map_iff in Hk as [r [Hkey Hr]].
    exists r; split; [| exact Hr].
    unfold row_key in Hkey; now injection Hkey.
Qed.

Lemma item_list_items_of_log_witness :
  NoDup [1; 2]
  /\ forall it, In it [1; 2]
                <-> exists e, In e [ev 2 3 5; ev 1 7 0; ev 1 7 864000]
                              /\ item_id e = it.
Proof.
  refine (item_list_items_of_log
            {| max_length := None; decay := B64.f0_5; int_days := 7;
               item_list := None; data := None |}
            {| max_length := Some 1; decay := B64.f0_5; int_days := 7;
               item_list := Some [1; 2];
               data := Some [{| g_item := 1; lag := -1; user_count := 1 |};
                             {| g_item := 1; lag := 0; user_count := 1 |};
                             {| g_item := 2; lag := -1; user_count := 1 |}] |}
            [ev 2 3 5; ev 1 7 0; ev 1 7 864000] 864000 [1; 2] _ _);
    reflexivity.
Defined.

(** ** The dense vector, whatever the rows *)

Section VectorShape.

Lemma py_index_nonneg (len i : Z) (n : nat) :
  0 <= i -> py_index len i = Ok n -> n = Z.to_nat i /\ i < len.
Proof.
  intros Hi; unfold py_index.
  destruct (Z.leb_spec 0 i); [| lia].
  destruct (Z.ltb_spec i len); simpl.
  - intros [= <-]; split; [reflexivity | assumption].
  - destruct (Z.ltb_spec i 0); [lia |].
    rewrite andb_false_r; discriminate.
Qed.

Lemma py_index_beyond (len i : Z) :
  0 <= i -> len <= i -> py_index len i = Raise IndexError.
Proof.
  intros Hi Hlen; unfold py_index.
  destruct (Z.ltb_spec i len); [lia |]. rewrite andb_false_r.
  destruct (Z.ltb_spec i 0); [lia |]. now rewrite andb_false_r.
Qed.

(** The loop of writes never changes the length of the vector. *)
Lemma write_loop_length (value : list Z) (pairs : list (Z * nat)) :
  forall vec vec',
    write_loop vec value pairs = Ok vec' -> length vec' = length vec.
Proof.
  induction pairs as [| [i j] rest IH]; intros vec vec'; simpl.
  - now intros [= <-].
  - destruct (list_get value (Z.of_nat j)) as [v |]; simpl; [| discriminate].
    unfold list_set.
    destruct (py_index (Z.of_nat (length vec)) i) as [n |]; simpl;
      [| discriminate].
    intros H; apply IH in H. now rewrite update_length in H.
Qed.

(** Positions that no write addresses keep their content. *)
Lemma write_loop_frame (value : list Z) (pairs : list (Z * nat)) :
  forall vec vec',
    Forall (fun p => 0 <= fst p) pairs ->
    write_loop vec value pairs = Ok vec' ->
    forall q, (forall p, In p pairs -> Z.to_nat (fst p) <> q) ->
              nth_error vec' q = nth_error vec q.
Proof.
  induction pairs as [| [i j] rest IH]; intros vec vec' Hpos; simpl.
  - now intros [= <-].
  - inversion Hpos as [| p l Hi Hrest]; subst; simpl in Hi.
    destruct (list_get value (Z.of_nat j)) as [v |]; simpl; [| discriminate].
    unfold list_set.
    destruct (py_index (Z.of_nat (length vec)) i) as [n |] eqn:Hidx; simpl;
      [| discriminate].
    destruct (py_index_nonneg _ _ _ Hi Hidx) as [-> _].
    intros H q Hq.
    rewrite (IH _ _ Hrest H q (fun p Hp => Hq p (or_intror Hp))).
    apply nth_error_update_neq.
    intros ->; apply (Hq (i, j)); [now left | reflexivity].
Qed.

(** A write beyond the end makes the loop raise [IndexError]. *)
Lemma write_loop_beyond (value : list Z) (pairs : list (Z * nat)) :
  forall vec,
    Forall (fun p => 0 <= fst p /\ (snd p < length value)%nat) pairs ->
    Exists (fun p => Z.of_nat (length vec) <= fst p) pairs ->
    write_loop vec value pairs = Raise IndexError.
Proof.
  induction pairs as [| [i j] rest IH]; intros vec Hall Hex.
  - inversion Hex.
  - inversion Hall as [| p l [Hi Hj] Hrest]; subst; simpl in Hi, Hj.
    destruct (list_get_in_range value j Hj) as [v [Hget _]].
    simpl; rewrite Hget; simpl. unfold list_set.
    destruct (Z_lt_le_dec i (Z.of_nat (length vec))) as [Hin | Hout].
    + rewrite py_index_in_range by lia; simpl.
      apply IH; [exact Hrest |].
      inversion Hex as [p l Hp | p l Hp]; subst; simpl in *; [lia |].
      eapply Exists_impl; [| exact Hp].
      intros p; simpl. now rewrite update_length.
    + now rewrite py_index_beyond.
Qed.

Lemma zeros_nth_error (n : Z) (q : nat) :
  (q < Z.to_nat n)%nat -> nth_error (zeros n) q = Some 0.
Proof.
  intros H; unfold zeros.
  rewrite nth_error_repeat; [reflexivity | exact H].
Qed.

Lemma combine_seq_pairs {A : Type} (f : A -> Z) (rows : list A) (value : list Z)
      (p : Z * nat) :
  length value = length rows ->
  In p (combine (map f rows) (seq 0 (length value))) ->
  (exists r, In r rows /\ fst p = f r) /\ (snd p < length value)%nat.
Proof.
  intros Hlen Hp; destruct p as [i j]; simpl.
  pose proof (in_combine_l _ _ _ _ Hp) as Hi.
  pose proof (in_combine_r _ _ _ _ Hp) as Hj.
  apply in_map_iff in Hi as [r [<- Hr]]. apply in_seq in Hj.
  split; [exists r; split; [exact Hr | reflexivity] | lia].
Qed.

End VectorShape.

Lemma lag_vector_length (m : Z) (rows : list group_row) (vec : list Z) :
  lag_vector m rows = Ok vec -> length vec = Z.to_nat (m + 1).
Proof.
  unfold lag_vector; intros H.
  apply write_loop_length in H. now rewrite zeros_length in H.
Qed.

(** X6: whenever the dense vector of an item is built it has
    [max_length + 1] entries (none when that is negative), and, the write
    positions being non-negative, every entry that no row addresses is 0. *)
Theorem lag_vector_shape (m : Z) (rows : list group_row) (vec : list Z) :
  lag_vector m rows = Ok vec ->
  length vec = Z.to_nat (m + 1)
  /\ ((forall r, In r rows -> 0 <= m + lag r) ->
      forall q, (q < length vec)%nat ->
                (forall r, In r rows -> Z.to_nat (m + lag r) <> q) ->
                nth_error vec q = Some 0).
Proof.
  unfold lag_vector; intros H.
  pose proof (write_loop_length _ _ _ _ H) as Hlen.
  rewrite zeros_length in Hlen.
  split; [exact Hlen |].
  intros Hpos q Hq Hfree.
  assert (Hnn : Forall (fun p => 0 <= fst p)
                       (combine (map (fun r => m + lag r) rows)
                                (seq 0 (length (map user_count rows))))).
  { apply Forall_forall; intros p Hp.
    destruct (combine_seq_pairs (fun r => m + lag r) rows
                (map user_count rows) p (length_map _ _) Hp) as [[r [Hr ->]] _].
    now apply Hpos. }
  rewrite (write_loop_frame _ _ _ _ Hnn H q).
  - apply zeros_nth_error; lia.
  - intros p Hp.
    destruct (combine_seq_pairs (fun r => m + lag r) rows
                (map user_count rows) p (length_map _ _) Hp) as [[r [Hr ->]] _].
    now apply Hfree.
Qed.

Lemma lag_vector_shape_witness :
  length [0; 4; 0; 2] = Z.to_nat (3 + 1)
  /\ ((forall r, In r [{| g_item := 1; lag := -2; user_count := 4 |};
                       {| g_item := 1; lag := 0; user_count := 2 |}] ->
                 0 <= 3 + lag r) ->
      forall q, (q < length [0; 4; 0; 2])%nat ->
                (forall r, In r [{| g_item := 1; lag := -2; user_count := 4 |};
                                 {| g_item := 1; lag := 0; user_count := 2 |}] ->
                           Z.to_nat (3 + lag r) <> q) ->
                nth_error [0; 4; 0; 2] q = Some 0).
Proof.
  apply (lag_vector_shape 3 [{| g_item := 1; lag := -2; user_count := 4 |};
                             {| g_item := 1; lag := 0; user_count := 2 |}]
                          [0; 4; 0; 2]).
  reflexivity.
Defined.

(** X7: with non-negative write positions, building the dense vector of an
    item fails exactly when one of its rows lies in a future bucket
    ([lag > 0]), and the failure is an [IndexError]. *)
Theorem lag_vector_fails_on_future_bucket (m : Z) (rows : list group_row) :
  (forall r, In r rows -> 0 <= m + lag r) ->
  ((exists r, In r rows /\ 0 < lag r) ->
   lag_vector m rows = Raise IndexError)
  /\ ((forall r, In r rows -> lag r <= 0) ->
      exists vec, lag_vector m rows = Ok vec).
Proof.
  intros Hpos; split.
  - intros [r [Hr Hlag]]. unfold lag_vector.
    apply write_loop_beyond.
    + apply Forall_forall; intros p Hp.
      destruct (combine_seq_pairs (fun r => m + lag r) rows
                  (map user_count rows) p (length_map _ _) Hp)
        as [[r' [Hr' ->]] Hj].
      split; [now apply Hpos | exact Hj].
    + apply Exists_exists.
      destruct (In_combine_seq (fun r => m + lag r) user_count rows r Hr)
        as [k [Hk _]].
      exists (m + lag r, k); split; [exact Hk |].
      simpl; rewrite zeros_length. specialize (Hpos r Hr). lia.
  - intros Hpast. unfold lag_vector.
    destruct (write_loop_ok (map user_count rows)
                (combine (map (fun r => m + lag r) rows)
                         (seq 0 (length (map user_count rows))))
                (zeros (m + 1))) as [vec [Hw _]].
    + apply Forall_forall; intros p Hp.
      destruct (combine_seq_pairs (fun r => m + lag r) rows
                  (map user_count rows) p (length_map _ _) Hp)
        as [[r [Hr Hf]] Hj].
      split; [| exact Hj].
      rewrite Hf, zeros_length.
      specialize (Hpos r Hr); specialize (Hpast r Hr). lia.
    + now exists vec.
Qed.

Lemma lag_vector_fails_on_future_bucket_witness :
  ((exists r, In r [{| g_item := 1; lag := -1; user_count := 1 |};
                    {| g_item := 1; lag := 1; user_count := 1 |}]
              /\ 0 < lag r) ->
   lag_vector 1 [{| g_item := 1; lag := -1; user_count := 1 |};
                 {| g_item := 1; lag := 1; user_count := 1 |}]
   = Raise IndexError)
  /\ ((forall r, In r [{| g_item := 1; lag := -1; user_count := 1 |};
                       {| g_item := 1; lag := 1; user_count := 1 |}] ->
                 lag r <= 0) ->
      exists vec,
        lag_vector 1 [{| g_item := 1; lag := -1; user_count := 1 |};
                      {| g_item := 1; lag := 1; user_count := 1 |}] = Ok vec).
Proof.
  apply (lag_vector_fails_on_future_bucket
           1 [{| g_item := 1; lag := -1; user_count := 1 |};
              {| g_item := 1; lag := 1; user_count := 1 |}]).
  intros r [<- | [<- | []]]; simpl; lia.
Defined.

(** X8: for an item with other than one row whose dense vector is built,
    [zvalue] scores the entry of the current bucket, as a window of one
    point, against a history made of the [max_length] entries before it. *)
Theorem zvalue_history_and_window
  (self : trend) (df : list group_row) (it m : Z) (vec : list Z) :
  0 <= m ->
  length (filter_item df it) <> 1%nat ->
  lag_vector m (filter_item df it) = Ok vec ->
  zvalue self df it (Some m)
  = rolling_zscore_float (firstn (Z.to_nat m) vec) (skipn (Z.to_nat m) vec)
                         (decay self)
  /\ length (firstn (Z.to_nat m) vec) = Z.to_nat m
  /\ length (skipn (Z.to_nat m) vec) = 1%nat.
Proof.
  intros Hm Hne Hvec.
  pose proof (lag_vector_length m _ vec Hvec) as Hlen.
  assert (Hlen' : length vec = S (Z.to_nat m)) by (rewrite Hlen; lia).
  split; [| split].
  - unfold zvalue.
    destruct (Nat.eqb_spec (length (filter_item df it)) 1); [contradiction |].
    rewrite Hvec; simpl.
    unfold all_but_last, last_slice.
    rewrite removelast_firstn_len, Hlen'; simpl.
    now rewrite Nat.sub_0_r.
  - rewrite length_firstn; lia.
  - rewrite length_skipn; lia.
Qed.

Lemma zvalue_history_and_window_witness :
  zvalue {| max_length := Some 2; decay := B64.f0_5; int_days := 7;
            item_list := Some [1]; data := None |}
         [{| g_item := 1; lag := -2; user_count := 4 |};
          {| g_item := 1; lag := 0; user_count := 2 |}] 1 (Some 2)
  = rolling_zscore_float (firstn (Z.to_nat 2) [4; 0; 2])
                         (skipn (Z.to_nat 2) [4; 0; 2]) B64.f0_5
  /\ length (firstn (Z.to_nat 2) [4; 0; 2]) = Z.to_nat 2
  /\ length (skipn (Z.to_nat 2) [4; 0; 2]) = 1%nat.
Proof.
  refine (zvalue_history_and_window
            {| max_length := Some 2; decay := B64.f0_5; int_days := 7;
               item_list := Some [1]; data := None |}
            [{| g_item := 1; lag := -2; user_count := 4 |};
             {| g_item := 1; lag := 0; user_count := 2 |}] 1 2 [4; 0; 2] _ _ _).
  - lia.
  - discriminate.
  - reflexivity.
Defined.

(** ** The ranking table *)

Section RankingTable.

Lemma rank_lt_trans (a b c : Z * Z * Z) :
  rank_lt a b -> rank_lt b c -> rank_lt a c.
Proof. unfold rank_lt; lia. Qed.

Lemma rank_lt_asym (a b : Z * Z * Z) : rank_lt a b -> ~ rank_lt b a.
Proof. unfold rank_lt; lia. Qed.

Lemma rank_lt_total (a b c : Z * Z * Z) :
  ~ rank_lt a b -> ~ rank_lt b c -> ~ rank_lt a c.
Proof. unfold rank_lt; lia. Qed.

(** On floats other than NaN, [<] is the order of the ranks. *)
Lemma ltb_rank (x y : B64.float) :
  B64.is_nan x = false ->
  B64.is_nan y = false ->
  (B64.ltb x y = true <-> rank_lt (rank x) (rank y)).
Proof.
  unfold B64.ltb, SFltb, rank_lt.
  destruct x as [sx | sx | | sx mx ex], y as [sy | sy | | sy my ey];
    try discriminate; intros _ _;
    try destruct sx; try destruct sy; simpl;
    try (split; [discriminate | lia]);
    try (split; [intros _; lia | reflexivity]).
  - destruct (Z.compare_spec ex ey) as [-> | Hlt | Hgt].
    + rewrite Pos.compare_cont_spec; simpl.
      destruct (Pos.compare_spec mx my) as [-> | Hm | Hm]; simpl;
        (split; [try discriminate; intros _ | try reflexivity; intros H]); lia.
    + split; [discriminate | lia].
    + split; [intros _; lia | reflexivity].
  - destruct (Z.compare_spec ex ey) as [-> | Hlt | Hgt].
    + rewrite Pos.compare_cont_spec; simpl.
      destruct (Pos.compare_spec mx my) as [-> | Hm | Hm]; simpl;
        (split; [try discriminate; intros _ | try reflexivity; intros H]); lia.
    + split; [intros _; lia | reflexivity].
    + split; [discriminate | lia].
Qed.

Lemma ltb_nan_r (x y : B64.float) : B64.is_nan y = true -> B64.ltb x y = false.
Proof.
  destruct y; try discriminate; intros _.
  destruct x as [s | s | | s m e]; reflexivity.
Qed.

Lemma ltb_nan_l (x y : B64.float) : B64.is_nan x = true -> B64.ltb x y = false.
Proof. destruct x; try discriminate; reflexivity. Qed.

Lemma insert_desc_perm (r : score_row) (l : list score_row) :
  Permutation (insert_desc r l) (r :: l).
Proof.
  induction l as [| h t IH]; simpl; [apply Permutation_refl |].
  destruct (B64.ltb (trending_score r) (trending_score h)).
  - eapply perm_trans; [apply perm_skip, IH | apply perm_swap].
  - apply Permutation_refl.
Qed.

Lemma sort_desc_perm (l : list score_row) : Permutation (sort_desc l) l.
Proof.
  induction l as [| h t IH]; simpl; [constructor |].
  eapply perm_trans; [apply insert_desc_perm | now apply perm_skip].
Qed.

Lemma filter_split_perm {A : Type} (p : A -> bool) (l : list A) :
  Permutation (filter (fun x => negb (p x)) l ++ filter p l) l.
Proof.
  induction l as [| a l IH]; simpl; [constructor |].
  destruct (p a); simpl.
  - apply Permutation_sym, Permutation_cons_app, Permutation_sym, IH.
  - now apply perm_skip.
Qed.

Lemma sort_values_desc_shape (rows table : list score_row) :
  sort_values_desc rows = Ok table ->
  rows <> []
  /\ table
     = sort_desc (filter (fun r => negb (B64.is_nan (trending_score r))) rows)
       ++ filter (fun r => B64.is_nan (trending_score r)) rows.
Proof.
  destruct rows as [| r0 rows']; [discriminate |].
  unfold sort_values_desc; intros [= <-]; split; [discriminate | reflexivity].
Qed.

Lemma sort_values_desc_perm (rows table : list score_row) :
  sort_values_desc rows = Ok table -> Permutation table rows.
Proof.
  intros H; apply sort_values_desc_shape in H as [_ ->].
  eapply perm_trans; [| apply (filter_split_perm
                             (fun r => B64.is_nan (trending_score r)))].
  apply Permutation_app_tail, sort_desc_perm.
Qed.

Lemma insert_desc_sorted (r : score_row) (l : list score_row) :
  not_nan r ->
  Forall not_nan l ->
  StronglySorted not_below l ->
  StronglySorted not_below (insert_desc r l).
Proof.
  intros Hr Hnn Hs; induction Hs as [| h t Hs IH Hall]; simpl.
  - repeat constructor.
  - inversion Hnn as [| x xs Hh Ht]; subst.
    destruct (B64.ltb (trending_score r) (trending_score h)) eqn:Hlt.
    + constructor; [now apply IH |].
      apply Forall_forall; intros x Hx.
      apply insert_desc_In in Hx as [-> | Hx].
      * unfold not_below. apply not_true_is_false; intros Hc.
        apply (ltb_rank _ _ Hh Hr) in Hc. apply (ltb_rank _ _ Hr Hh) in Hlt.
        exact (rank_lt_asym _ _ Hlt Hc).
      * rewrite Forall_forall in Hall; now apply Hall.
    + constructor; [now constructor |].
      constructor; [exact Hlt |].
      apply Forall_forall; intros x Hx.
      rewrite Forall_forall in Hall, Ht.
      unfold not_below. apply not_true_is_false; intros Hc.
      apply (ltb_rank _ _ Hr (Ht x Hx)) in Hc.
      assert (H1 : ~ rank_lt (rank (trending_score r)) (rank (trending_score h))).
      { intros H; apply (ltb_rank _ _ Hr Hh) in H; congruence. }
      assert (H2 : ~ rank_lt (rank (trending_score h)) (rank (trending_score x))).
      { intros H; apply (ltb_rank _ _ Hh (Ht x Hx)) in H.
        pose proof (Hall x Hx) as Hb; unfold not_below in Hb; congruence. }
      exact (rank_lt_total _ _ _ H1 H2 Hc).
Qed.

Lemma sort_desc_sorted (l : list score_row) :
  Forall not_nan l -> StronglySorted not_below (sort_desc l).
Proof.
  induction l as [| h t IH]; simpl; intros Hnn; [constructor |].
  inversion Hnn as [| x xs Hh Ht]; subst.
  apply insert_desc_sorted; [exact Hh | | now apply IH].
  apply Forall_forall; intros x Hx. rewrite sort_desc_In in Hx.
  rewrite Forall_forall in Ht; now apply Ht.
Qed.

Lemma sorted_app_nan (l1 l2 : list score_row) :
  StronglySorted not_below l1 ->
  Forall (fun r => B64.is_nan (trending_score r) = true) l2 ->
  StronglySorted not_below (l1 ++ l2).
Proof.
  intros H1 H2; induction H1 as [| a t Hs IH Hall]; simpl.
  - induction H2 as [| b l2 Hb H2 IH2]; constructor; [exact IH2 |].
    apply Forall_forall; intros x _. now apply ltb_nan_l.
  - constructor; [exact IH |].
    apply Forall_app; split; [exact Hall |].
    eapply Forall_impl; [| exact H2].
    intros x Hx. now apply ltb_nan_r.
Qed.

(** On floats other than NaN, [<=] is the order of the ranks. *)
Lemma leb_rank (x y : B64.float) :
  B64.is_nan x = false ->
  B64.is_nan y = false ->
  (SFleb x y = true <-> ~ rank_lt (rank y) (rank x)).
Proof.
  unfold SFleb, rank_lt.
  destruct x as [sx | sx | | sx mx ex], y as [sy | sy | | sy my ey];
    try discriminate; intros _ _;
    try destruct sx; try destruct sy; simpl;
    try (split; [discriminate | lia]);
    try (split; [intros _; lia | reflexivity]).
  - destruct (Z.compare_spec ex ey) as [-> | Hlt | Hgt].
    + rewrite Pos.compare_cont_spec; simpl.
      destruct (Pos.compare_spec mx my) as [-> | Hm | Hm]; simpl;
        (split; [try discriminate; intros _ | try reflexivity; intros H]); lia.
    + split; [discriminate | lia].
    + split; [intros _; lia | reflexivity].
  - destruct (Z.compare_spec ex ey) as [-> | Hlt | Hgt].
    + rewrite Pos.compare_cont_spec; simpl.
      destruct (Pos.compare_spec mx my) as [-> | Hm | Hm]; simpl;
        (split; [try discriminate; intros _ | try reflexivity; intros H]); lia.
    + split; [intros _; lia | reflexivity].
    + split; [discriminate | lia].
Qed.

(** In a list of numbers followed by NaNs, below a NaN stand only NaNs. *)
Lemma nan_rows_last (nums nans : list score_row) :
  Forall not_nan nums ->
  Forall (fun r => B64.is_nan (trending_score r) = true) nans ->
  forall i j ri rj,
    (i < j)%nat ->
    nth_error (nums ++ nans) i = Some ri ->
    nth_error (nums ++ nans) j = Some rj ->
    B64.is_nan (trending_score ri) = true ->
    B64.is_nan (trending_score rj) = true.
Proof.
  intros Hnums Hnans i j ri rj Hij Hi Hj Hnan.
  destruct (Nat.lt_ge_cases i (length nums)) as [Hlt | Hge].
  - rewrite nth_error_app1 in Hi by exact Hlt.
    apply nth_error_In in Hi. rewrite Forall_forall in Hnums.
    specialize (Hnums ri Hi); unfold not_nan in Hnums; congruence.
  - rewrite nth_error_app2 in Hj by lia.
    apply nth_error_In in Hj. rewrite Forall_forall in Hnans.
    now apply Hnans.
Qed.

Lemma sorted_nth (l : list score_row) :
  StronglySorted not_below l ->
  forall i j ri rj,
    (i < j)%nat ->
    nth_error l i = Some ri ->
    nth_error l j = Some rj ->
    not_below ri rj.
Proof.
  induction 1 as [| a t Hs IH Hall]; intros i j ri rj Hij Hi Hj.
  - destruct i; discriminate.
  - destruct j as [| j]; [lia |].
    destruct i as [| i]; simpl in Hi, Hj.
    + injection Hi as <-. rewrite Forall_forall in Hall.
      apply Hall. eapply nth_error_In; exact Hj.
    + apply (IH i j); [lia | exact Hi | exact Hj].
Qed.

Lemma score_items_items (self : trend) (df : list group_row) (items : list Z) :
  forall rows, score_items self df items = Ok rows -> map item rows = items.
Proof.
  induction items as [| it rest IH]; simpl; intros rows H.
  - now injection H as <-.
  - destruct (zvalue self df it (max_length self)) as [z |]; simpl in H;
      [| discriminate].
    destruct (score_items self df rest) as [rows' |]; simpl in H;
      [| discriminate].
    injection H as <-; simpl. now rewrite (IH rows').
Qed.

Lemma score_items_raises (self : trend) (df : list group_row) (items : list Z)
      (it : Z) (e : exn) :
  In it items ->
  zvalue self df it (max_length self) = Raise e ->
  exists e', score_items self df items = Raise e'.
Proof.
  induction items as [| h rest IH]; simpl; intros Hin Hz; [destruct Hin |].
  destruct (zvalue self df h (max_length self)) as [z |] eqn:Hh; simpl.
  - destruct Hin as [-> | Hin]; [congruence |].
    destruct (IH Hin Hz) as [e' ->]. now exists e'.
  - now exists e0.
Qed.

End RankingTable.

(** X9: a table returned by [calc] has exactly one row per item of
    [item_list], is not empty, and each row carries the score [zvalue]
    gives its item. *)
Theorem calc_one_row_per_item
  (self : trend) (items : list Z) (df : list group_row)
  (table : list score_row) :
  item_list self = Some items ->
  data self = Some df ->
  calc self = Ok table ->
  Permutation (map item table) items
  /\ table <> []
  /\ forall r, In r table ->
               zvalue self df (item r) (max_length self)
               = Ok (trending_score r).
Proof.
  intros Hitems Hdata Hcalc. unfold calc in Hcalc.
  rewrite Hitems, Hdata in Hcalc.
  destruct (score_items self df items) as [rows |] eqn:Hrows; simpl in Hcalc;
    [| discriminate].
  pose proof (sort_values_desc_perm _ _ Hcalc) as Hperm.
  split; [| split].
  - rewrite <- (score_items_items _ _ _ _ Hrows). now apply Permutation_map.
  - apply sort_values_desc_shape in Hcalc as [Hne _].
    intros ->. apply Permutation_nil in Hperm. contradiction.
  - intros r Hr. apply (score_items_rows _ _ _ _ Hrows).
    eapply Permutation_in; [exact Hperm | exact Hr].
Qed.

Lemma calc_one_row_per_item_witness :
  Permutation (map item sample_table) [1; 2]
  /\ sample_table <> []
  /\ forall r, In r sample_table ->
               zvalue sample_trend sample_rows (item r)
                      (max_length sample_trend)
               = Ok (trending_score r).
Proof.
  apply (calc_one_row_per_item sample_trend [1; 2] sample_rows sample_table);
    reflexivity.
Defined.

(** X10: a table returned by [calc] is in decreasing order of score with
    the NaN scores last: of two rows, if the upper one has a NaN score so
    has the lower one; no row stands above a row with a strictly greater
    score; and a row above a row whose score is a number has a score that
    is a number at least as great. *)
Theorem calc_table_sorted
  (self : trend) (table : list score_row) (i j : nat) (ri rj : score_row) :
  calc self = Ok table ->
  (i < j)%nat ->
  nth_error table i = Some ri ->
  nth_error table j = Some rj ->
  (B64.is_nan (trending_score ri) = true ->
   B64.is_nan (trending_score rj) = true)
  /\ B64.ltb (trending_score ri) (trending_score rj) = false
  /\ (B64.is_nan (trending_score rj) = false ->
      B64.is_nan (trending_score ri) = false
      /\ SFleb (trending_score rj) (trending_score ri) = true).
Proof.
  intros Hcalc Hij Hi Hj. unfold calc in Hcalc.
  destruct (item_list self) as [items |]; [| discriminate].
  destruct (data self) as [df |]; [| discriminate].
  destruct (score_items self df items) as [rows |]; simpl in Hcalc;
    [| discriminate].
  apply sort_values_desc_shape in Hcalc as [_ ->].
  set (nums := sort_desc
                 (filter (fun r => negb (B64.is_nan (trending_score r))) rows))
    in *.
  set (nans := filter (fun r => B64.is_nan (trending_score r)) rows) in *.
  assert (Hnums : Forall not_nan nums).
  { apply Forall_forall; intros x Hx. unfold nums in Hx.
    rewrite sort_desc_In in Hx. apply filter_In in Hx as [_ Hx].
    now apply negb_true_iff in Hx. }
  assert (Hnans : Forall (fun r => B64.is_nan (trending_score r) = true) nans).
  { apply Forall_forall; intros x Hx. now apply filter_In in Hx as [_ Hx]. }
  assert (Hlast : B64.is_nan (trending_score ri) = true ->
                  B64.is_nan (trending_score rj) = true).
  { apply (nan_rows_last nums nans Hnums Hnans i j ri rj Hij Hi Hj). }
  assert (Hlt : B64.ltb (trending_score ri) (trending_score rj) = false).
  { eapply (sorted_nth _ _ i j ri rj Hij Hi Hj). Unshelve.
    apply sorted_app_nan; [| exact Hnans].
    apply sort_desc_sorted. apply Forall_forall; intros x Hx.
    apply filter_In in Hx as [_ Hx]. now apply negb_true_iff in Hx. }
  split; [exact Hlast | split; [exact Hlt |]].
  intros Hj_num.
  assert (Hi_num : B64.is_nan (trending_score ri) = false).
  { destruct (B64.is_nan (trending_score ri)) eqn:E; [| reflexivity].
    rewrite (Hlast eq_refl) in Hj_num; discriminate. }
  split; [exact Hi_num |].
  apply (leb_rank _ _ Hj_num Hi_num).
  intros Hc. apply (ltb_rank _ _ Hi_num Hj_num) in Hc. congruence.
Qed.

Lemma calc_table_sorted_witness :
  (B64.is_nan (S754_zero false) = true ->
   B64.is_nan B64.neg_infinity = true)
  /\ B64.ltb (S754_zero false) B64.neg_infinity = false
  /\ (B64.is_nan B64.neg_infinity = false ->
      B64.is_nan (S754_zero false) = false
      /\ SFleb B64.neg_infinity (S754_zero false) = true).
Proof.
  apply (calc_table_sorted sample_trend sample_table 0 1
           {| item := 1; trending_score := S754_zero false |}
           {| item := 2; trending_score := B64.neg_infinity |}).
  - reflexivity.
  - lia.
  - reflexivity.
  - reflexivity.
Defined.

(** X11: [calc] returns no partial table: if [zvalue] raises for one item
    of [item_list], [calc] raises. *)
Theorem calc_raises_when_an_item_raises
  (self : trend) (items : list Z) (df : list group_row) (it : Z) (e : exn) :
  item_list self = Some items ->
  data self = Some df ->
  In it items ->
  zvalue self df it (max_length self) = Raise e ->
  exists e', calc self = Raise e'.
Proof.
  intros Hitems Hdata Hin Hz. unfold calc. rewrite Hitems, Hdata.
  destruct (score_items_raises self df items it e Hin Hz) as [e' ->].
  now exists e'.
Qed.

Lemma calc_raises_when_an_item_raises_witness :
  exists e', calc future_trend = Raise e'.
Proof.
  apply (calc_raises_when_an_item_raises future_trend [1] future_rows 1
                                         IndexError).
  - reflexivity.
  - reflexivity.
  - now left.
  - reflexivity.
Defined.

(** ** The engine: how history and window compose *)

Section EngineComposition.

Context {F : Type} (A : Arith F).

Lemma history_loop_app (d : F) (l1 l2 : list Z) :
  forall a s,
    history_loop A d (l1 ++ l2) a s
    = ('(a', s') <- history_loop A d l1 a s ;; history_loop A d l2 a' s').
Proof.
  induction l1 as [| p l1 IH]; intros a s; simpl; [reflexivity |].
  destruct (add_to_history A d p a s) as [[a' s'] |]; simpl; [apply IH | reflexivity].
Qed.

Lemma observed_loop_snoc (d : F) (w : list Z) (v : Z) :
  forall a0 s0 trends,
    observed_loop A d (w ++ [v]) a0 s0 = Ok trends ->
    exists a s tw z,
      history_loop A d w a0 s0 = Ok (a, s)
      /\ observed_loop A d w a0 s0 = Ok tw
      /\ calculate_zscore A a a s v = Ok z
      /\ trends = tw ++ [z].
Proof.
  induction w as [| u w IH]; intros a0 s0 trends; simpl.
  - destruct (calculate_zscore A a0 a0 s0 v) as [z |] eqn:Hz; simpl;
      [| discriminate].
    destruct (add_to_history A d v a0 s0) as [[a' s'] |]; simpl; [| discriminate].
    intros [= <-]. exists a0, s0, [], z; repeat split. exact Hz.
  - destruct (calculate_zscore A a0 a0 s0 u) as [zu |]; simpl; [| discriminate].
    destruct (add_to_history A d u a0 s0) as [[a1 s1] |]; simpl; [| discriminate].
    destruct (observed_loop A d (w ++ [v]) a1 s1) as [t |] eqn:Ht; simpl;
      [| discriminate].
    intros [= <-].
    destruct (IH a1 s1 t Ht) as [a [s [tw [z [Hh [Ho [Hz ->]]]]]]].
    exists a, s, (zu :: tw), z. rewrite Hh, Ho; repeat split; assumption.
Qed.

(** X12: absorbing a history in two pieces gives the statistics of the
    whole: the state after [data ++ more] is the state after [data]
    updated with the points of [more]. *)
Theorem history_state_app (data more : list Z) (d : F) :
  data <> [] ->
  history_state A (data ++ more) d
  = ('(a, s) <- history_state A data d ;; history_loop A d more a s).
Proof.
  destruct data as [| d0 rest]; [contradiction |]; intros _.
  change ((d0 :: rest) ++ more) with (d0 :: (rest ++ more)).
  unfold history_state.
  destruct (of_int A d0) as [a0 |]; cbn [bind]; [| reflexivity].
  destruct (of_int A (d0 ^ 2)) as [s0 |]; cbn [bind]; [| reflexivity].
  apply history_loop_app.
Qed.

(** X13: each observed point is scored against statistics that have
    absorbed the whole history and the observed points before it: the
    last score of a window [w ++ [v]] is the z-score of [v] in the state
    reached after [data ++ w]. *)
Theorem observed_point_after_earlier_points
  (data w : list Z) (v : Z) (d : F) (a0 s0 : F) (trends : list F) :
  history_state A data d = Ok (a0, s0) ->
  observed_loop A d (w ++ [v]) a0 s0 = Ok trends ->
  exists a s tw z,
    history_state A (data ++ w) d = Ok (a, s)
    /\ observed_loop A d w a0 s0 = Ok tw
    /\ calculate_zscore A a a s v = Ok z
    /\ trends = tw ++ [z].
Proof.
  intros Hst Hobs.
  destruct (observed_loop_snoc d w v a0 s0 trends Hobs)
    as [a [s [tw [z [Hh [Ho [Hz Ht]]]]]]].
  exists a, s, tw, z; repeat split; try assumption.
  destruct data as [| d0 rest]; [discriminate Hst |].
  change ((d0 :: rest) ++ w) with (d0 :: (rest ++ w)).
  unfold history_state in Hst |- *.
  destruct (of_int A d0) as [x |]; cbn [bind] in *; [| discriminate].
  destruct (of_int A (d0 ^ 2)) as [y |]; cbn [bind] in *; [| discriminate].
  rewrite history_loop_app, Hst; cbn [bind]. exact Hh.
Qed.

End EngineComposition.

Lemma history_state_app_witness :
  history_state B64.arith ([5; 7] ++ [6]) B64.f0_1
  = ('(a, s) <- history_state B64.arith [5; 7] B64.f0_1 ;;
     history_loop B64.arith B64.f0_1 [6] a s).
Proof.
  apply (history_state_app B64.arith [5; 7] [6] B64.f0_1).
  discriminate.
Defined.

Lemma observed_point_after_earlier_points_witness :
  exists a s tw z,
    history_state B64.arith ([0; 10] ++ [10]) B64.f0_5 = Ok (a, s)
    /\ observed_loop B64.arith B64.f0_5 [10]
                     (S754_finite false 5629499534213120 (-50))
                     (S754_finite false 7036874417766400 (-47)) = Ok tw
    /\ calculate_zscore B64.arith a a s 20 = Ok z
    /\ [S754_finite false 4503599627370496 (-52);
        S754_finite false 7036874417766400 (-51)] = tw ++ [z].
Proof.
  apply (observed_point_after_earlier_points
           B64.arith [0; 10] [10] 20 B64.f0_5
           (S754_finite false 5629499534213120 (-50))
           (S754_finite false 7036874417766400 (-47))).
  - vm_compute; reflexivity.
  - vm_compute; reflexivity.
Defined.

(** ** Plotting and the application *)

Section Plotting.

Lemma plot_lines_loaded (df : list group_row) (items : list Z) :
  plot_lines (Some df) items
  = Ok (map (fun it => (rev (map lag (filter_item df it)),
                        rev (map user_count (filter_item df it)))) items).
Proof.
  induction items as [| it rest IH]; simpl; [reflexivity |].
  now rewrite IH.
Qed.

Lemma sorted_filter {A : Type} (R : A -> A -> Prop) (p : A -> bool) (l : list A) :
  StronglySorted R l -> StronglySorted R (filter p l).
Proof.
  induction 1 as [| a t Hs IH Hall]; simpl; [constructor |].
  destruct (p a); [| exact IH].
  constructor; [exact IH |].
  apply Forall_forall; intros x Hx. apply filter_In in Hx as [Hx _].
  rewrite Forall_forall in Hall; now apply Hall.
Qed.

Lemma item_lags_increasing (rows : list group_row) (it : Z) :
  StronglySorted (fun a b => klt (row_key a) (row_key b)) rows ->
  Forall (fun r => g_item r = it) rows ->
  StronglySorted Z.lt (map lag rows).
Proof.
  induction 1 as [| a t Hs IH Hall]; intros Hit; simpl; [constructor |].
  inversion Hit as [| x xs Ha Ht]; subst.
  constructor; [now apply IH |].
  apply Forall_forall; intros l Hl.
  apply in_map_iff in Hl as [r [<- Hr]].
  rewrite Forall_forall in Hall, Ht.
  specialize (Hall r Hr). apply klt_iff in Hall.
  unfold row_key in Hall; simpl in Hall. rewrite (Ht r Hr) in Hall. lia.
Qed.

Lemma sorted_map_keys (df : list group_row) :
  StronglySorted klt (map row_key df) ->
  StronglySorted (fun a b => klt (row_key a) (row_key b)) df.
Proof.
  induction df as [| a t IH]; simpl; intros H; [constructor |].
  inversion H as [| x xs Hs Hall]; subst.
  constructor; [now apply IH |].
  apply Forall_forall; intros r Hr. rewrite Forall_forall in Hall.
  apply Hall. now apply in_map.
Qed.

Lemma sorted_rev (l : list Z) :
  StronglySorted Z.lt l -> StronglySorted Z.gt (rev l).
Proof.
  induction 1 as [| a t Hs IH Hall]; simpl; [constructor |].
  assert (G : forall l', StronglySorted Z.gt l' ->
                         Forall (fun x => a < x) l' ->
                         StronglySorted Z.gt (l' ++ [a])).
  { induction 1 as [| b u Hu IHu Hb]; intros Hgt; simpl;
      [repeat constructor |].
    inversion Hgt as [| y ys Hab Hrest]; subst.
    constructor; [now apply IHu |].
    apply Forall_app; split; [exact Hb |].
    repeat constructor; lia. }
  apply G; [exact IH |].
  apply Forall_forall; intros x Hx. apply in_rev in Hx.
  rewrite Forall_forall in Hall; now apply Hall.
Qed.

End Plotting.

(** X18: with a table aggregated by [load_data] (rows increasing in item
    and bucket), [plot_trend] draws one line per requested item, labelled
    by the item; the line lists the buckets of the item from the newest to
    the oldest, each with its count. *)
Theorem plot_trend_lines
  (self : trend) (df : list group_row) (items : list Z)
  (lines : list (list Z * list Z)) (labels : list Z) :
  data self = Some df ->
  StronglySorted klt (map row_key df) ->
  plot_trend self items = Ok (lines, labels) ->
  labels = items
  /\ length lines = length items
  /\ forall k it xs ys,
       nth_error items k = Some it ->
       nth_error lines k = Some (xs, ys) ->
       StronglySorted Z.gt xs
       /\ combine xs ys
          = rev (map (fun r => (lag r, user_count r)) (filter_item df it))
       /\ length xs = length ys.
Proof.
  intros Hdata Hsorted Hplot. unfold plot_trend in Hplot.
  rewrite Hdata, plot_lines_loaded in Hplot; simpl in Hplot.
  injection Hplot as <- <-.
  split; [reflexivity |]. split; [apply length_map |].
  intros k it xs ys Hit Hline.
  rewrite nth_error_map, Hit in Hline; simpl in Hline.
  injection Hline as <- <-.
  split; [| split].
  - apply sorted_rev. apply (item_lags_increasing _ it).
    + apply sorted_filter. now apply sorted_map_keys.
    + apply Forall_forall; intros r Hr.
      apply filter_In in Hr as [_ Hr]. now apply Z.eqb_eq.
  - generalize (filter_item df it); intros rows.
    induction rows as [| r rows IH]; simpl; [reflexivity |].
    rewrite <- IH.
    assert (G : forall (l1 : list Z) (l2 : list Z) a b,
               length l1 = length l2 ->
               combine (l1 ++ [a]) (l2 ++ [b]) = combine l1 l2 ++ [(a, b)]).
    { induction l1 as [| x l1 IHl]; intros [| y l2] a b Hl; simpl in *;
        try discriminate; [reflexivity |].
      f_equal. apply IHl. now injection Hl. }
    apply G. now rewrite !length_rev, !length_map.
  - now rewrite !length_rev, !length_map.
Qed.

Lemma plot_trend_lines_witness :
  [1; 2] = [1; 2]
  /\ length [([0; -1], [1; 1]); ([-1], [1])] = length [1; 2]
  /\ forall k it xs ys,
       nth_error [1; 2] k = Some it ->
       nth_error [([0; -1], [1; 1]); ([-1], [1])] k = Some (xs, ys) ->
       StronglySorted Z.gt xs
       /\ combine xs ys
          = rev (map (fun r => (lag r, user_count r))
                     (filter_item sample_rows it))
       /\ length xs = length ys.
Proof.
  apply (plot_trend_lines sample_trend sample_rows [1; 2]
           [([0; -1], [1; 1]); ([-1], [1])] [1; 2]).
  - reflexivity.
  - repeat constructor.
  - reflexivity.
Defined.

Section Application.

Lemma NoDup_firstn {A : Type} (n : nat) (l : list A) :
  NoDup l -> NoDup (firstn n l).
Proof.
  intros H. rewrite <- (firstn_skipn n l) in H.
  now apply NoDup_app_remove_r in H.
Qed.

Lemma In_firstn {A : Type} (n : nat) (l : list A) (x : A) :
  In x (firstn n l) -> In x l.
Proof.
  intros H. rewrite <- (firstn_skipn n l). apply in_or_app; now left.
Qed.

End Application.

Lemma top_items_of_ranking
  (self0 self' : trend) (events : list event) (now : Z)
  (tbl : list score_row) (n : nat) :
  load_data self0 events now = Ok self' ->
  calc self' = Ok tbl ->
  (length (map item (firstn n tbl)) <= n)%nat
  /\ NoDup (map item (firstn n tbl))
  /\ forall it, In it (map item (firstn n tbl)) ->
                exists e, In e events /\ item_id e = it.
Proof.
  intros Hload Hcalc.
  destruct (load_data_ok _ _ _ _ Hload) as [Hdf [Hitems _]].
  unfold calc in Hcalc. rewrite Hitems, Hdf in Hcalc.
  destruct (score_items self' _ _) as [rows |] eqn:Hrows; simpl in Hcalc;
    [| discriminate].
  pose proof (sort_values_desc_perm _ _ Hcalc) as Hperm.
  pose proof (score_items_items _ _ _ _ Hrows) as Hmap.
  set (df := groupby_count
               (map (fun e => (item_id e, bucket (int_days self0) now e,
                               user_id e))
                    (sort_by_time events))) in *.
  assert (Hp : Permutation (map item tbl) (unique (map g_item df)))
    by (rewrite <- Hmap; now apply Permutation_map).
  destruct (unique_spec (map g_item df)) as [Hnd Hin].
  split; [| split].
  - rewrite length_map, length_firstn. apply Nat.le_min_l.
  - rewrite <- firstn_map. apply NoDup_firstn.
    eapply Permutation_NoDup; [apply Permutation_sym, Hp | exact Hnd].
  - intros it Hit. rewrite <- firstn_map in Hit. apply In_firstn in Hit.
    apply (Permutation_in _ Hp), Hin in Hit.
    apply in_map_iff in Hit as [r [<- Hr]].
    destruct (group_row_event _ _ _ _ Hr) as [e [He [Hi _]]].
    now exists e.
Qed.

(** X19: when [app] returns, it returns the ranking that decay 0.1 and an
    interval of 40 days give, and the items it plots are the first rows of
    that ranking: at most three, pairwise distinct, all items of the log,
    one line each. *)
Theorem app_plots_top_of_ranking
  (events : list event) (now : Z) (table : list score_row)
  (lines : list (list Z * list Z)) (labels : list Z) :
  app events now = Ok (table, (lines, labels)) ->
  run B64.f0_1 40 events now = Ok table
  /\ labels = map item (firstn 3 table)
  /\ (length labels <= 3)%nat
  /\ NoDup labels
  /\ length lines = length labels
  /\ forall it, In it labels -> exists e, In e events /\ item_id e = it.
Proof.
  intros H. unfold app, init in H; cbn [bind] in H.
  remember {| max_length := None; decay := B64.f0_1; int_days := 40;
              item_list := None; data := None |} as self0 eqn:Hself0.
  destruct (load_data self0 events now) as [self' |] eqn:Hload;
    cbn [bind] in H; [| discriminate].
  destruct (calc self') as [tbl |] eqn:Hcalc; cbn [bind] in H; [| discriminate].
  destruct (load_data_ok _ _ _ _ Hload) as [Hdf _].
  unfold plot_trend in H. rewrite Hdf, plot_lines_loaded in H; cbn [bind] in H.
  apply (f_equal (fun r => match r with Ok x => Some x | Raise _ => None end))
    in H.
  injection H as Ht Hlines Hlabels.
  destruct (top_items_of_ranking _ _ _ _ _ 3 Hload Hcalc) as [Hlen [Hnd Hev]].
  rewrite <- Ht, <- Hlines, <- Hlabels.
  split; [unfold run, init; cbn [bind]; now rewrite <- Hself0, Hload |].
  split; [reflexivity |]. split; [exact Hlen |]. split; [exact Hnd |].
  split; [now rewrite !length_map | exact Hev].
Qed.

Lemma app_plots_top_of_ranking_witness :
  run B64.f0_1 40 [ev 2 3 5; ev 1 7 0; ev 1 7 3456000] 3456000
  = Ok sample_table
  /\ [1; 2] = map item (firstn 3 sample_table)
  /\ (length [1; 2] <= 3)%nat
  /\ NoDup [1; 2]
  /\ length [([0; -1], [1; 1]); ([-1], [1])] = length [1; 2]
  /\ forall it, In it [1; 2] ->
                exists e, In e [ev 2 3 5; ev 1 7 0; ev 1 7 3456000]
                          /\ item_id e = it.
Proof.
  apply (app_plots_top_of_ranking
           [ev 2 3 5; ev 1 7 0; ev 1 7 3456000] 3456000 sample_table
           [([0; -1], [1; 1]); ([-1], [1])] [1; 2]).
  vm_compute; reflexivity.
Defined.

(** ** Days and buckets *)

Lemma dt_days_dates (now t : Z) : dt_days now t = date t - date now.
Proof.
  unfold dt_days, date, seconds_per_day.
  replace (t - 86400 * (now / 86400)) with (t + (- (now / 86400)) * 86400) by lia.
  rewrite Z.div_add by lia. lia.
Qed.

(** X20: the day difference of an event is the difference of the two
    calendar dates, whatever the time of day of the event and of the
    clock: two events of the same date, and two clock readings of the same
    date, give the same difference. *)
Theorem dt_days_is_date_difference (now now' t t' : Z) :
  dt_days now t = date t - date now
  /\ (date t = date t' -> date now = date now' ->
      dt_days now t = dt_days now' t').
Proof.
  split; [apply dt_days_dates |].
  intros Ht Hn. rewrite !dt_days_dates. lia.
Qed.

(** X21: buckets follow time: with a positive interval a later event is
    never in an earlier bucket. *)
Theorem bucket_monotone (interval_days now : Z) (e1 e2 : event) :
  0 < interval_days ->
  interaction_time e1 <= interaction_time e2 ->
  bucket interval_days now e1 <= bucket interval_days now e2.
Proof.
  intros Hd Ht; unfold bucket.
  apply Z.quot_le_mono; [exact Hd |].
  rewrite !dt_days_dates.
  unfold date, seconds_per_day.
  pose proof (Z.div_le_mono _ _ 86400 ltac:(lia) Ht). lia.
Qed.

Lemma bucket_monotone_witness :
  bucket 7 864000 (ev 1 7 0) <= bucket 7 864000 (ev 1 7 864000).
Proof.
  apply (bucket_monotone 7 864000 (ev 1 7 0) (ev 1 7 864000)).
  - lia.
  - simpl; lia.
Defined.

(** X22: truncation toward zero makes the current bucket wider than the
    others: with a positive interval an event is in bucket 0 exactly when
    it is dated less than [interval_days] days before or after the clock's
    date. *)
Theorem bucket_zero_span (interval_days now : Z) (e : event) :
  0 < interval_days ->
  (bucket interval_days now e = 0
   <-> - interval_days < dt_days now (interaction_time e) < interval_days).
Proof.
  intros Hd; unfold bucket.
  set (n := dt_days now (interaction_time e)).
  split.
  - intros Hq.
    destruct (Z_lt_le_dec n 0) as [Hneg | Hpos].
    + pose proof (Z.quot_rem' (- n) interval_days) as Hqr.
      rewrite Z.quot_opp_l, Hq in Hqr by lia.
      pose proof (Z.rem_bound_pos (- n) interval_days ltac:(lia) Hd). lia.
    + pose proof (Z.quot_rem' n interval_days) as Hqr. rewrite Hq in Hqr.
      pose proof (Z.rem_bound_pos n interval_days Hpos Hd). lia.
  - intros [Hlo Hhi].
    destruct (Z_lt_le_dec n 0) as [Hneg | Hpos].
    + assert (E : Z.quot (- n) interval_days = 0)
        by (apply Z.quot_small; lia).
      rewrite Z.quot_opp_l in E by lia. lia.
    + apply Z.quot_small; lia.
Qed.

Lemma bucket_zero_span_witness :
  bucket 7 864000 (ev 1 7 1382400) = 0
  <-> - 7 < dt_days 864000 (interaction_time (ev 1 7 1382400)) < 7.
Proof.
  apply (bucket_zero_span 7 864000 (ev 1 7 1382400)). lia.
Defined.
